(** * yatogm: the fetch / dedupe / forward pipeline, embedded and verified

  A shallow embedding of the Go packages [pop3], [state], [smtp] and
  [worker].  Byte strings are [string]; Go maps are [gmap]; a Go [int] is a
  [Z] (64-bit); a Go [error] value is an [option error]; everything outside
  the process (the peer's byte stream, the file system, the SMTP relay) is
  explicit state with the outcome of each fallible system call supplied by
  the environment. *)

From Stdlib Require Import ZArith String Ascii List Lia Permutation DecimalString.
From stdpp Require Import gmap strings list fin_maps sorting.
From Equations Require Import Equations.
Import ListNotations.

Local Open Scope string_scope.
Local Open Scope list_scope.
Local Open Scope Z_scope.

(** ** Go values shared by all packages *)

(** Go [error] values.  [EOF] is [io.EOF]; [ErrNotExist] is any error for
  which [os.IsNotExist] holds; [wrapError] is [fmt.Errorf] with [%w]. *)
Inductive error : Type :=
| EOF
| ErrNotExist
| errorString (msg : string)
| wrapError (msg : string) (err : error).

(** A Go call returning [(T, error)]. *)
Inductive result (T : Type) : Type :=
| Ok (v : T)
| Err (e : error).
Arguments Ok {T} v.
Arguments Err {T} e.

(** A Go call that may panic (nil dereference, write to a nil map). *)
Inductive outcome (T : Type) : Type :=
| Ret (v : T)
| Panic.
Arguments Ret {T} v.
Arguments Panic {T}.

Definition CR : ascii := "013"%char.
Definition LF : ascii := "010"%char.
Definition CRLF : string := String CR (String LF "").

Definition maxInt : Z := 2 ^ 63 - 1.
Definition minInt : Z := - 2 ^ 63.

(** [x++] on a Go [int]. *)
Definition incr (x : Z) : Z := if x + 1 >? maxInt then minInt else x + 1.

(** ** Package strings / strconv (the functions the repository calls) *)

Module strings.

Fixpoint ContainsByte (cutset : string) (c : ascii) : bool :=
  match cutset with
  | "" => false
  | String d cutset' => if Ascii.eqb c d then true else ContainsByte cutset' c
  end.

(** [strings.TrimRight(s, cutset)]: drop every trailing byte of [cutset]. *)
Fixpoint TrimRight (s cutset : string) : string :=
  match s with
  | "" => ""
  | String c s' =>
      match TrimRight s' cutset with
      | "" => if ContainsByte cutset c then "" else String c ""
      | t => String c t
      end
  end.

Definition HasPrefix (s prefix : string) : bool := String.prefix prefix s.

(** [strings.SplitN(s, " ", 2)]: one part when [s] has no space, else the
    text before the first space and everything after it. *)
Fixpoint SplitN2 (s : string) : list string :=
  match s with
  | "" => [""]
  | String c s' =>
      if Ascii.eqb c " "%char then [""; s']
      else match SplitN2 s' with
           | p :: ps => String c p :: ps
           | [] => []
           end
  end.

(** [strings.Join(elems, sep)] *)
Fixpoint Join (elems : list string) (sep : string) : string :=
  match elems with
  | [] => ""
  | e :: rest =>
      match rest with
      | [] => e
      | _ => e +:+ sep +:+ Join rest sep
      end
  end.

End strings.

Module strconv.

Definition digit (c : ascii) : option Z :=
  let n := Z.of_nat (nat_of_ascii c) in
  if (48 <=? n) && (n <=? 57) then Some (n - 48) else None.

Fixpoint digits (s : string) (acc : Z) : option Z :=
  match s with
  | "" => Some acc
  | String c s' =>
      match digit c with
      | Some d => digits s' (10 * acc + d)
      | None => None
      end
  end.

(** [strconv.Atoi]: optional sign, at least one decimal digit, and the
    value must fit a 64-bit [int]. *)
Definition Atoi (s : string) : option Z :=
  let '(neg, ds) :=
    match s with
    | String "-" r => (true, r)
    | String "+" r => (false, r)
    | _ => (false, s)
    end in
  match ds with
  | "" => None
  | _ =>
      match digits ds 0 with
      | Some n =>
          let v := if neg : bool then - n else n in
          if (minInt <=? v) && (v <=? maxInt) then Some v else None
      | None => None
      end
  end.

(** [strconv.Itoa] and the [%d] verb. *)
Definition Itoa (n : Z) : string := NilZero.string_of_int (Z.to_int n).

End strconv.

(** ** Package pop3 *)

Module pop3.

(** The buffered reader over the transport: the bytes the peer still
    delivers, and the error every read reports once they run out (end of
    stream, an expired deadline, a reset). *)
Record Reader : Type := mkReader {
  pending : string;
  failure : error
}.

(** What the next write on the transport does. *)
Inductive WriteOutcome : Type :=
| WriteOk
| DeadlineFails (e : error)
| WriteFails (e : error).

(** The transport: the outcome of each coming write (success once the list
    is used up), what [Close] will report, the commands written so far
    (oldest first), and whether [Close] was called. *)
Record Conn : Type := mkConn {
  writes : list WriteOutcome;
  closeErr : option error;
  sent : list string;
  closed : bool
}.

Record Client : Type := mkClient {
  conn : Conn;
  reader : Reader
}.

(** [bufio.Reader.ReadString(delim)] on the pending bytes: the text up to
    and including the first [delim], or nothing when there is none. *)
Fixpoint splitLine (s : string) (delim : ascii) : option (string * string) :=
  match s with
  | "" => None
  | String c s' =>
      if Ascii.eqb c delim then Some (String c "", s')
      else match splitLine s' delim with
           | Some (line, rest) => Some (String c line, rest)
           | None => None
           end
  end.

Definition ReadString (r : Reader) (delim : ascii) : result string * Reader :=
  match splitLine (pending r) delim with
  | Some (line, rest) => (Ok line, mkReader rest (failure r))
  | None => (Err (failure r), mkReader "" (failure r))
  end.

(** [readResponse]: one status line; only [-ERR] is a server error. *)
Definition readResponse (c : Client) : result string * Client :=
  match ReadString (reader c) LF with
  | (Err e, r) =>
      (match e with
       | EOF => Err (errorString "server closed connection")
       | _ => Err e
       end, mkClient (conn c) r)
  | (Ok line, r) =>
      let line := strings.TrimRight line CRLF in
      let c' := mkClient (conn c) r in
      if strings.HasPrefix line "+OK" then (Ok line, c')
      else if strings.HasPrefix line "-ERR" then
        (Err (errorString ("server error: " +:+ line)), c')
      else (Ok line, c')
  end.

(** [command]: set the deadline, write the command line, read the reply. *)
Definition command (c : Client) (cmd : string) : result string * Client :=
  let k := conn c in
  let '(w, ws) :=
    match writes k with
    | w :: ws => (w, ws)
    | [] => (WriteOk, [])
    end in
  match w with
  | DeadlineFails e =>
      (Err e, mkClient (mkConn ws (closeErr k) (sent k) (closed k)) (reader c))
  | WriteFails e =>
      (Err (wrapError "sending command" e),
       mkClient (mkConn ws (closeErr k) (sent k) (closed k)) (reader c))
  | WriteOk =>
      readResponse
        (mkClient (mkConn ws (closeErr k) (sent k ++ [cmd]) (closed k)) (reader c))
  end.

Definition Login (c : Client) (user pass : string) : option error * Client :=
  match command c ("USER " +:+ user) with
  | (Err e, c1) => (Some (wrapError "pop3 USER" e), c1)
  | (Ok _, c1) =>
      match command c1 ("PASS " +:+ pass) with
      | (Err e, c2) => (Some (wrapError "pop3 PASS" e), c2)
      | (Ok _, c2) => (None, c2)
      end
  end.

(** Termination of the reading loops: a line that was read is not empty. *)
Ltac shorter_rest :=
  match goal with
  | e : splitLine ?s ?d = Some (?line, ?rest) |- _ =>
      clear - e; revert line rest e; generalize s;
      let t := fresh "t" in
      let IH := fresh "IH" in
      let E := fresh "E" in
      intros t; induction t as [|? t IH]; intros line rest E; simpl in E;
      [ discriminate | ];
      match type of E with
      | (if ?b then _ else _) = _ =>
          destruct b;
          [ injection E as <- <-; simpl; lia
          | let E' := fresh "E" in
            destruct (splitLine t d) as [[? ?]|] eqn:E'; [ | discriminate ];
            injection E as <- <-; specialize (IH _ _ eq_refl); simpl; lia ]
      end
  end.

(** The body of the [UIDL] loop for one line that is not the terminator. *)
Definition uidlEntry (line : string) (acc : gmap Z string) : gmap Z string :=
  match strings.SplitN2 line with
  | [p0; p1] =>
      match strconv.Atoi p0 with
      | Some num => <[num := p1]> acc
      | None => acc
      end
  | _ => acc
  end.

Equations? uidlLoop (r : Reader) (acc : gmap Z string)
  : result (gmap Z string) * Reader by wf (String.length (pending r)) lt :=
  uidlLoop r acc with Logic.inspect (splitLine (pending r) LF) => {
    | exist _ None _ => (Err (wrapError "pop3 UIDL read" (failure r)),
                         mkReader "" (failure r));
    | exist _ (Some (line, rest)) _ =>
        let line := strings.TrimRight line CRLF in
        if String.eqb line "." then (Ok acc, mkReader rest (failure r))
        else uidlLoop (mkReader rest (failure r)) (uidlEntry line acc) }.
Proof. shorter_rest. Qed.

Definition UIDList (c : Client) : result (gmap Z string) * Client :=
  match command c "UIDL" with
  | (Err e, c1) => (Err (wrapError "pop3 UIDL" e), c1)
  | (Ok _, c1) =>
      let '(res, r) := uidlLoop (reader c1) ∅ in
      (res, mkClient (conn c1) r)
  end.

(** [line[1:]]; the guard before it makes [line] at least two bytes long. *)
Definition dropFirst (line : string) : string :=
  match line with
  | String _ t => t
  | "" => ""
  end.

(** One pass of the [RETR] loop body on a line that is not the terminator:
    what is written to [buf]. *)
Definition retrLine (line : string) : string :=
  let trimmed := strings.TrimRight line CRLF in
  if strings.HasPrefix trimmed ".." then dropFirst line else line.

Equations? retrLoop (msgNum : Z) (r : Reader) (buf : string)
  : result string * Reader by wf (String.length (pending r)) lt :=
  retrLoop msgNum r buf with Logic.inspect (splitLine (pending r) LF) => {
    | exist _ None _ =>
        (Err (wrapError ("pop3 RETR " +:+ strconv.Itoa msgNum +:+ " read") (failure r)),
         mkReader "" (failure r));
    | exist _ (Some (line, rest)) _ =>
        let trimmed := strings.TrimRight line CRLF in
        if String.eqb trimmed "." then (Ok buf, mkReader rest (failure r))
        else retrLoop msgNum (mkReader rest (failure r)) (buf +:+ retrLine line) }.
Proof. shorter_rest. Qed.

Definition Retrieve (c : Client) (msgNum : Z) : result string * Client :=
  match command c ("RETR " +:+ strconv.Itoa msgNum) with
  | (Err e, c1) => (Err (wrapError ("pop3 RETR " +:+ strconv.Itoa msgNum) e), c1)
  | (Ok _, c1) =>
      let '(res, r) := retrLoop msgNum (reader c1) "" in
      (res, mkClient (conn c1) r)
  end.

Definition Delete (c : Client) (msgNum : Z) : option error * Client :=
  match command c ("DELE " +:+ strconv.Itoa msgNum) with
  | (Err e, c1) => (Some (wrapError ("pop3 DELE " +:+ strconv.Itoa msgNum) e), c1)
  | (Ok _, c1) => (None, c1)
  end.

(** [conn.Close()] *)
Definition connClose (c : Client) : option error * Client :=
  let k := conn c in
  (closeErr k, mkClient (mkConn (writes k) (closeErr k) (sent k) true) (reader c)).

(** [Quit]: send [QUIT], ignore its result, close the transport. *)
Definition Quit (c : Client) : option error * Client :=
  let '(_, c1) := command c "QUIT" in
  connClose c1.

(** [Close]: close the transport without sending [QUIT]. *)
Definition Close (c : Client) : option error * Client :=
  connClose c.

(** [Dial]: [tls] is what the TLS dial produced, a dial error or a fresh
    transport whose greeting is still unread.  Returns the client, or the
    error together with the transport it closed after a bad greeting. *)
Definition Dial (addr : string) (tls : result Client)
  : result Client * option Client :=
  match tls with
  | Err err => (Err (wrapError ("pop3 dial " +:+ addr) err), None)
  | Ok c =>
      match readResponse c with
      | (Err err, c1) => (Err (wrapError "pop3 greeting" err), Some (connClose c1).2)
      | (Ok _, c1) => (Ok c1, None)
      end
  end.

End pop3.

(** ** The file system and the JSON codec, as the packages see them *)

Module os.

(** A path names a regular file, or something that cannot be read (a
    directory, a file without permission); an absent path does not exist. *)
Inductive node : Type :=
| File (content : string)
| Unreadable (e : error).

Definition IsNotExist (e : error) : bool :=
  match e with
  | ErrNotExist => true
  | _ => false
  end.

Definition ReadFile (fs : gmap string node) (name : string) : result string :=
  match fs !! name with
  | None => Err ErrNotExist
  | Some (File content) => Ok content
  | Some (Unreadable e) => Err e
  end.

(** What goes wrong during one [save]: each system call either succeeds or
    fails with the given error; a failed write may leave a partial file. *)
Record Faults : Type := mkFaults {
  mkdirFault : option error;
  writeFault : option (error * option string);
  renameFault : option error
}.

Definition noFaults : Faults := mkFaults None None None.

Definition MkdirAll (ft : Faults) (fs : gmap string node)
  : option error * gmap string node :=
  (mkdirFault ft, fs).

Definition WriteFile (ft : Faults) (name data : string) (fs : gmap string node)
  : option error * gmap string node :=
  match writeFault ft with
  | None => (None, <[name := File data]> fs)
  | Some (e, None) => (Some e, fs)
  | Some (e, Some partial) => (Some e, <[name := File partial]> fs)
  end.

Definition Rename (ft : Faults) (oldpath newpath : string) (fs : gmap string node)
  : option error * gmap string node :=
  match renameFault ft with
  | Some e => (Some e, fs)
  | None =>
      match fs !! oldpath with
      | Some n => (None, <[newpath := n]> (delete oldpath fs))
      | None => (Some ErrNotExist, fs)
      end
  end.

(** [os.Getenv]: the value of the variable, empty when it is not set. *)
Definition Getenv (env : gmap string string) (key : string) : string :=
  default "" (env !! key).

End os.

(** ** Package state *)

Module state.

(** [FetchedUIDs] is [None] for a nil map. *)
Record MailboxState : Type := mkMailboxState {
  FetchedUIDs : option (gmap string bool)
}.

(** [Mailboxes] is [None] for a nil map; a mailbox bound to [None] holds a
    nil [*MailboxState]. *)
Record StateData : Type := mkStateData {
  Mailboxes : option (gmap string (option MailboxState))
}.

Record Tracker : Type := mkTracker {
  filePath : string;
  data : StateData
}.

(** [encoding/json] at type [StateData]. *)
Class JSON : Type := {
  MarshalIndent : StateData → result string;
  Unmarshal : string → result StateData
}.

Section with_json.
Context {codec : JSON}.

Definition load (fs : gmap string os.node) (t : Tracker) : option error * Tracker :=
  match os.ReadFile fs (filePath t) with
  | Err err => (Some err, t)
  | Ok bytes =>
      match Unmarshal bytes with
      | Err _ => (None, t)
      | Ok sd =>
          match Mailboxes sd with
          | Some _ => (None, mkTracker (filePath t) sd)
          | None => (None, t)
          end
      end
  end.

Definition NewTracker (fs : gmap string os.node) (path : string) : result Tracker :=
  let t := mkTracker path (mkStateData (Some ∅)) in
  match load fs t with
  | (Some err, t') =>
      if negb (os.IsNotExist err)
      then Err (wrapError ("loading state from " +:+ path) err)
      else Ok t'
  | (None, t') => Ok t'
  end.

Definition IsFetched (t : Tracker) (mailbox uid : string) : outcome bool :=
  match Mailboxes (data t) with
  | None => Ret false
  | Some mbs =>
      match mbs !! mailbox with
      | None => Ret false
      | Some None => Panic
      | Some (Some ms) =>
          match FetchedUIDs ms with
          | None => Ret false
          | Some uids => Ret (default false (uids !! uid))
          end
      end
  end.

Definition save (ft : os.Faults) (fs : gmap string os.node) (t : Tracker)
  : option error * gmap string os.node :=
  match os.MkdirAll ft fs with
  | (Some err, fs1) => (Some (wrapError "creating state directory" err), fs1)
  | (None, fs1) =>
      match MarshalIndent (data t) with
      | Err err => (Some (wrapError "marshaling state" err), fs1)
      | Ok bytes =>
          let tmpFile := filePath t +:+ ".tmp" in
          match os.WriteFile ft tmpFile bytes fs1 with
          | (Some err, fs2) => (Some (wrapError "writing temp state file" err), fs2)
          | (None, fs2) =>
              match os.Rename ft tmpFile (filePath t) fs2 with
              | (Some err, fs3) => (Some (wrapError "renaming state file" err), fs3)
              | (None, fs3) => (None, fs3)
              end
          end
      end
  end.

(** [ms, ok := t.data.Mailboxes[mailbox]; if !ok { ms = new; ...[mailbox] = ms }]:
    the pointer [ms] and the map after the statement.  Writing the new entry
    into a nil map panics. *)
Definition mailboxEntry (sd : StateData) (mailbox : string)
  : outcome (option MailboxState * gmap string (option MailboxState)) :=
  match Mailboxes sd with
  | None => Panic
  | Some mbs =>
      match mbs !! mailbox with
      | Some ms => Ret (ms, mbs)
      | None =>
          let ms := Some (mkMailboxState (Some ∅)) in
          Ret (ms, <[mailbox := ms]> mbs)
      end
  end.

(** [ms.FetchedUIDs[uid] = true] through the pointer [ms]. *)
Definition setFetched (ms : option MailboxState) (uid : string)
  : outcome (option MailboxState) :=
  match ms with
  | None => Panic
  | Some m =>
      match FetchedUIDs m with
      | None => Panic
      | Some uids => Ret (Some (mkMailboxState (Some (<[uid := true]> uids))))
      end
  end.

Definition MarkFetched (ft : os.Faults) (fs : gmap string os.node) (t : Tracker)
    (mailbox uid : string)
  : outcome (option error * Tracker * gmap string os.node) :=
  match mailboxEntry (data t) mailbox with
  | Panic => Panic
  | Ret (ms, mbs) =>
      match setFetched ms uid with
      | Panic => Panic
      | Ret ms' =>
          let t' := mkTracker (filePath t)
                      (mkStateData (Some (<[mailbox := ms']> mbs))) in
          let '(err, fs') := save ft fs t' in
          Ret (err, t', fs')
      end
  end.

Fixpoint setAllFetched (ms : option MailboxState) (uids : list string)
  : outcome (option MailboxState) :=
  match uids with
  | [] => Ret ms
  | uid :: uids' =>
      match setFetched ms uid with
      | Panic => Panic
      | Ret ms' => setAllFetched ms' uids'
      end
  end.

Definition MarkBatchFetched (ft : os.Faults) (fs : gmap string os.node)
    (t : Tracker) (mailbox : string) (uids : list string)
  : outcome (option error * Tracker * gmap string os.node) :=
  match mailboxEntry (data t) mailbox with
  | Panic => Panic
  | Ret (ms, mbs) =>
      match setAllFetched ms uids with
      | Panic => Panic
      | Ret ms' =>
          let t' := mkTracker (filePath t)
                      (mkStateData (Some (<[mailbox := ms']> mbs))) in
          let '(err, fs') := save ft fs t' in
          Ret (err, t', fs')
      end
  end.

(** [Stats]: [len(v.FetchedUIDs)] per mailbox; a nil entry panics. *)
Definition Stats (t : Tracker) : outcome (gmap string Z) :=
  match Mailboxes (data t) with
  | None => Ret ∅
  | Some mbs =>
      if decide (map_Forall (λ _ v, is_Some v) mbs)
      then Ret (omap (λ v : option MailboxState,
                        ms ← v;
                        Some (match FetchedUIDs ms with
                              | Some uids => Z.of_nat (size uids)
                              | None => 0
                              end)) mbs)
      else Panic
  end.

End with_json.
End state.

(** ** Package net/textproto and net/mail, as far as [Send] uses them *)

Module mail.

Definition isLower (c : ascii) : bool :=
  let n := nat_of_ascii c in (97 <=? n)%nat && (n <=? 122)%nat.
Definition isUpper (c : ascii) : bool :=
  let n := nat_of_ascii c in (65 <=? n)%nat && (n <=? 90)%nat.
Definition isDigit (c : ascii) : bool :=
  let n := nat_of_ascii c in (48 <=? n)%nat && (n <=? 57)%nat.

Definition validHeaderFieldByte (c : ascii) : bool :=
  isLower c || isUpper c || isDigit c
  || strings.ContainsByte "!#$%&'*+-.^_`|~" c.

Fixpoint allValid (s : string) : bool :=
  match s with
  | "" => true
  | String c s' => validHeaderFieldByte c && allValid s'
  end.

Fixpoint canonicalise (upper : bool) (s : string) : string :=
  match s with
  | "" => ""
  | String c s' =>
      let c' :=
        if upper && isLower c then ascii_of_nat (nat_of_ascii c - 32)
        else if negb upper && isUpper c then ascii_of_nat (nat_of_ascii c + 32)
        else c in
      String c' (canonicalise (Ascii.eqb c' "-"%char) s')
  end.

(** [textproto.CanonicalMIMEHeaderKey]: a key with a byte that is not a
    header-field byte is returned as it is. *)
Definition CanonicalMIMEHeaderKey (s : string) : string :=
  if allValid s then canonicalise true s else s.

(** [mail.Header.Get]: the first value under the canonical key, or [""]. *)
Definition Get (h : gmap string (list string)) (key : string) : string :=
  match h !! CanonicalMIMEHeaderKey key with
  | Some (v :: _) => v
  | _ => ""
  end.

(** The header map [textproto.ReadMIMEHeader] builds from the header fields
    in wire order: [m[key] = append(m[key], value)] for each field. *)
Definition headerOf (fields : list (string * string)) : gmap string (list string) :=
  foldl (λ m kv, <[kv.1 := default [] (m !! kv.1) ++ [kv.2]]> m) ∅ fields.

Record Message : Type := mkMessage {
  Header : gmap string (list string);
  Body : string
}.

(** [mail.ReadMessage] is the standard library's parser: it yields the header
    fields in wire order, each key canonicalised, and the body, or fails. *)
Class Parser : Type := {
  readFields : string → result (list (string * string) * string)
}.

Definition ReadMessage {parser : Parser} (raw : string) : result Message :=
  match readFields raw with
  | Ok (fields, body) => Ok (mkMessage (headerOf fields) body)
  | Err e => Err e
  end.

(** An order in which one [range] statement may visit the keys of [h]. *)
Definition rangeOrder (h : gmap string (list string)) (keys : list string) : Prop :=
  keys ≡ₚ (map_to_list h).*1.

(** The Go runtime: the order each [range] over a header map takes. *)
Class MapRange : Type := {
  rangeKeys : gmap string (list string) → list string;
  rangeKeys_order : ∀ h, rangeOrder h (rangeKeys h)
}.

End mail.

(** ** Package smtp *)

Module smtp.

Record Sender : Type := mkSender {
  host : string;
  port : Z;
  username : string;
  password : string;
  to : string
}.

Definition NewSender (host : string) (port : Z) (username password to : string)
  : Sender :=
  mkSender host port username password to.

(** [fmt.Fprintf(&buf, "<name>: %s\r\n", value)] *)
Definition headerLine (nv : string * string) : string :=
  nv.1 +:+ ": " +:+ nv.2 +:+ CRLF.

Definition render (lines : list (string * string)) : string :=
  foldr (λ nv acc, headerLine nv +:+ acc) "" lines.

Definition handled : gmap string bool :=
  list_to_map
    [("From", true); ("To", true); ("Subject", true); ("Date", true);
     ("Message-Id", true); ("Cc", true); ("Reply-To", true);
     ("Content-Type", true); ("Content-Transfer-Encoding", true);
     ("Mime-Version", true)].

Definition nonEmpty (s : string) : bool := negb (String.eqb s "").

(** [if v != "" { Fprintf("<name>: %s\r\n", v) }] *)
Definition ifSet (name v : string) : list (string * string) :=
  if nonEmpty v then [(name, v)] else [].

(** The loop over [msg.Header] that copies what was not handled; [keys] is
    the order the [range] statement visits the keys in. *)
Definition copyRemaining (h : gmap string (list string)) (keys : list string)
  : list (string * string) :=
  flat_map (λ key,
              if default false (handled !! key) then []
              else map (λ v, (key, v)) (default [] (h !! key)))
           keys.

(** The header lines [Send] writes to [buf], in the order it writes them. *)
Definition forwardHeaders (s : Sender) (originalFrom : string)
    (h : gmap string (list string)) (keys : list string)
  : list (string * string) :=
  let origFrom := mail.Get h "From" in
  let origDate := mail.Get h "Date" in
  let origSubject := mail.Get h "Subject" in
  let origMessageID := mail.Get h "Message-Id" in
  let origTo := mail.Get h "To" in
  let origCc := mail.Get h "Cc" in
  let origReplyTo := mail.Get h "Reply-To" in
  let contentType := mail.Get h "Content-Type" in
  let contentTransferEncoding := mail.Get h "Content-Transfer-Encoding" in
  let mimeVersion := mail.Get h "MIME-Version" in
  [("From", to s); ("To", to s)]
  ++ ifSet "Subject" origSubject
  ++ ifSet "Date" origDate
  ++ (if nonEmpty origFrom
      then [("X-Original-From", origFrom); ("Resent-From", origFrom)] else [])
  ++ ifSet "X-Original-To" origTo
  ++ ifSet "X-Original-Cc" origCc
  ++ (if nonEmpty origReplyTo then [("Reply-To", origReplyTo)]
      else if nonEmpty origFrom then [("Reply-To", origFrom)] else [])
  ++ ifSet "X-Original-Message-Id" origMessageID
  ++ [("X-YaToGm-Source", originalFrom); ("X-Mailer", "YaToGm/1.0")]
  ++ ifSet "MIME-Version" mimeVersion
  ++ ifSet "Content-Type" contentType
  ++ ifSet "Content-Transfer-Encoding" contentTransferEncoding
  ++ copyRemaining h keys.

(** The bytes [sendRaw] hands to [sendBytes]. *)
Definition rawBytes (rawEmail originalFrom : string) : string :=
  headerLine ("X-YaToGm-Source", originalFrom)
  +:+ headerLine ("X-YaToGm-Note", "original message could not be parsed")
  +:+ rawEmail.

(** [sendBytes]: [relay] is what [smtp.SendMail] returns for this delivery. *)
Definition sendBytes (relay : option error) (data : string) : option error :=
  match relay with
  | Some err => Some (wrapError "smtp send" err)
  | None => None
  end.

Definition sendRaw (relay : option error) (rawEmail originalFrom : string)
  : option error * option string :=
  let data := rawBytes rawEmail originalFrom in
  (sendBytes relay data, Some data).

(** [readBody]: the body of a parsed message is read from memory, which
    does not fail. *)
Definition readBody (body : string) : result string := Ok body.

(** The bytes [Send] hands to [sendBytes] for a parsed message. *)
Definition forwardBytes (s : Sender) (originalFrom : string)
    (msg : mail.Message) (keys : list string) : result string :=
  let buf := render (forwardHeaders s originalFrom (mail.Header msg) keys) +:+ CRLF in
  match readBody (mail.Body msg) with
  | Err err => Err (wrapError "reading message body" err)
  | Ok body => Ok (buf +:+ body)
  end.

(** [Send]: the error it returns and the bytes it submitted, if any. *)
Definition Send {parser : mail.Parser} {range : mail.MapRange} (s : Sender)
    (relay : option error) (rawEmail originalFrom : string)
  : option error * option string :=
  match mail.ReadMessage rawEmail with
  | Err _ => sendRaw relay rawEmail originalFrom
  | Ok msg =>
      match forwardBytes s originalFrom msg (mail.rangeKeys (mail.Header msg)) with
      | Err err => (Some err, None)
      | Ok data => (sendBytes relay data, Some data)
      end
  end.

End smtp.

(** ** Package config (the records the worker reads) *)

Module config.

Record GmailConfig : Type := mkGmailConfig {
  GmailEmail : string;
  GmailAppPassword : string;
  SMTPHost : string;
  SMTPPort : Z
}.

Record YahooMailbox : Type := mkYahooMailbox {
  Email : string;
  AppPassword : string;
  POP3Host : string;
  POP3Port : Z
}.

Record Config : Type := mkConfig {
  Gmail : GmailConfig;
  Yahoo : list YahooMailbox;
  StatePath : string;
  LogLevel : string
}.

(** [yaml.Unmarshal(data, cfg)] at type [Config]: the document is decoded
    into the value given, which keeps what the document does not set. *)
Class YAML : Type := {
  Unmarshal : string → Config → result Config
}.

(** [if v := os.Getenv(key); v != "" { field = v }]: the field after it. *)
Definition override (env : gmap string string) (key field : string) : string :=
  let v := os.Getenv env key in
  if negb (String.eqb v "") then v else field.

(** The names of the variables of the mailbox at index [i]. *)
Definition passwordKey (i : nat) : string :=
  "YATOGM_YAHOO_" +:+ strconv.Itoa (Z.of_nat i) +:+ "_APP_PASSWORD".
Definition emailKey (i : nat) : string :=
  "YATOGM_YAHOO_" +:+ strconv.Itoa (Z.of_nat i) +:+ "_EMAIL".

Definition applyEnvOverrides (env : gmap string string) (cfg : Config) : Config :=
  mkConfig
    (mkGmailConfig
       (override env "YATOGM_GMAIL_EMAIL" (GmailEmail (Gmail cfg)))
       (override env "YATOGM_GMAIL_APP_PASSWORD" (GmailAppPassword (Gmail cfg)))
       (SMTPHost (Gmail cfg))
       (SMTPPort (Gmail cfg)))
    (imap (λ i y,
             mkYahooMailbox
               (override env (emailKey i) (Email y))
               (override env (passwordKey i) (AppPassword y))
               (POP3Host y)
               (POP3Port y))
          (Yahoo cfg))
    (override env "YATOGM_STATE_PATH" (StatePath cfg))
    (override env "YATOGM_LOG_LEVEL" (LogLevel cfg)).

Definition applyDefaults (cfg : Config) : Config :=
  mkConfig
    (mkGmailConfig
       (GmailEmail (Gmail cfg))
       (GmailAppPassword (Gmail cfg))
       (if String.eqb (SMTPHost (Gmail cfg)) "" then "smtp.gmail.com"
        else SMTPHost (Gmail cfg))
       (if SMTPPort (Gmail cfg) =? 0 then 587 else SMTPPort (Gmail cfg)))
    (map (λ y,
            mkYahooMailbox
              (Email y)
              (AppPassword y)
              (if String.eqb (POP3Host y) "" then "pop.mail.yahoo.com" else POP3Host y)
              (if POP3Port y =? 0 then 995 else POP3Port y))
         (Yahoo cfg))
    (StatePath cfg)
    (LogLevel cfg).

(** The slice [errs] that [validate] builds. *)
Definition errs (cfg : Config) : list string :=
  (if String.eqb (GmailEmail (Gmail cfg)) "" then ["gmail.email is required"] else [])
  ++ (if String.eqb (GmailAppPassword (Gmail cfg)) ""
      then ["gmail.app_password is required (set via config or YATOGM_GMAIL_APP_PASSWORD)"]
      else [])
  ++ (if (length (Yahoo cfg) =? 0)%nat
      then ["at least one yahoo mailbox must be configured"] else [])
  ++ concat
       (imap (λ i y,
                (if String.eqb (Email y) ""
                 then ["yahoo[" +:+ strconv.Itoa (Z.of_nat i) +:+ "].email is required"]
                 else [])
                ++ (if String.eqb (AppPassword y) ""
                    then ["yahoo[" +:+ strconv.Itoa (Z.of_nat i)
                          +:+ "].app_password is required (set via config or YATOGM_YAHOO_"
                          +:+ strconv.Itoa (Z.of_nat i) +:+ "_APP_PASSWORD)"]
                    else []))
             (Yahoo cfg)).

Definition validate (cfg : Config) : option error :=
  if (0 <? length (errs cfg))%nat
  then Some (errorString
               ("missing required fields:" +:+ String LF "  - "
                +:+ strings.Join (errs cfg) (String LF "  - ")))
  else None.

(** [Load]: [fs] is the file system and [env] the environment of the
    process. *)
Definition Load {yaml : YAML} (fs : gmap string os.node) (env : gmap string string)
    (path : string) : result Config :=
  match os.ReadFile fs path with
  | Err err => Err (wrapError ("reading config file " +:+ path) err)
  | Ok data =>
      let cfg := mkConfig (mkGmailConfig "" "" "" 0) [] "/data/state.json" "info" in
      match Unmarshal data cfg with
      | Err err => Err (wrapError ("parsing config file " +:+ path) err)
      | Ok cfg =>
          let cfg := applyDefaults (applyEnvOverrides env cfg) in
          match validate cfg with
          | Some err => Err (wrapError "config validation" err)
          | None => Ok cfg
          end
      end
  end.

End config.

(** ** Package worker *)

Module worker.

(** One entry per call the worker makes on a collaborator, with what the call
    returned; the calls made for a message carry its message number. *)
Inductive Event : Type :=
| EvDial (ok : bool)
| EvLogin (ok : bool)
| EvUIDList (listing : option (gmap Z string))
| EvIsFetched (msgNum : Z) (uid : string) (fetched : bool)
| EvRetrieve (msgNum : Z) (ok : bool)
| EvSend (msgNum : Z) (ok : bool)
| EvMarkFetched (msgNum : Z) (uid : string) (ok : bool)
| EvDelete (msgNum : Z) (ok : bool)
| EvQuit.

(** Everything a run reads or changes: the tracker object and the file
    system under it, the open POP3 client, what the environment will answer
    (TLS dials, SMTP deliveries, faults of each [save]), and the record of
    what happened (calls made, messages the relay accepted, transports that
    were closed). *)
Record World : Type := mkWorld {
  tracker : state.Tracker;
  fs : gmap string os.node;
  client : option pop3.Client;
  dials : list (result pop3.Client);
  relay : list (option error);
  faults : list os.Faults;
  trace : list Event;
  outbox : list string;
  sessions : list pop3.Client
}.

(** A step of the worker: it returns or panics, and changes the world. *)
Definition M (A : Type) : Type := World → outcome A * World.

#[export] Instance M_ret : MRet M := λ A a w, (Ret a, w).
#[export] Instance M_bind : MBind M := λ A B f m w,
  match m w with
  | (Ret a, w') => f a w'
  | (Panic, w') => (Panic, w')
  end.

(** [defer d; body]: [d] runs when [body] returns and when it panics. *)
Definition defer {A} (d : M unit) (body : M A) : M A := λ w,
  let '(r, w1) := body w in
  let '(_, w2) := d w1 in
  (r, w2).

Definition emit (ev : Event) : M unit := λ w,
  (Ret (),
   mkWorld (tracker w) (fs w) (client w) (dials w) (relay w) (faults w)
           (trace w ++ [ev]) (outbox w) (sessions w)).

(** A method call on [client]; on a nil client it panics. *)
Definition onClient {A} (f : pop3.Client → A * pop3.Client) : M A := λ w,
  match client w with
  | Some c =>
      let '(a, c') := f c in
      (Ret a,
       mkWorld (tracker w) (fs w) (Some c') (dials w) (relay w) (faults w)
               (trace w) (outbox w) (sessions w))
  | None => (Panic, w)
  end.

Definition isOk {T} (r : result T) : bool :=
  match r with Ok _ => true | Err _ => false end.
Definition isNil (e : option error) : bool :=
  match e with None => true | Some _ => false end.
Definition listed (r : result (gmap Z string)) : option (gmap Z string) :=
  match r with Ok uidMap => Some uidMap | Err _ => None end.

Section with_runtime.
Context {codec : state.JSON} {parser : mail.Parser} {range : mail.MapRange}.

(** [pop3.Dial(host, port, 30s)] *)
Definition Dial (host : string) (port : Z) : M (option error) := λ w,
  let '(tls, rest) :=
    match dials w with
    | d :: ds => (d, ds)
    | [] => (Err (errorString "dial tcp: connection refused"), [])
    end in
  let '(res, dropped) := pop3.Dial (host +:+ ":" +:+ strconv.Itoa port) tls in
  let gone := match dropped with Some c => [c] | None => [] end in
  match res with
  | Ok c =>
      (Ret None,
       mkWorld (tracker w) (fs w) (Some c) rest (relay w) (faults w)
               (trace w ++ [EvDial true]) (outbox w) (sessions w ++ gone))
  | Err err =>
      (Ret (Some err),
       mkWorld (tracker w) (fs w) None rest (relay w) (faults w)
               (trace w ++ [EvDial false]) (outbox w) (sessions w ++ gone))
  end.

(** [client.Quit()]; the closed transport is set aside. *)
Definition Quit : M (option error) := λ w,
  match client w with
  | Some c =>
      let '(err, c') := pop3.Quit c in
      (Ret err,
       mkWorld (tracker w) (fs w) None (dials w) (relay w) (faults w)
               (trace w ++ [EvQuit]) (outbox w) (sessions w ++ [c']))
  | None => (Panic, w)
  end.

(** [w.tracker.IsFetched(mailbox, uid)] *)
Definition IsFetched (mailbox uid : string) : M bool := λ w,
  match state.IsFetched (tracker w) mailbox uid with
  | Ret b => (Ret b, w)
  | Panic => (Panic, w)
  end.

(** [w.sender.Send(rawMsg, mailbox)]: the relay's answer comes from the
    environment; what it accepted is kept in [outbox]. *)
Definition Send (s : smtp.Sender) (rawMsg mailbox : string) : M (option error) := λ w,
  let '(answer, rest) :=
    match relay w with
    | a :: rs => (a, rs)
    | [] => (None, [])
    end in
  let '(err, data) := smtp.Send s answer rawMsg mailbox in
  (Ret err,
   mkWorld (tracker w) (fs w) (client w) (dials w) rest (faults w) (trace w)
           (match err, data with
            | None, Some bytes => outbox w ++ [bytes]
            | _, _ => outbox w
            end) (sessions w)).

(** [w.tracker.MarkFetched(mailbox, uid)] *)
Definition MarkFetched (mailbox uid : string) : M (option error) := λ w,
  let '(ft, rest) :=
    match faults w with
    | f :: fts => (f, fts)
    | [] => (os.noFaults, [])
    end in
  match state.MarkFetched ft (fs w) (tracker w) mailbox uid with
  | Ret (err, t', fs') =>
      (Ret err,
       mkWorld t' fs' (client w) (dials w) (relay w) rest (trace w)
               (outbox w) (sessions w))
  | Panic =>
      (Panic,
       mkWorld (tracker w) (fs w) (client w) (dials w) (relay w) rest (trace w)
               (outbox w) (sessions w))
  end.

(** The body of the loop over [msgNums] for one message: the counters
    [(fetched, errors)] after it. *)
Definition processMessage (s : smtp.Sender) (mailbox : string)
    (uidMap : gmap Z string) (counters : Z * Z) (msgNum : Z) : M (Z * Z) :=
  let '(fetched, errors) := counters in
  let uid := default "" (uidMap !! msgNum) in
  skip ← IsFetched mailbox uid;
  _ ← emit (EvIsFetched msgNum uid skip);
  if skip : bool then mret (fetched, errors)
  else
    rawMsg ← onClient (λ c, pop3.Retrieve c msgNum);
    _ ← emit (EvRetrieve msgNum (isOk rawMsg));
    match rawMsg with
    | Err _ => mret (fetched, incr errors)
    | Ok rawMsg =>
        err ← Send s rawMsg mailbox;
        _ ← emit (EvSend msgNum (isNil err));
        match err with
        | Some _ => mret (fetched, incr errors)
        | None =>
            err ← MarkFetched mailbox uid;
            _ ← emit (EvMarkFetched msgNum uid (isNil err));
            match err with
            | Some _ => mret (fetched, incr errors)
            | None =>
                err ← onClient (λ c, pop3.Delete c msgNum);
                _ ← emit (EvDelete msgNum (isNil err));
                match err with
                | Some _ => mret (fetched, incr errors)
                | None => mret (incr fetched, errors)
                end
            end
        end
    end.

(** [for _, msgNum := range msgNums { ... }] *)
Fixpoint processMessages (s : smtp.Sender) (mailbox : string)
    (uidMap : gmap Z string) (counters : Z * Z) (msgNums : list Z) : M (Z * Z) :=
  match msgNums with
  | [] => mret counters
  | msgNum :: rest =>
      counters' ← processMessage s mailbox uidMap counters msgNum;
      processMessages s mailbox uidMap counters' rest
  end.

(** The keys of [uidMap] after [sort.Ints]. *)
Definition sortedKeys (uidMap : gmap Z string) : list Z :=
  merge_sort Z.le (map_to_list uidMap).*1.

Definition processMailbox (s : smtp.Sender) (index : Z)
    (yahoo : config.YahooMailbox) : M (Z * Z) :=
  err ← Dial (config.POP3Host yahoo) (config.POP3Port yahoo);
  match err with
  | Some _ => mret (0, 1)
  | None =>
      defer (_ ← Quit; mret ())
        (err ← onClient (λ c, pop3.Login c (config.Email yahoo)
                                          (config.AppPassword yahoo));
         _ ← emit (EvLogin (isNil err));
         match err with
         | Some _ => mret (0, 1)
         | None =>
             uidMap ← onClient pop3.UIDList;
             _ ← emit (EvUIDList (listed uidMap));
             match uidMap with
             | Err _ => mret (0, 1)
             | Ok uidMap =>
                 processMessages s (config.Email yahoo) uidMap (0, 0)
                                 (sortedKeys uidMap)
             end
         end)
  end.

(** [a += b] on Go [int]s. *)
Definition addInt (a b : Z) : Z :=
  (a + b - minInt) `mod` 2 ^ 64 + minInt.

(** [for i, yahoo := range w.cfg.Yahoo { ... }] *)
Fixpoint processAll (s : smtp.Sender) (index : Z) (totals : Z * Z)
    (mailboxes : list config.YahooMailbox) : M (Z * Z) :=
  match mailboxes with
  | [] => mret totals
  | yahoo :: rest =>
      r ← processMailbox s index yahoo;
      processAll s (index + 1) (addInt totals.1 r.1, addInt totals.2 r.2) rest
  end.

(** [New]: the sender the worker forwards with. *)
Definition newSender (cfg : config.Config) : smtp.Sender :=
  smtp.NewSender (config.SMTPHost (config.Gmail cfg))
                 (config.SMTPPort (config.Gmail cfg))
                 (config.GmailEmail (config.Gmail cfg))
                 (config.GmailAppPassword (config.Gmail cfg))
                 (config.GmailEmail (config.Gmail cfg)).

(** [w.tracker.Stats()] *)
Definition Stats : M (gmap string Z) := λ w, (state.Stats (tracker w), w).

(** [main]: every process builds its tracker from the state file
    ([state.NewTracker(cfg.StatePath)]) before it runs the worker on it; when
    that fails the process exits without running. *)
Definition boot (path : string) (w : World) : result World :=
  match state.NewTracker (fs w) path with
  | Ok t =>
      Ok (mkWorld t (fs w) (client w) (dials w) (relay w) (faults w) (trace w)
                  (outbox w) (sessions w))
  | Err err => Err err
  end.

Definition Run (cfg : config.Config) : M (option error) :=
  totals ← processAll (newSender cfg) 0 (0, 0) (config.Yahoo cfg);
  _ ← Stats;
  if totals.2 >? 0
  then mret (Some (errorString ("completed with " +:+ strconv.Itoa totals.2 +:+ " errors")))
  else mret None.

End with_runtime.
End worker.

(** ** The multi-line response on the wire, as the protocol describes it *)

Module wire.

Fixpoint noLF (s : string) : bool :=
  match s with
  | "" => true
  | String c s' => negb (Ascii.eqb c LF) && noLF s'
  end.

(** A line, given without its final line feed, is the terminator when only a
    dot stays after the trailing carriage returns are dropped. *)
Definition isTerminator (l : string) : bool :=
  String.eqb (strings.TrimRight l CRLF) ".".

Definition bodyLine (l : string) : Prop :=
  noLF l = true ∧ isTerminator l = false.

Definition terminatorLine (l : string) : Prop :=
  noLF l = true ∧ isTerminator l = true.

(** The bytes of a sequence of lines, each followed by its line feed. *)
Definition sendLines (ls : list string) : string :=
  foldr (λ l acc, l +:+ String LF acc) "" ls.

(** Undoing the byte-stuffing of one line: a line that begins with two dots
    loses the first of them, every other line stays as it is. *)
Definition unstuff (l : string) : string :=
  match l with
  | String "." (String "." t) => String "." t
  | _ => l
  end.

Definition unstuffed (ls : list string) : string :=
  sendLines (map unstuff ls).

(** The byte-stuffing of the sending side (RFC 1939, section 3): a line
    that begins with a dot is sent with one more dot in front. *)
Definition stuff (l : string) : string :=
  match l with
  | String c _ => if Ascii.eqb c "." then String "." l else l
  | "" => l
  end.

End wire.

(** ** Reading header lines off a message *)

Module envelope.

(** The lines of [lines] that carry the header [name], in their order. *)
Definition named (name : string) (lines : list (string * string))
  : list (string * string) :=
  List.filter (λ nv, String.eqb nv.1 name) lines.

(** The original header fields that [Send] has not handled by name, in wire
    order. *)
Definition remaining (fields : list (string * string)) : list (string * string) :=
  List.filter (λ kv, negb (default false (smtp.handled !! kv.1))) fields.

End envelope.

(** ** How far one message gets, and the calls that shows in the trace *)

Module pipeline.
Import worker.

(** The steps of the loop body, by the names the design gives them. *)
Inductive Stage : Type := Checking | Fetching | Forwarding | Recording | Deleting.

(** What became of one message: skipped as already fetched, stopped by the
    error of a step, forwarded and deleted, or cut short by a panic. *)
Inductive Fate : Type :=
| Skipped
| FailedAt (st : Stage)
| Forwarded
| PanickedAt (st : Stage).

(** The calls that have returned success when the message reaches [st]. *)
Definition before (st : Stage) (n : Z) (uid : string) : list Event :=
  match st with
  | Checking => []
  | Fetching => [EvIsFetched n uid false]
  | Forwarding => [EvIsFetched n uid false; EvRetrieve n true]
  | Recording => [EvIsFetched n uid false; EvRetrieve n true; EvSend n true]
  | Deleting => [EvIsFetched n uid false; EvRetrieve n true; EvSend n true;
               EvMarkFetched n uid true]
  end.

(** The call of [st] returning an error. *)
Definition failing (st : Stage) (n : Z) (uid : string) : list Event :=
  match st with
  | Checking => []
  | Fetching => [EvRetrieve n false]
  | Forwarding => [EvSend n false]
  | Recording => [EvMarkFetched n uid false]
  | Deleting => [EvDelete n false]
  end.

Definition events (n : Z) (uid : string) (fate : Fate) : list Event :=
  match fate with
  | Skipped => [EvIsFetched n uid true]
  | FailedAt st => before st n uid ++ failing st n uid
  | Forwarded => before Deleting n uid ++ [EvDelete n true]
  | PanickedAt st => before st n uid
  end.

(** The counters [(fetched, errors)] after a message of that fate. *)
Definition tally (counters : Z * Z) (fate : Fate) : outcome (Z * Z) :=
  match fate with
  | Skipped => Ret counters
  | FailedAt _ => Ret (counters.1, incr counters.2)
  | Forwarded => Ret (incr counters.1, counters.2)
  | PanickedAt _ => Panic
  end.

(** The message a call was made for. *)
Definition msgOf (ev : Event) : option Z :=
  match ev with
  | EvIsFetched n _ _ | EvRetrieve n _ | EvSend n _
  | EvMarkFetched n _ _ | EvDelete n _ => Some n
  | _ => None
  end.

(** A call that returned an error. *)
Definition isFailure (ev : Event) : bool :=
  match ev with
  | EvDial false | EvLogin false | EvUIDList None
  | EvRetrieve _ false | EvSend _ false
  | EvMarkFetched _ _ false | EvDelete _ false => true
  | _ => false
  end.

(** A message forwarded, recorded and flagged for deletion. *)
Definition isCompletion (ev : Event) : bool :=
  match ev with
  | EvDelete _ true => true
  | _ => false
  end.

Definition count (p : Event → bool) (tr : list Event) : nat :=
  length (List.filter p tr).

(** A dial that gave a session, and the [Quit] that ends one. *)
Definition isOpening (ev : Event) : bool :=
  match ev with
  | EvDial true => true
  | _ => false
  end.

Definition isQuit (ev : Event) : bool :=
  match ev with
  | EvQuit => true
  | _ => false
  end.

(** A dial, whatever it gave. *)
Definition isDial (ev : Event) : bool :=
  match ev with
  | EvDial _ => true
  | _ => false
  end.

(** The message an [IsFetched] call was made for: the loop opens each pass
    with that call. *)
Definition visited (ev : Event) : option Z :=
  match ev with
  | EvIsFetched n _ _ => Some n
  | _ => None
  end.

(** The fates for which [IsFetched] or [MarkFetched] has found or put the
    uid of the message in the history store. *)
Definition recorded (fate : Fate) : Prop :=
  match fate with
  | Skipped | FailedAt Recording | FailedAt Deleting | Forwarded
  | PanickedAt Deleting => True
  | _ => False
  end.

(** The trace of a loop that gave the messages of [log] their fates. *)
Definition chains (uidMap : gmap Z string) (log : list (Z * Fate)) : list Event :=
  flat_map (λ nf, events nf.1 (default "" (uidMap !! nf.1)) nf.2) log.

(** The counters after messages of the fates [fates], in that order. *)
Fixpoint tallies (counters : Z * Z) (fates : list Fate) : outcome (Z * Z) :=
  match fates with
  | [] => Ret counters
  | fate :: rest =>
      match tally counters fate with
      | Ret counters' => tallies counters' rest
      | Panic => Panic
      end
  end.

(** What a run of the loop over [msgNums] that gave the fates of [log] has
    done: [t0] and [out0] are the store and the delivered messages before
    it, [t1] and [out1] after it, [res] what it returned. *)
Record Looped (mailbox : string) (uidMap : gmap Z string) (msgNums : list Z)
    (counters : Z * Z) (t0 : state.Tracker) (out0 : list string)
    (res : outcome (Z * Z)) (t1 : state.Tracker) (out1 : list string)
    (log : list (Z * Fate)) : Prop := mkLooped {
  looped_result : res = tallies counters log.*2;
  looped_fates : Forall (λ nf, nf.2 ≠ FailedAt Checking) log;
  looped_visits :
    ∃ rest, msgNums = log.*1 ++ rest ∧ (∀ v, res = Ret v → rest = []);
  looped_skips :
    ∀ n fate, In (n, fate) log →
      state.IsFetched t0 mailbox (default "" (uidMap !! n)) = Ret true →
      fate = Skipped;
  looped_records :
    ∀ n fate, In (n, fate) log → recorded fate →
      state.IsFetched t1 mailbox (default "" (uidMap !! n)) = Ret true;
  looped_keeps :
    ∀ m u, state.IsFetched t0 m u = Ret true → state.IsFetched t1 m u = Ret true;
  looped_outbox :
    (∃ n, In (EvSend n true) (chains uidMap log)) ∨ out1 = out0;
  looped_idle :
    (∀ nf, In nf log → nf.2 = Skipped) → t1 = t0 ∧ out1 = out0
}.

(** The call made just before [ev] that [ev] depends on, if it needs one. *)
Definition follows (prev : option Event) (ev : Event) : Prop :=
  match ev with
  | EvMarkFetched n _ _ => prev = Some (EvSend n true)
  | EvDelete n _ => ∃ uid, prev = Some (EvMarkFetched n uid true)
  | _ => True
  end.

Fixpoint ordered (prev : option Event) (tr : list Event) : Prop :=
  match tr with
  | [] => True
  | ev :: rest => follows prev ev ∧ ordered (Some ev) rest
  end.

End pipeline.

(** ** Every mutating operation of the history store, as one type *)

Module history.

Inductive Mutation : Type :=
| Add (mailbox uid : string)
| AddBatch (mailbox : string) (uids : list string).

Definition perform {codec : state.JSON} (op : Mutation) (ft : os.Faults)
    (fs : gmap string os.node) (t : state.Tracker)
  : outcome (option error * state.Tracker * gmap string os.node) :=
  match op with
  | Add mailbox uid => state.MarkFetched ft fs t mailbox uid
  | AddBatch mailbox uids => state.MarkBatchFetched ft fs t mailbox uids
  end.

(** Calling [MarkFetched] for the uids one after the other, errors ignored
    (as a caller that marks a batch by hand would); [fts] gives the faults of
    the successive saves. *)
Fixpoint markEach {codec : state.JSON} (fts : list os.Faults)
    (fs : gmap string os.node) (t : state.Tracker) (mailbox : string)
    (uids : list string) : outcome (state.Tracker * gmap string os.node) :=
  match uids with
  | [] => Ret (t, fs)
  | uid :: rest =>
      match state.MarkFetched (hd os.noFaults fts) fs t mailbox uid with
      | Ret (_, t', fs') => markEach (tl fts) fs' t' mailbox rest
      | Panic => Panic
      end
  end.

(** A store as the code itself builds it from an empty one: the mailbox map
    is not nil, no mailbox is bound to a nil pointer or holds a nil uid map,
    and every uid it holds is bound to [true]. *)
Definition clean (t : state.Tracker) : Prop :=
  ∃ mbs,
    state.Mailboxes (state.data t) = Some mbs
    ∧ ∀ mailbox v, mbs !! mailbox = Some v →
        ∃ uids, v = Some (state.mkMailboxState (Some uids))
                ∧ ∀ uid b, uids !! uid = Some b → b = true.


End history.

(** ** Stand-ins for the standard library, to run the model on examples *)

Module demo.

(** A codec that refuses any text not opening with a brace and reads every
    other text as a document without a [mailboxes] member; it writes the
    number of mailboxes between braces. *)
#[export] Instance json : state.JSON := {|
  state.MarshalIndent sd :=
    Ok ("{" +:+ strconv.Itoa (Z.of_nat (size (default ∅ (state.Mailboxes sd)))) +:+ "}");
  state.Unmarshal bytes :=
    if strings.HasPrefix bytes "{" then Ok (state.mkStateData None)
    else Err (errorString "invalid character looking for beginning of value")
|}.

(** A parser that reads nothing. *)
#[export] Instance parser : mail.Parser := {|
  mail.readFields _ := Err (errorString "malformed MIME header")
|}.

(** The runtime visits the keys in the order [map_to_list] lists them. *)
#[export] Instance range : mail.MapRange := {|
  mail.rangeKeys h := (map_to_list h).*1;
  mail.rangeKeys_order h := Permutation_refl _
|}.

(** A state file, a mailbox and a tracker to run the history store on. *)
Definition statePath : string := "/data/state.json".
Definition corruptFS : gmap string os.node :=
  {[ statePath := os.File "not json{{{" ]}.
Definition freshTracker : state.Tracker :=
  state.mkTracker statePath (state.mkStateData (Some ∅)).
Definition markedTracker : state.Tracker :=
  state.mkTracker statePath
    (state.mkStateData
       (Some {[ "user@yahoo.com" :=
                  Some (state.mkMailboxState (Some {[ "uid1" := true ]})) ]})).
Definition renameFails : os.Faults :=
  os.mkFaults None None (Some (errorString "rename: permission denied")).

(** The store after the uids [uid1] and [uid2] of the mailbox were marked. *)
Definition batchTracker : state.Tracker :=
  state.mkTracker statePath
    (state.mkStateData
       (Some {[ "user@yahoo.com" :=
                  Some (state.mkMailboxState
                          (Some {[ "uid1" := true; "uid2" := true ]})) ]})).

(** A codec that writes as [json] does and reads the document it writes
    for [markedTracker] as the store of [markedTracker]. *)
Definition reading : state.JSON := {|
  state.MarshalIndent := state.MarshalIndent (JSON := json);
  state.Unmarshal bytes :=
    if String.eqb bytes "{1}" then Ok (state.data markedTracker)
    else state.Unmarshal (JSON := json) bytes
|}.

(** A decoder that refuses a document that does not open with [gmail:] and
    reads every other one as naming the Gmail address and one Yahoo mailbox
    by its address, with no password, host or port. *)
#[export] Instance yaml : config.YAML := {|
  config.Unmarshal data cfg :=
    if strings.HasPrefix data "gmail:"
    then Ok (config.mkConfig
               (config.mkGmailConfig "dest@gmail.com"
                  (config.GmailAppPassword (config.Gmail cfg))
                  (config.SMTPHost (config.Gmail cfg))
                  (config.SMTPPort (config.Gmail cfg)))
               [config.mkYahooMailbox "user@yahoo.com" "" "" 0]
               (config.StatePath cfg) (config.LogLevel cfg))
    else Err (errorString "yaml: unmarshal errors")
|}.

(** A configuration file without passwords, and an environment that brings
    them. *)
Definition configPath : string := "/config/config.yaml".
Definition configFS : gmap string os.node :=
  {[ configPath := os.File "gmail: {email: dest@gmail.com}" ]}.
Definition secrets : gmap string string :=
  {[ "YATOGM_GMAIL_APP_PASSWORD" := "gmail-secret";
     "YATOGM_YAHOO_0_APP_PASSWORD" := "yahoo-secret" ]}.
Definition loaded : config.Config :=
  config.mkConfig
    (config.mkGmailConfig "dest@gmail.com" "gmail-secret" "smtp.gmail.com" 587)
    [config.mkYahooMailbox "user@yahoo.com" "yahoo-secret" "pop.mail.yahoo.com" 995]
    "/data/state.json" "info".

(** The session of [TestClientDotStuffing] after the greeting: what the
    server sends in reply to [RETR], and the lines of that message. *)
Definition stuffedLines : list string :=
  ["Subject: Dots" +:+ String CR ""; String CR "";
   "..leading dot" +:+ String CR ""; "normal line" +:+ String CR ""].
Definition stuffedSession : pop3.Client :=
  pop3.mkClient
    (pop3.mkConn [] None [] false)
    (pop3.mkReader
       ("+OK" +:+ CRLF +:+ wire.sendLines stuffedLines +:+ "." +:+ CRLF) EOF).

(** The forwarding account, and the message of the Reply-To scenario. *)
Definition sender : smtp.Sender :=
  smtp.NewSender "smtp.gmail.com" 587 "dest@gmail.com" "secret" "dest@gmail.com".
Definition fromJane : gmap string (list string) :=
  mail.headerOf [("From", "Jane <jane@x.com>")].

(** A message with two headers the transform does not know by name. *)
Definition twoExtras : list (string * string) := [("X-A", "1"); ("X-B", "2")].

(** Sessions of a POP3 server: one on which the password is refused, and
    one that lists a single message and serves it. *)
Definition yahoo : config.YahooMailbox :=
  config.mkYahooMailbox "user@yahoo.com" "secret" "pop.mail.yahoo.com" 995.
Definition serve (replies : list string) : result pop3.Client :=
  Ok (pop3.mkClient (pop3.mkConn [] None [] false)
        (pop3.mkReader (wire.sendLines (map (λ l, l +:+ String CR "") replies)) EOF)).
Definition refusing : result pop3.Client :=
  serve ["+OK POP3 server ready"; "+OK"; "-ERR authentication failed"; "+OK bye"].
Definition oneMessage (afterRetrieve : list string) : result pop3.Client :=
  serve (["+OK POP3 server ready"; "+OK"; "+OK logged in";
          "+OK"; "1 uid1"; ".";
          "+OK"; "Subject: Test"; ""; "Hello World"; "."] ++ afterRetrieve).
Definition world (servers : list (result pop3.Client)) (relay : list (option error))
  : worker.World :=
  worker.mkWorld freshTracker ∅ None servers relay [] [] [] [].

(** What was written on each closed transport, and whether it was closed. *)
Definition written (w : worker.World) : list (list string * bool) :=
  map (λ c, (pop3.sent (pop3.conn c), pop3.closed (pop3.conn c))) (worker.sessions w).

(** Two sessions in a row on a mailbox that lists one message. *)
Definition twoRuns (relay : list (option error)) : worker.World :=
  world [oneMessage ["+OK marked"; "+OK bye"]; oneMessage ["+OK marked"; "+OK bye"]]
        relay.

(** A session on a mailbox that lists two messages. *)
Definition twoMessages : result pop3.Client :=
  serve ["+OK POP3 server ready"; "+OK"; "+OK logged in";
         "+OK"; "1 abc"; "2 def"; ".";
         "+OK"; "Subject: One"; ""; "first"; ".";
         "+OK"; "Subject: Two"; ""; "second"; ".";
         "+OK marked"; "+OK bye"].

(** The client of a test after the greeting, given what the server sends. *)
Definition session (replies : list string) : pop3.Client :=
  pop3.mkClient (pop3.mkConn [] None [] false)
    (pop3.mkReader (wire.sendLines (map (λ l, l +:+ String CR "") replies)) EOF).

End demo.

(** * Properties *)

(** ** The history store *)

Section history_store.
Context {codec : state.JSON}.

Lemma string_length_app (a b : string) :
  String.length (a +:+ b) = (String.length a + String.length b)%nat.
Proof. induction a as [|c a IH]; simpl; [reflexivity | now rewrite IH]. Qed.

Lemma tmp_ne_path (path : string) : path +:+ ".tmp" ≠ path.
Proof.
  intros E. apply (f_equal String.length) in E.
  rewrite string_length_app in E. simpl in E. lia.
Qed.

(** [save] reports an error only when the canonical file is left as it was,
    and on success the canonical file holds the marshalled state and the
    temporary file is gone. *)
Lemma save_inv ft fs t err fs' :
  state.save ft fs t = (err, fs') →
  match err with
  | None =>
      ∃ bytes, state.MarshalIndent (state.data t) = Ok bytes
               ∧ fs' !! state.filePath t = Some (os.File bytes)
               ∧ fs' !! (state.filePath t +:+ ".tmp") = None
  | Some _ => fs' !! state.filePath t = fs !! state.filePath t
  end.
Proof.
  unfold state.save, os.MkdirAll, os.WriteFile, os.Rename.
  pose proof (tmp_ne_path (state.filePath t)) as Hne.
  destruct (os.mkdirFault ft); [intros [= <- <-]; reflexivity|].
  destruct (state.MarshalIndent (state.data t)) as [bytes|e]; [|intros [= <- <-]; reflexivity].
  destruct (os.writeFault ft) as [[e [partial|]]|].
  - intros [= <- <-]. now rewrite lookup_insert_ne.
  - intros [= <- <-]. reflexivity.
  - destruct (os.renameFault ft).
    + intros [= <- <-]. now rewrite lookup_insert_ne.
    + rewrite lookup_insert_eq. intros [= <- <-].
      exists bytes. split; [reflexivity|]. split.
      * now rewrite lookup_insert_eq.
      * rewrite lookup_insert_ne by congruence. now rewrite lookup_delete_eq.
  Qed.

(** A failure after the temporary file was written leaves the new bytes
    there and nowhere else. *)
Lemma save_rename_fails ft fs t bytes e :
  os.mkdirFault ft = None → os.writeFault ft = None →
  os.renameFault ft = Some e →
  state.MarshalIndent (state.data t) = Ok bytes →
  state.save ft fs t
  = (Some (wrapError "renaming state file" e),
     <[state.filePath t +:+ ".tmp" := os.File bytes]> fs).
Proof.
  intros Hm Hw Hr Hb.
  unfold state.save, os.MkdirAll, os.WriteFile, os.Rename.
  now rewrite Hm, Hb, Hw, Hr.
Qed.

(** [save] succeeds exactly when no system call fails and the state can be
    serialised. *)
Lemma save_None_iff ft fs t :
  (state.save ft fs t).1 = None
  ↔ os.mkdirFault ft = None ∧ os.writeFault ft = None ∧ os.renameFault ft = None
    ∧ ∃ bytes, state.MarshalIndent (state.data t) = Ok bytes.
Proof.
  unfold state.save, os.MkdirAll, os.WriteFile, os.Rename.
  destruct (os.mkdirFault ft) as [e|]; cbn; [split; [discriminate | now intros ([=] & _)]|].
  destruct (state.MarshalIndent (state.data t)) as [bytes|e]; cbn;
    [|split; [discriminate | now intros (_ & _ & _ & ? & [=])]].
  destruct (os.writeFault ft) as [[e [partial|]]|]; cbn;
    [split; [discriminate | now intros (_ & [=] & _)]..|].
  destruct (os.renameFault ft) as [e|]; cbn;
    [split; [discriminate | now intros (_ & _ & [=] & _)]|].
  rewrite lookup_insert_eq. cbn. split; [|reflexivity]. intros _. eauto.
Qed.

(** [NewTracker] reads nothing but the canonical file. *)
Lemma NewTracker_reads_path fs fs' path :
  fs' !! path = fs !! path → state.NewTracker fs' path = state.NewTracker fs path.
Proof.
  intros E. unfold state.NewTracker, state.load, os.ReadFile. simpl. now rewrite E.
Qed.

Lemma perform_inv op ft fs t err t' fs' :
  history.perform op ft fs t = Ret (err, t', fs') →
  state.filePath t' = state.filePath t ∧ state.save ft fs t' = (err, fs').
Proof.
  destruct op as [mailbox uid|mailbox uids]; simpl;
    unfold state.MarkFetched, state.MarkBatchFetched;
    destruct (state.mailboxEntry (state.data t) mailbox) as [[ms mbs]|]; try discriminate.
  - destruct (state.setFetched ms uid) as [ms'|]; [|discriminate].
    destruct (state.save _ _ _) as [e f] eqn:Es. intros [= <- <- <-]. now split.
  - destruct (state.setAllFetched ms uids) as [ms'|]; [|discriminate].
    destruct (state.save _ _ _) as [e f] eqn:Es. intros [= <- <- <-]. now split.
Qed.

(** [IsFetched] after the entry of one mailbox was replaced. *)
Lemma IsFetched_insert path mbs mailbox uids mailbox' uid' :
  state.IsFetched
    (state.mkTracker path
       (state.mkStateData
          (Some (<[mailbox := Some (state.mkMailboxState (Some uids))]> mbs))))
    mailbox' uid'
  = if decide (mailbox' = mailbox) then Ret (default false (uids !! uid'))
    else match mbs !! mailbox' with
         | None => Ret false
         | Some None => Panic
         | Some (Some ms) =>
             match state.FetchedUIDs ms with
             | None => Ret false
             | Some us => Ret (default false (us !! uid'))
             end
         end.
Proof.
  unfold state.IsFetched. cbn. destruct (decide (mailbox' = mailbox)) as [->|Hne].
  - now rewrite lookup_insert_eq.
  - now rewrite lookup_insert_ne.
Qed.

(** What [MarkFetched] leaves in memory when it returns: the entry of the
    mailbox holds its former uids (none for a new mailbox) and [uid]. *)
Lemma MarkFetched_inv ft fs t mailbox uid err t' fs' :
  state.MarkFetched ft fs t mailbox uid = Ret (err, t', fs') →
  ∃ mbs uids,
    state.Mailboxes (state.data t) = Some mbs
    ∧ (mbs !! mailbox = None ∧ uids = ∅
       ∨ mbs !! mailbox = Some (Some (state.mkMailboxState (Some uids))))
    ∧ t' = state.mkTracker (state.filePath t)
             (state.mkStateData
                (Some (<[mailbox := Some (state.mkMailboxState
                                            (Some (<[uid := true]> uids)))]> mbs))).
Proof.
  unfold state.MarkFetched, state.mailboxEntry, state.setFetched.
  destruct (state.Mailboxes (state.data t)) as [mbs|]; [|discriminate].
  destruct (mbs !! mailbox) as [[[[uids|]]|]|] eqn:Em;
    cbn -[state.save]; try discriminate.
  - destruct (state.save _ _ _). intros [= _ <- _].
    exists mbs, uids. auto.
  - destruct (state.save _ _ _). intros [= _ <- _].
    exists mbs, ∅. rewrite insert_insert_eq. auto.
Qed.

End history_store.

Section history_store_claims.
Context {codec : state.JSON}.

(** C5.  Loading from an absent backing file, or from one whose content does
    not deserialize, is not an error: [NewTracker] succeeds, and in the store
    it returns [IsFetched] is false for every mailbox and uid. *)
Theorem NewTracker_absent_or_corrupt fs path :
  (fs !! path = None
   ∨ ∃ content e, fs !! path = Some (os.File content)
                  ∧ state.Unmarshal content = Err e) →
  ∃ t, state.NewTracker fs path = Ok t
       ∧ ∀ mailbox uid, state.IsFetched t mailbox uid = Ret false.
Proof.
  intros Hfile.
  exists (state.mkTracker path (state.mkStateData (Some ∅))). split.
  - unfold state.NewTracker, state.load, os.ReadFile. simpl.
    destruct Hfile as [-> | (content & e & -> & ->)]; reflexivity.
  - intros mailbox uid. unfold state.IsFetched. simpl.
    now rewrite lookup_empty.
Qed.

(** C9.  When [MarkFetched] returns an error, the canonical file is as it
    was before the call, yet the store in memory already holds the uid:
    [IsFetched] on it answers true. *)
Theorem MarkFetched_error_keeps_mark ft fs t mailbox uid e t' fs' :
  state.MarkFetched ft fs t mailbox uid = Ret (Some e, t', fs') →
  state.IsFetched t' mailbox uid = Ret true
  ∧ fs' !! state.filePath t = fs !! state.filePath t.
Proof.
  intros Hrun.
  pose proof (perform_inv (history.Add mailbox uid) _ _ _ _ _ _ Hrun) as [Hp Hs].
  apply save_inv in Hs. rewrite Hp in Hs. split; [|exact Hs].
  apply MarkFetched_inv in Hrun as (mbs & uids & _ & _ & ->).
  rewrite IsFetched_insert, decide_True by reflexivity.
  now rewrite lookup_insert_eq.
Qed.

(** C10.  After [MarkFetched m u] returns success, [IsFetched m u] is true,
    and for every other pair [IsFetched] answers what it did before. *)
Theorem MarkFetched_success_frame ft fs t mailbox uid t' fs' :
  state.MarkFetched ft fs t mailbox uid = Ret (None, t', fs') →
  state.IsFetched t' mailbox uid = Ret true
  ∧ ∀ mailbox' uid', (mailbox', uid') ≠ (mailbox, uid) →
      state.IsFetched t' mailbox' uid' = state.IsFetched t mailbox' uid'.
Proof.
  intros Hrun.
  apply MarkFetched_inv in Hrun as (mbs & uids & Embs & Em & ->). split.
  - rewrite IsFetched_insert, decide_True by reflexivity.
    now rewrite lookup_insert_eq.
  - intros m' u' Hne. rewrite IsFetched_insert.
    destruct (decide (m' = mailbox)) as [->|Hm].
    + rewrite lookup_insert_ne by congruence.
      unfold state.IsFetched. rewrite Embs.
      destruct Em as [[-> ->] | ->]; [now rewrite lookup_empty | reflexivity].
    + unfold state.IsFetched. now rewrite Embs.
Qed.

(** C4.  Every mutating operation ([MarkFetched], [MarkBatchFetched]) that
    returns has saved the entire new state through the temporary file: on
    success the canonical file holds its serialisation and the temporary
    file is gone; when the rename fails after the temporary file was written,
    the new bytes sit in the temporary file only; and on every error the
    canonical file keeps its prior content, so that [NewTracker] loads from
    it what it would have loaded before the call.  The operation succeeds
    exactly when no system call of the save fails and the new state can be
    serialised: whenever nothing fails, the new state is renamed over the
    canonical file. *)
Theorem mutation_saved_atomically op ft fs t err t' fs' :
  history.perform op ft fs t = Ret (err, t', fs') →
  let path := state.filePath t in
  (err = None →
     ∃ bytes, state.MarshalIndent (state.data t') = Ok bytes
              ∧ fs' !! path = Some (os.File bytes)
              ∧ fs' !! (path +:+ ".tmp") = None)
  ∧ (∀ bytes, os.mkdirFault ft = None → os.writeFault ft = None →
       is_Some (os.renameFault ft) →
       state.MarshalIndent (state.data t') = Ok bytes →
       is_Some err ∧ fs' !! (path +:+ ".tmp") = Some (os.File bytes))
  ∧ (is_Some err →
       fs' !! path = fs !! path
       ∧ state.NewTracker fs' path = state.NewTracker fs path)
  ∧ (err = None
     ↔ os.mkdirFault ft = None ∧ os.writeFault ft = None
       ∧ os.renameFault ft = None
       ∧ ∃ bytes, state.MarshalIndent (state.data t') = Ok bytes)
  ∧ (∀ bytes, os.mkdirFault ft = None → os.writeFault ft = None →
       os.renameFault ft = None →
       state.MarshalIndent (state.data t') = Ok bytes →
       err = None
       ∧ fs' !! path = Some (os.File bytes)
       ∧ fs' !! (path +:+ ".tmp") = None).
Proof.
  intros Hrun path. apply perform_inv in Hrun as [Hp Hs]. subst path.
  rewrite <- Hp.
  assert (err = None
          ↔ os.mkdirFault ft = None ∧ os.writeFault ft = None
            ∧ os.renameFault ft = None
            ∧ ∃ bytes, state.MarshalIndent (state.data t') = Ok bytes) as Hiff.
  { rewrite <- (save_None_iff ft fs t'), Hs. reflexivity. }
  split; [|split; [|split; [|split]]].
  - intros ->. apply save_inv in Hs. exact Hs.
  - intros bytes Hm Hw [e He] Hb.
    rewrite (save_rename_fails _ _ _ _ _ Hm Hw He Hb) in Hs.
    injection Hs as <- <-. split; [eauto | now rewrite lookup_insert_eq].
  - intros [e ->]. apply save_inv in Hs.
    split; [exact Hs | now apply NewTracker_reads_path].
  - exact Hiff.
  - intros bytes Hm Hw Hr Hb.
    assert (err = None) as -> by (apply Hiff; eauto).
    apply save_inv in Hs as (bytes' & Hb' & Hfile & Htmp).
    rewrite Hb in Hb'. injection Hb' as <-. auto.
Qed.

End history_store_claims.

Section history_store_examples.
#[local] Existing Instance demo.json.

(** The corrupted state file of [TestCorruptedStateFile] loads as an empty
    store. *)
Lemma NewTracker_absent_or_corrupt_witness :
  ∃ t, state.NewTracker demo.corruptFS demo.statePath = Ok t
       ∧ ∀ mailbox uid, state.IsFetched t mailbox uid = Ret false.
Proof.
  apply (NewTracker_absent_or_corrupt demo.corruptFS demo.statePath).
  right. exists "not json{{{", (errorString "invalid character looking for beginning of value").
  split; reflexivity.
Defined.

(** A rename that fails: the call reports the error, the uid is held in
    memory, and no canonical file appears. *)
Lemma MarkFetched_error_keeps_mark_witness :
  state.IsFetched demo.markedTracker "user@yahoo.com" "uid1" = Ret true
  ∧ ({[ demo.statePath +:+ ".tmp" := os.File "{1}" ]} : gmap string os.node)
      !! demo.statePath = (∅ : gmap string os.node) !! demo.statePath.
Proof.
  apply (MarkFetched_error_keeps_mark demo.renameFails ∅ demo.freshTracker
           "user@yahoo.com" "uid1"
           (wrapError "renaming state file" (errorString "rename: permission denied"))).
  vm_compute. reflexivity.
Defined.

Lemma MarkFetched_success_frame_witness :
  state.IsFetched demo.markedTracker "user@yahoo.com" "uid1" = Ret true
  ∧ ∀ mailbox' uid', (mailbox', uid') ≠ ("user@yahoo.com", "uid1") →
      state.IsFetched demo.markedTracker mailbox' uid'
      = state.IsFetched demo.freshTracker mailbox' uid'.
Proof.
  apply (MarkFetched_success_frame os.noFaults ∅ demo.freshTracker
           "user@yahoo.com" "uid1" demo.markedTracker
           {[ demo.statePath := os.File "{1}" ]}).
  vm_compute. reflexivity.
Defined.

(** A save on which nothing fails, and one on which the rename fails. *)
Lemma mutation_saved_atomically_witness :
  (let fs' : gmap string os.node := {[ demo.statePath := os.File "{1}" ]} in
   let err : option error := None in
   (err = None →
      ∃ bytes, state.MarshalIndent (state.data demo.markedTracker) = Ok bytes
               ∧ fs' !! demo.statePath = Some (os.File bytes)
               ∧ fs' !! (demo.statePath +:+ ".tmp") = None)
   ∧ (∀ bytes, os.mkdirFault os.noFaults = None →
        os.writeFault os.noFaults = None →
        is_Some (os.renameFault os.noFaults) →
        state.MarshalIndent (state.data demo.markedTracker) = Ok bytes →
        is_Some err ∧ fs' !! (demo.statePath +:+ ".tmp") = Some (os.File bytes))
   ∧ (is_Some err →
        fs' !! demo.statePath = (∅ : gmap string os.node) !! demo.statePath
        ∧ state.NewTracker fs' demo.statePath = state.NewTracker ∅ demo.statePath)
   ∧ (err = None
      ↔ os.mkdirFault os.noFaults = None ∧ os.writeFault os.noFaults = None
        ∧ os.renameFault os.noFaults = None
        ∧ ∃ bytes, state.MarshalIndent (state.data demo.markedTracker) = Ok bytes)
   ∧ (∀ bytes, os.mkdirFault os.noFaults = None →
        os.writeFault os.noFaults = None →
        os.renameFault os.noFaults = None →
        state.MarshalIndent (state.data demo.markedTracker) = Ok bytes →
        err = None
        ∧ fs' !! demo.statePath = Some (os.File bytes)
        ∧ fs' !! (demo.statePath +:+ ".tmp") = None))
  ∧ (let fs' : gmap string os.node := {[ demo.statePath +:+ ".tmp" := os.File "{1}" ]} in
     let err :=
       Some (wrapError "renaming state file" (errorString "rename: permission denied")) in
     (err = None →
        ∃ bytes, state.MarshalIndent (state.data demo.markedTracker) = Ok bytes
                 ∧ fs' !! demo.statePath = Some (os.File bytes)
                 ∧ fs' !! (demo.statePath +:+ ".tmp") = None)
     ∧ (∀ bytes, os.mkdirFault demo.renameFails = None →
          os.writeFault demo.renameFails = None →
          is_Some (os.renameFault demo.renameFails) →
          state.MarshalIndent (state.data demo.markedTracker) = Ok bytes →
          is_Some err ∧ fs' !! (demo.statePath +:+ ".tmp") = Some (os.File bytes))
     ∧ (is_Some err →
          fs' !! demo.statePath = (∅ : gmap string os.node) !! demo.statePath
          ∧ state.NewTracker fs' demo.statePath = state.NewTracker ∅ demo.statePath)
     ∧ (err = None
        ↔ os.mkdirFault demo.renameFails = None ∧ os.writeFault demo.renameFails = None
          ∧ os.renameFault demo.renameFails = None
          ∧ ∃ bytes, state.MarshalIndent (state.data demo.markedTracker) = Ok bytes)
     ∧ (∀ bytes, os.mkdirFault demo.renameFails = None →
          os.writeFault demo.renameFails = None →
          os.renameFault demo.renameFails = None →
          state.MarshalIndent (state.data demo.markedTracker) = Ok bytes →
          err = None
          ∧ fs' !! demo.statePath = Some (os.File bytes)
          ∧ fs' !! (demo.statePath +:+ ".tmp") = None)).
Proof.
  split.
  - apply (mutation_saved_atomically
             (history.Add "user@yahoo.com" "uid1") os.noFaults ∅
             demo.freshTracker).
    vm_compute. reflexivity.
  - apply (mutation_saved_atomically
             (history.AddBatch "user@yahoo.com" ["uid1"]) demo.renameFails ∅
             demo.freshTracker).
    vm_compute. reflexivity.
Defined.

(** The successful save, observed: the canonical file holds the new state
    and no temporary file is left. *)
Example MarkFetched_renames_over_canonical :
  state.MarkFetched os.noFaults ∅ demo.freshTracker "user@yahoo.com" "uid1"
  = Ret (None, demo.markedTracker, {[ demo.statePath := os.File "{1}" ]}).
Proof. vm_compute. reflexivity. Qed.

End history_store_examples.

(** ** The retrieval session *)

Section retrieval.
Import pop3 wire.

Lemma append_cons x (a b : string) : String x a +:+ b = String x (a +:+ b).
Proof. reflexivity. Qed.

Lemma append_nil_l (b : string) : "" +:+ b = b.
Proof. reflexivity. Qed.

Lemma append_assoc (a b c : string) : (a +:+ b) +:+ c = a +:+ (b +:+ c).
Proof.
  induction a as [|x a IH]; [reflexivity|].
  rewrite !append_cons. now rewrite IH.
Qed.

Lemma append_nil_r (a : string) : a +:+ "" = a.
Proof.
  induction a as [|x a IH]; [reflexivity|].
  rewrite append_cons. now rewrite IH.
Qed.

Lemma retrLoop_unfold n r buf :
  retrLoop n r buf =
  match splitLine (pending r) LF with
  | None =>
      (Err (wrapError ("pop3 RETR " +:+ strconv.Itoa n +:+ " read") (failure r)),
       mkReader "" (failure r))
  | Some (line, rest) =>
      if String.eqb (strings.TrimRight line CRLF) "."
      then (Ok buf, mkReader rest (failure r))
      else retrLoop n (mkReader rest (failure r)) (buf +:+ retrLine line)
  end.
Proof.
  rewrite retrLoop_equation_1. unfold Logic.inspect.
  generalize (@eq_refl _ (splitLine (pending r) LF)).
  cut (∀ o (e : splitLine (pending r) LF = o),
         retrLoop_unfold_clause_1 n r (exist _ o e) buf
         = match o with
           | None =>
               (Err (wrapError ("pop3 RETR " +:+ strconv.Itoa n +:+ " read") (failure r)),
                mkReader "" (failure r))
           | Some (line, rest) =>
               if String.eqb (strings.TrimRight line CRLF) "."
               then (Ok buf, mkReader rest (failure r))
               else retrLoop n (mkReader rest (failure r)) (buf +:+ retrLine line)
           end).
  - intros G e. apply G.
  - intros [[line rest]|] e; reflexivity.
Qed.

Lemma splitLine_line l rest :
  noLF l = true →
  splitLine (l +:+ String LF rest) LF = Some (l +:+ String LF "", rest).
Proof.
  induction l as [|c l IH]; [reflexivity|].
  rewrite append_cons. simpl.
  intros [Hc Hl]%andb_prop. apply negb_true_iff in Hc. rewrite Hc.
  now rewrite IH.
Qed.

Lemma splitLine_noLF s : noLF s = true → splitLine s LF = None.
Proof.
  induction s as [|c s IH]; simpl; [reflexivity|].
  intros [Hc Hl]%andb_prop. apply negb_true_iff in Hc. rewrite Hc.
  now rewrite IH.
Qed.

Lemma TrimRight_LF l :
  strings.TrimRight (l +:+ String LF "") CRLF = strings.TrimRight l CRLF.
Proof.
  induction l as [|c l IH]; [reflexivity|].
  rewrite append_cons. simpl. now rewrite IH.
Qed.

Lemma TrimRight_head c r :
  strings.TrimRight (String c r) CRLF = ""
  ∨ ∃ t, strings.TrimRight (String c r) CRLF = String c t.
Proof.
  simpl. destruct (strings.TrimRight r CRLF) as [|a u].
  - match goal with
    | |- context [if ?b then "" else String c ""] => destruct b
    end; [now left | right; now exists ""].
  - right. now exists (String a u).
Qed.

Lemma TrimRight_dot r :
  ∃ t, strings.TrimRight (String "." r) CRLF = String "." t.
Proof.
  simpl. destruct (strings.TrimRight r CRLF) as [|a u].
  - now exists "".
  - now exists (String a u).
Qed.

Lemma prefix_cons a s b t :
  String.prefix (String a s) (String b t)
  = if ascii_dec a b then String.prefix s t else false.
Proof. reflexivity. Qed.

Lemma prefix_nil t : String.prefix "" t = true.
Proof. now destruct t. Qed.

Ltac prefix_cases :=
  rewrite ?prefix_cons;
  repeat match goal with
         | |- context [ascii_dec ?a ?b] => destruct (ascii_dec a b)
         end;
  rewrite ?prefix_nil; try reflexivity; try congruence.

(** The guard of the loop looks at the trimmed line, but trimming never
    touches two leading dots. *)
Lemma TrimRight_prefix_dots l :
  strings.HasPrefix (strings.TrimRight l CRLF) ".." = String.prefix ".." l.
Proof.
  unfold strings.HasPrefix.
  destruct l as [|c l]; [reflexivity|].
  destruct (ascii_dec "." c) as [<-|Hc].
  - destruct l as [|d l]; [reflexivity|].
    change (strings.TrimRight (String "." (String d l)) CRLF)
      with (match strings.TrimRight (String d l) CRLF with
            | "" => "."
            | String a u => String "." (String a u)
            end).
    destruct (ascii_dec "." d) as [<-|Hd].
    + destruct (TrimRight_dot l) as [t ->]. prefix_cases.
    + destruct (TrimRight_head d l) as [-> | [t ->]]; prefix_cases.
  - destruct (TrimRight_head c l) as [-> | [t ->]]; prefix_cases.
Qed.

Lemma unstuff_prefix l :
  unstuff l = if String.prefix ".." l then dropFirst l else l.
Proof.
  destruct l as [|c l]; [reflexivity|].
  destruct (ascii_dec "." c) as [<-|Hc].
  - destruct l as [|d l]; [reflexivity|].
    destruct (ascii_dec "." d) as [<-|Hd]; [prefix_cases|].
    rewrite !prefix_cons. destruct (ascii_dec "." d); [congruence|].
    destruct (ascii_dec "." "."); [|congruence].
    destruct d as [[] [] [] [] [] [] [] []]; try reflexivity; congruence.
  - rewrite prefix_cons. destruct (ascii_dec "." c); [congruence|].
    destruct l; destruct c as [[] [] [] [] [] [] [] []]; try reflexivity; congruence.
Qed.

Lemma retrLine_unstuff l :
  retrLine (l +:+ String LF "") = unstuff l +:+ String LF "".
Proof.
  unfold retrLine. rewrite TrimRight_LF, TrimRight_prefix_dots, unstuff_prefix.
  destruct l as [|c [|d l]]; try reflexivity.
  - rewrite prefix_cons. destruct (ascii_dec "." c); reflexivity.
  - rewrite !append_cons, !prefix_cons.
    destruct (ascii_dec "." c); [|reflexivity].
    destruct (ascii_dec "." d); [|reflexivity].
    now destruct l.
Qed.

(** The loop copies the lines before the terminator one by one. *)
Lemma retrLoop_lines n ls :
  ∀ r buf rest,
    Forall bodyLine ls →
    pending r = sendLines ls +:+ rest →
    retrLoop n r buf = retrLoop n (mkReader rest (failure r)) (buf +:+ unstuffed ls).
Proof.
  induction ls as [|l ls IH]; intros r buf rest Hls Hr.
  - destruct r as [p f]. simpl in *. subst p.
    unfold unstuffed. simpl. now rewrite append_nil_r.
  - inversion_clear Hls as [|? ? [Hl Ht] Hls'].
    rewrite retrLoop_unfold, Hr.
    change (sendLines (l :: ls)) with (l +:+ String LF (sendLines ls)).
    rewrite append_assoc, append_cons, (splitLine_line l _ Hl).
    rewrite TrimRight_LF. unfold isTerminator in Ht. rewrite Ht.
    rewrite (IH (mkReader (sendLines ls +:+ rest) (failure r)) _ rest Hls' eq_refl).
    simpl failure.
    rewrite retrLine_unstuff. f_equal.
    change (unstuffed (l :: ls)) with (unstuff l +:+ String LF (unstuffed ls)).
    now rewrite !append_assoc.
Qed.

(** C3.  After the reply to [RETR], [Retrieve] reads lines up to the first
    line that is a lone dot.  It returns the lines before it, each with its
    line ending, a line that began with two dots having lost exactly the
    first one; the terminator line and what follows it are not part of the
    result.  When the stream ends before such a line, [Retrieve] returns an
    error. *)
Theorem Retrieve_reads_to_terminator c n resp c1 ls :
  command c ("RETR " +:+ strconv.Itoa n) = (Ok resp, c1) →
  Forall bodyLine ls →
  (∀ term rest,
     terminatorLine term →
     pending (reader c1) = sendLines ls +:+ term +:+ String LF rest →
     Retrieve c n
     = (Ok (unstuffed ls), mkClient (conn c1) (mkReader rest (failure (reader c1)))))
  ∧ (∀ tail,
       noLF tail = true →
       pending (reader c1) = sendLines ls +:+ tail →
       ∃ e, Retrieve c n
            = (Err e, mkClient (conn c1) (mkReader "" (failure (reader c1)))))
  ∧ (∀ t, unstuff (String "." (String "." t)) = String "." t)
  ∧ (∀ l, String.prefix ".." l = false → unstuff l = l).
Proof.
  intros Hcmd Hls. unfold Retrieve. rewrite Hcmd. repeat split.
  - intros term rest [Hn Ht] Hp.
    rewrite (retrLoop_lines n ls _ "" _ Hls Hp), retrLoop_unfold. simpl pending.
    rewrite (splitLine_line term rest Hn), TrimRight_LF.
    unfold isTerminator in Ht. rewrite Ht. reflexivity.
  - intros tail Hn Hp.
    rewrite (retrLoop_lines n ls _ "" _ Hls Hp), retrLoop_unfold. simpl pending.
    rewrite (splitLine_noLF tail Hn). eauto.
  - intros l Hl. now rewrite unstuff_prefix, Hl.
Qed.

End retrieval.

(** The message of [TestClientDotStuffing] comes back with one leading dot
    and without the terminator line. *)
Lemma Retrieve_reads_to_terminator_witness :
  pop3.Retrieve demo.stuffedSession 1
  = (Ok ("Subject: Dots" +:+ CRLF +:+ CRLF +:+ ".leading dot" +:+ CRLF
         +:+ "normal line" +:+ CRLF),
     pop3.mkClient (pop3.mkConn [] None ["RETR 1"] false) (pop3.mkReader "" EOF)).
Proof.
  refine (proj1 (Retrieve_reads_to_terminator demo.stuffedSession 1 "+OK"
                   (pop3.mkClient (pop3.mkConn [] None ["RETR 1"] false)
                      (pop3.mkReader
                         (wire.sendLines demo.stuffedLines +:+ "." +:+ CRLF) EOF))
                   demo.stuffedLines _ _)
                (String "." (String CR "")) "" _ _).
  - vm_compute. reflexivity.
  - repeat constructor.
  - split; reflexivity.
  - reflexivity.
Defined.

(** ** The envelope transform *)

Section envelope_transform.
Import envelope.

Lemma named_app name l1 l2 : named name (l1 ++ l2) = named name l1 ++ named name l2.
Proof. apply List.filter_app. Qed.

(** The copying loop writes no line under a handled name. *)
Lemma named_copyRemaining_handled name h keys :
  smtp.handled !! name = Some true → named name (smtp.copyRemaining h keys) = [].
Proof.
  intros Hh. unfold smtp.copyRemaining.
  induction keys as [|k keys IH]; [reflexivity|].
  simpl. rewrite named_app, IH, app_nil_r.
  destruct (default false (smtp.handled !! k)) eqn:Ek; [reflexivity|].
  assert (k ≠ name) as Hk by (intros ->; rewrite Hh in Ek; discriminate).
  apply String.eqb_neq in Hk.
  induction (default [] (h !! k)) as [|v vs IHv]; [reflexivity|].
  simpl. now rewrite Hk.
Qed.

Lemma named_ifSet name name' v :
  name' ≠ name → named name (smtp.ifSet name' v) = [].
Proof.
  intros Hne%String.eqb_neq. unfold smtp.ifSet.
  destruct (smtp.nonEmpty v); [|reflexivity].
  simpl. now rewrite Hne.
Qed.

(** The only [Reply-To] line [Send] writes is the one chosen between the
    original Reply-To and the original From. *)
Lemma named_ReplyTo s originalFrom h keys :
  named "Reply-To" (smtp.forwardHeaders s originalFrom h keys)
  = if smtp.nonEmpty (mail.Get h "Reply-To")
    then [("Reply-To", mail.Get h "Reply-To")]
    else if smtp.nonEmpty (mail.Get h "From")
         then [("Reply-To", mail.Get h "From")] else [].
Proof.
  unfold smtp.forwardHeaders. rewrite !named_app.
  rewrite !named_ifSet by discriminate.
  rewrite named_copyRemaining_handled by reflexivity.
  destruct (smtp.nonEmpty (mail.Get h "From"));
    destruct (smtp.nonEmpty (mail.Get h "Reply-To")); reflexivity.
Qed.

Lemma nonEmpty_true v : v ≠ "" → smtp.nonEmpty v = true.
Proof.
  intros Hv. unfold smtp.nonEmpty. apply negb_true_iff. now apply String.eqb_neq.
Qed.

(** C8, as the code has it.  When the first original From value is not empty
    and the original Reply-To is absent or empty, the output carries that
    From value in [X-Original-From], in [Resent-From] and in its only
    [Reply-To] line.  When the first original Reply-To value is not empty, the
    only [Reply-To] line of the output carries that value. *)
Theorem ReplyTo_chosen s originalFrom h keys :
  let lines := smtp.forwardHeaders s originalFrom h keys in
  (mail.Get h "From" ≠ "" → mail.Get h "Reply-To" = "" →
     named "Reply-To" lines = [("Reply-To", mail.Get h "From")]
     ∧ In ("X-Original-From", mail.Get h "From") lines
     ∧ In ("Resent-From", mail.Get h "From") lines)
  ∧ (mail.Get h "Reply-To" ≠ "" →
       named "Reply-To" lines = [("Reply-To", mail.Get h "Reply-To")]).
Proof.
  intros lines. subst lines. split.
  - intros Hf Hr. rewrite named_ReplyTo, Hr, (nonEmpty_true _ Hf).
    split; [reflexivity|].
    unfold smtp.forwardHeaders. rewrite (nonEmpty_true _ Hf).
    split; repeat (apply in_or_app; ((left; simpl; tauto) || right)).
  - intros Hr. now rewrite named_ReplyTo, (nonEmpty_true _ Hr).
Qed.

End envelope_transform.

(** The scenario of the specification: [From: Jane <jane@x.com>] and no
    Reply-To. *)
Lemma ReplyTo_chosen_witness :
  let lines := smtp.forwardHeaders demo.sender "user@yahoo.com" demo.fromJane ["From"] in
  envelope.named "Reply-To" lines = [("Reply-To", "Jane <jane@x.com>")]
  ∧ In ("X-Original-From", "Jane <jane@x.com>") lines
  ∧ In ("Resent-From", "Jane <jane@x.com>") lines.
Proof.
  refine (proj1 (ReplyTo_chosen demo.sender "user@yahoo.com" demo.fromJane ["From"]) _ _).
  - vm_compute. discriminate.
  - vm_compute. reflexivity.
Defined.

(** C8 as stated fails on an empty header value: an original Reply-To that
    is present but empty is not passed through, the synthesized one is
    written instead; and an original From that is present but empty yields
    no Reply-To and no preservation header at all. *)
Lemma ReplyTo_empty_counterexample :
  let h1 := mail.headerOf [("From", "Jane <jane@x.com>"); ("Reply-To", "")] in
  let h2 := mail.headerOf [("From", "")] in
  (h1 !! "Reply-To" = Some [""]
   ∧ envelope.named "Reply-To"
       (smtp.forwardHeaders demo.sender "user@yahoo.com" h1 ["From"; "Reply-To"])
     = [("Reply-To", "Jane <jane@x.com>")])
  ∧ (h2 !! "From" = Some [""] ∧ h2 !! "Reply-To" = None
     ∧ smtp.forwardHeaders demo.sender "user@yahoo.com" h2 ["From"]
       = [("From", "dest@gmail.com"); ("To", "dest@gmail.com");
          ("X-YaToGm-Source", "user@yahoo.com"); ("X-Mailer", "YaToGm/1.0")]).
Proof. vm_compute. repeat split; reflexivity. Qed.

Section remaining_headers.
Import envelope.

Lemma named_cons name kv l :
  named name (kv :: l) = if String.eqb kv.1 name then kv :: named name l else named name l.
Proof. reflexivity. Qed.

Lemma headerOf_snoc fields kv :
  mail.headerOf (fields ++ [kv])
  = <[kv.1 := default [] (mail.headerOf fields !! kv.1) ++ [kv.2]]> (mail.headerOf fields).
Proof. unfold mail.headerOf. now rewrite foldl_app. Qed.

(** The values the header map holds under a name are the values of the
    fields of that name, in wire order. *)
Lemma headerOf_lookup fields name :
  default [] (mail.headerOf fields !! name) = (named name fields).*2.
Proof.
  induction fields as [|kv fields IH] using rev_ind; [reflexivity|].
  rewrite headerOf_snoc, named_app, fmap_app.
  destruct (decide (kv.1 = name)) as [<-|Hne].
  - rewrite lookup_insert_eq, named_cons, String.eqb_refl. simpl.
    now rewrite IH.
  - rewrite lookup_insert_ne by done. rewrite IH, named_cons.
    apply String.eqb_neq in Hne. rewrite Hne. simpl. now rewrite app_nil_r.
Qed.

Lemma named_fst name l : named name l = map (λ v, (name, v)) (named name l).*2.
Proof.
  induction l as [|[k v] l IH]; [reflexivity|].
  rewrite named_cons. simpl.
  destruct (String.eqb_spec k name) as [->|Hne]; [|exact IH].
  simpl. f_equal. exact IH.
Qed.

Lemma remaining_cons kv l :
  remaining (kv :: l)
  = if default false (smtp.handled !! kv.1) then remaining l else kv :: remaining l.
Proof. unfold remaining. simpl. now destruct (default false _). Qed.

Lemma named_remaining name fields :
  named name (remaining fields)
  = if default false (smtp.handled !! name) then [] else named name fields.
Proof.
  induction fields as [|[k v] fields IH].
  - now destruct (default false (smtp.handled !! name)).
  - rewrite remaining_cons, named_cons. cbn [fst].
    destruct (String.eqb_spec k name) as [->|Hne].
    + destruct (default false (smtp.handled !! name)) eqn:Eh.
      * exact IH.
      * rewrite named_cons. cbn [fst]. now rewrite String.eqb_refl, IH.
    + apply String.eqb_neq in Hne. destruct (default false (smtp.handled !! k)).
      * exact IH.
      * rewrite named_cons. cbn [fst]. rewrite Hne. exact IH.
Qed.

Lemma named_map_key name k (vs : list string) :
  named name (map (λ v, (k, v)) vs)
  = if String.eqb k name then map (λ v, (k, v)) vs else [].
Proof.
  induction vs as [|v vs IH]; [now destruct (String.eqb k name)|].
  cbn [map]. rewrite named_cons. cbn [fst]. rewrite IH.
  now destruct (String.eqb k name).
Qed.

(** Under one name, the copying loop writes the values the map holds for it,
    whatever the order of the keys. *)
Lemma named_copyRemaining name h keys :
  NoDup keys →
  named name (smtp.copyRemaining h keys)
  = if default false (smtp.handled !! name) then []
    else if decide (name ∈ keys)
         then map (λ v, (name, v)) (default [] (h !! name)) else [].
Proof.
  induction keys as [|k keys IH]; intros Hnd.
  - destruct (default false (smtp.handled !! name)); [reflexivity|].
    rewrite decide_False; [reflexivity | apply not_elem_of_nil].
  - apply NoDup_cons in Hnd as [Hk Hnd].
    unfold smtp.copyRemaining. simpl. fold (smtp.copyRemaining h keys).
    rewrite named_app, (IH Hnd).
    destruct (String.eqb_spec k name) as [->|Hne].
    + destruct (default false (smtp.handled !! name)) eqn:Eh; [reflexivity|].
      rewrite named_map_key, String.eqb_refl.
      rewrite (decide_False (P := name ∈ keys)) by done.
      rewrite decide_True by apply list_elem_of_here.
      now rewrite app_nil_r.
    + assert (named name
                (if default false (smtp.handled !! k) then []
                 else map (λ v, (k, v)) (default [] (h !! k))) = []) as ->.
      { destruct (default false (smtp.handled !! k)); [reflexivity|].
        rewrite named_map_key. apply String.eqb_neq in Hne. now rewrite Hne. }
      simpl. destruct (default false (smtp.handled !! name)); [reflexivity|].
      destruct (decide (name ∈ keys)) as [Hin|Hin].
      * rewrite decide_True; [reflexivity | now apply list_elem_of_further].
      * rewrite decide_False; [reflexivity|].
        intros [E|Hin']%elem_of_cons; congruence.
Qed.

Lemma rangeOrder_NoDup h keys : mail.rangeOrder h keys → NoDup keys.
Proof.
  intros Hp. unfold mail.rangeOrder in Hp. rewrite Hp.
  apply NoDup_fst_map_to_list.
Qed.

Lemma rangeOrder_elem h keys name :
  mail.rangeOrder h keys → name ∉ keys → h !! name = None.
Proof.
  intros Hp Hn. unfold mail.rangeOrder in Hp. rewrite Hp in Hn.
  destruct (h !! name) as [vs|] eqn:E; [|reflexivity].
  exfalso. apply Hn. apply list_elem_of_fmap.
  exists (name, vs). split; [reflexivity|]. now apply elem_of_map_to_list.
Qed.

Lemma named_split name l x r :
  named name l = x :: r →
  ∃ pre post, l = pre ++ x :: post ∧ named name pre = [] ∧ named name post = r.
Proof.
  induction l as [|a l IH]; [discriminate|].
  rewrite named_cons. destruct (String.eqb a.1 name) eqn:Ea.
  - intros [= -> <-]. now exists [], l.
  - intros (pre & post & -> & Hpre & Hpost)%IH.
    exists (a :: pre), post. repeat split; [|exact Hpost].
    rewrite named_cons, Ea. exact Hpre.
Qed.

(** Two lists of header lines that agree name by name are permutations of
    each other. *)
Lemma named_ext_Permutation l1 :
  ∀ l2, (∀ name, named name l1 = named name l2) → l1 ≡ₚ l2.
Proof.
  induction l1 as [|[k0 v0] l1 IH]; intros l2 H.
  - destruct l2 as [|[k v] l2]; [reflexivity|].
    specialize (H k). rewrite named_cons in H. simpl in H.
    rewrite String.eqb_refl in H. discriminate.
  - pose proof (H k0) as H0. rewrite named_cons in H0. simpl in H0.
    rewrite String.eqb_refl in H0. symmetry in H0.
    apply named_split in H0 as (pre & post & -> & Hpre & Hpost).
    rewrite <- Permutation_middle. apply perm_skip. apply IH.
    intros name. specialize (H name).
    rewrite named_cons, !named_app, named_cons in H. simpl in H.
    rewrite named_app.
    destruct (String.eqb_spec k0 name) as [->|Hne].
    + rewrite Hpre, Hpost. reflexivity.
    + exact H.
Qed.

(** C7, as the code has it.  For a parsed message, the headers not handled
    by name are copied after the fixed part of the output, each with its name
    and value: the copied lines are a permutation of those original fields,
    and under each single name they keep the order they had.  The copied
    lines follow the order in which the runtime visits the names, which is
    the only part of the output not fixed by the input. *)
Theorem copyRemaining_keeps_fields s originalFrom fields keys :
  let h := mail.headerOf fields in
  mail.rangeOrder h keys →
  smtp.copyRemaining h keys ≡ₚ remaining fields
  ∧ (∀ name, named name (smtp.copyRemaining h keys) = named name (remaining fields))
  ∧ smtp.forwardHeaders s originalFrom h keys
    = smtp.forwardHeaders s originalFrom h [] ++ smtp.copyRemaining h keys.
Proof.
  intros h Hkeys.
  assert (∀ name, named name (smtp.copyRemaining h keys) = named name (remaining fields))
    as Hnamed.
  { intros name.
    rewrite (named_copyRemaining name h keys (rangeOrder_NoDup _ _ Hkeys)).
    rewrite named_remaining.
    destruct (default false (smtp.handled !! name)); [reflexivity|].
    rewrite (named_fst name fields), <- headerOf_lookup. fold h.
    destruct (decide (name ∈ keys)) as [Hin|Hin]; [reflexivity|].
    now rewrite (rangeOrder_elem _ _ _ Hkeys Hin). }
  split; [now apply named_ext_Permutation|].
  split; [exact Hnamed|].
  unfold smtp.forwardHeaders.
  change (smtp.copyRemaining h []) with (@nil (string * string)).
  rewrite app_nil_r. repeat rewrite <- app_assoc. reflexivity.
Qed.

End remaining_headers.

Lemma copyRemaining_keeps_fields_witness :
  smtp.copyRemaining (mail.headerOf demo.twoExtras) ["X-B"; "X-A"]
    ≡ₚ envelope.remaining demo.twoExtras
  ∧ (∀ name,
       envelope.named name (smtp.copyRemaining (mail.headerOf demo.twoExtras) ["X-B"; "X-A"])
       = envelope.named name (envelope.remaining demo.twoExtras))
  ∧ smtp.forwardHeaders demo.sender "user@yahoo.com" (mail.headerOf demo.twoExtras)
      ["X-B"; "X-A"]
    = smtp.forwardHeaders demo.sender "user@yahoo.com" (mail.headerOf demo.twoExtras) []
      ++ smtp.copyRemaining (mail.headerOf demo.twoExtras) ["X-B"; "X-A"].
Proof.
  apply (copyRemaining_keeps_fields demo.sender "user@yahoo.com" demo.twoExtras
           ["X-B"; "X-A"]).
  unfold mail.rangeOrder. vm_compute. apply perm_swap || reflexivity.
Defined.

(** C7 as stated fails: a [range] over the header map may visit [X-B]
    before [X-A], and then the copied headers come out in the reverse of
    their original order; the two admissible orders give different bytes for
    the same input. *)
Lemma range_order_counterexample :
  let h := mail.headerOf demo.twoExtras in
  mail.rangeOrder h ["X-A"; "X-B"]
  ∧ mail.rangeOrder h ["X-B"; "X-A"]
  ∧ envelope.remaining demo.twoExtras = [("X-A", "1"); ("X-B", "2")]
  ∧ smtp.copyRemaining h ["X-B"; "X-A"] = [("X-B", "2"); ("X-A", "1")]
  ∧ smtp.forwardBytes demo.sender "user@yahoo.com" (mail.mkMessage h "body") ["X-A"; "X-B"]
    ≠ smtp.forwardBytes demo.sender "user@yahoo.com" (mail.mkMessage h "body") ["X-B"; "X-A"].
Proof.
  repeat split.
  - unfold mail.rangeOrder. vm_compute. apply perm_swap || reflexivity.
  - unfold mail.rangeOrder. vm_compute. apply perm_swap || reflexivity.
  - vm_compute. discriminate.
Qed.

(** ** The orchestrator *)

Section orchestrator.
Context {codec : state.JSON} {parser : mail.Parser} {range : mail.MapRange}.
Import worker pipeline.

Ltac run_step :=
  unfold processMessage, IsFetched, Send, MarkFetched, onClient, emit;
  unfold mbind, M_bind, mret, M_ret.

(** Marking a uid never unmarks another. *)
Lemma MarkFetched_monotone ft fs t mailbox uid err t' fs' m u :
  state.MarkFetched ft fs t mailbox uid = Ret (err, t', fs') →
  state.IsFetched t m u = Ret true → state.IsFetched t' m u = Ret true.
Proof.
  intros (mbs & uids & Embs & Em & ->)%MarkFetched_inv.
  rewrite IsFetched_insert. unfold state.IsFetched. rewrite Embs.
  destruct (decide (m = mailbox)) as [->|Hne]; [|done].
  destruct Em as [[-> ->] | ->]; [discriminate|]. cbn.
  destruct (decide (u = uid)) as [->|Hu].
  - now rewrite lookup_insert_eq.
  - now rewrite lookup_insert_ne.
Qed.

Lemma MarkFetched_marks ft fs t mailbox uid err t' fs' :
  state.MarkFetched ft fs t mailbox uid = Ret (err, t', fs') →
  state.IsFetched t' mailbox uid = Ret true.
Proof.
  intros (mbs & uids & Embs & Em & ->)%MarkFetched_inv.
  rewrite IsFetched_insert, decide_True by reflexivity.
  now rewrite lookup_insert_eq.
Qed.

Ltac close_step :=
  repeat split;
  eauto using MarkFetched_marks, MarkFetched_monotone;
  try done; try (left; simpl; tauto); try (intros [? ?]; done).

(** One pass of the loop body gives the message one fate: the calls it adds
    to the trace and the counters it returns are those of that fate.  A
    message is skipped exactly when the store holds its uid, and a skip
    changes nothing but the trace; after a message that got as far as a
    returning [MarkFetched] the store holds its uid; the store never loses a
    uid; nothing is delivered unless [Send] returned success. *)
Lemma processMessage_fate s mailbox uidMap counters n w :
  let uid := default "" (uidMap !! n) in
  let r := processMessage s mailbox uidMap counters n w in
  ∃ fate,
    fate ≠ FailedAt Checking
    ∧ r.1 = tally counters fate
    ∧ trace r.2 = trace w ++ events n uid fate
    ∧ (state.IsFetched (tracker w) mailbox uid = Ret true → fate = Skipped)
    ∧ (fate = Skipped →
         tracker r.2 = tracker w ∧ fs r.2 = fs w ∧ client r.2 = client w
         ∧ relay r.2 = relay w ∧ faults r.2 = faults w ∧ outbox r.2 = outbox w)
    ∧ (recorded fate → state.IsFetched (tracker r.2) mailbox uid = Ret true)
    ∧ (∀ m u, state.IsFetched (tracker w) m u = Ret true →
              state.IsFetched (tracker r.2) m u = Ret true)
    ∧ (In (EvSend n true) (events n uid fate) ∨ outbox r.2 = outbox w)
    ∧ sessions r.2 = sessions w
    ∧ dials r.2 = dials w
    ∧ (is_Some (client w) → is_Some (client r.2)).
Proof.
  intros uid r. subst uid r.
  destruct counters as [fetched errors]. run_step.
  destruct (state.IsFetched (tracker w) mailbox _) as [[|]|] eqn:Eis; cbn.
  - exists Skipped. close_step.
  - destruct (client w) as [c|] eqn:Ec; cbn;
      [|exists (PanickedAt Fetching); close_step].
    destruct (pop3.Retrieve c n) as [[rawMsg|e] c1] eqn:Er; cbn;
      [|exists (FailedAt Fetching); rewrite <- app_assoc; close_step].
    set (answer := match relay w with a :: _ => a | [] => None end).
    set (rest := match relay w with _ :: rs => rs | [] => [] end).
    assert (match relay w with a :: rs => (a, rs) | [] => (None, []) end
            = (answer, rest)) as -> by (subst answer rest; now destruct (relay w)).
    destruct (smtp.Send s answer rawMsg mailbox) as [[e|] bytes] eqn:Es; cbn;
      [exists (FailedAt Forwarding); rewrite <- !app_assoc; close_step|].
    set (ft := match faults w with f :: _ => f | [] => os.noFaults end).
    set (fts := match faults w with _ :: r => r | [] => [] end).
    assert (match faults w with f :: r => (f, r) | [] => (os.noFaults, []) end
            = (ft, fts)) as -> by (subst ft fts; now destruct (faults w)).
    destruct (state.MarkFetched ft (fs w) (tracker w) mailbox _)
      as [[[[e|] t'] fs']|] eqn:Em; cbn.
    + exists (FailedAt Recording). rewrite <- !app_assoc. close_step.
    + destruct (pop3.Delete c1 n) as [[e|] c2] eqn:Ed; cbn.
      * exists (FailedAt Deleting). rewrite <- !app_assoc. close_step.
      * exists Forwarded. rewrite <- !app_assoc. close_step.
    + exists (PanickedAt Recording). rewrite <- !app_assoc. close_step.
  - exists (PanickedAt Checking). rewrite app_nil_r. close_step.
Qed.

Lemma processMessages_cons s mailbox uidMap counters n rest w :
  processMessages s mailbox uidMap counters (n :: rest) w
  = match processMessage s mailbox uidMap counters n w with
    | (Ret counters', w1) => processMessages s mailbox uidMap counters' rest w1
    | (Panic, w1) => (Panic, w1)
    end.
Proof. reflexivity. Qed.

(** The loop gives every message it reaches a fate, in the order of
    [msgNums], and stops early only on a panic. *)
Lemma processMessages_log s mailbox uidMap msgNums :
  ∀ counters w,
    let r := processMessages s mailbox uidMap counters msgNums w in
    ∃ log,
      Looped mailbox uidMap msgNums counters (tracker w) (outbox w)
             r.1 (tracker r.2) (outbox r.2) log
      ∧ trace r.2 = trace w ++ chains uidMap log
      ∧ sessions r.2 = sessions w
      ∧ dials r.2 = dials w
      ∧ (is_Some (client w) → is_Some (client r.2)).
Proof.
  induction msgNums as [|n rest IH]; intros counters w r; subst r.
  - exists []. cbn. rewrite app_nil_r. split_and!; auto.
    constructor; auto; try done. exists []. done.
  - rewrite processMessages_cons.
    destruct (processMessage_fate s mailbox uidMap counters n w)
      as (fate & Hposs & Hres & Htr & Hskip & Hsame & Hrec & Hmono & Hout
          & Hsess & Hdial & Hcl).
    destruct (processMessage s mailbox uidMap counters n w) as [[counters'|] w1];
      cbn [fst snd] in *.
    + specialize (IH counters' w1).
      destruct IH as (log & [Lres Lposs (rest' & Lpre & Lall) Lskip Lrec Lmono Lout Lsame]
                      & Ltr & Lsess & Ldial & Lcl).
      exists ((n, fate) :: log). split_and!.
      * constructor.
        -- cbn [fmap list_fmap tallies fst snd]. now rewrite <- Hres.
        -- constructor; assumption.
        -- exists rest'. split; [cbn; now rewrite Lpre | exact Lall].
        -- intros n' fate' [[= <- <-]|Hin] Hf; [now apply Hskip|].
           apply (Lskip n' fate' Hin). now apply Hmono.
        -- intros n' fate' [[= <- <-]|Hin] Hr; [now apply Lmono, Hrec|].
           now apply (Lrec n' fate' Hin).
        -- intros m u Hf. now apply Lmono, Hmono.
        -- destruct Hout as [Hs|Ho].
           { left. exists n. unfold chains. cbn [flat_map fst snd].
             apply in_or_app. now left. }
           destruct Lout as [[n' Hs]|Lo].
           { left. exists n'. unfold chains. cbn [flat_map fst snd].
             apply in_or_app. now right. }
           right. congruence.
        -- intros Hall.
           assert (fate = Skipped) as Hf by (apply (Hall (n, fate)); now left).
           destruct (Hsame Hf) as (? & ? & ? & ? & ? & ?).
           destruct Lsame as [? ?]; [intros nf Hin; apply Hall; now right|].
           split; congruence.
      * rewrite Ltr, Htr. unfold chains. cbn [flat_map fst snd].
        now rewrite app_assoc.
      * congruence.
      * congruence.
      * auto.
    + exists [(n, fate)]. unfold chains. cbn [flat_map fst snd].
      rewrite app_nil_r. split_and!; auto.
      constructor.
      * cbn [fmap list_fmap tallies fst snd]. now rewrite <- Hres.
      * constructor; auto.
      * exists rest. done.
      * intros n' fate' [[= <- <-]|[]] Hf. now apply Hskip.
      * intros n' fate' [[= <- <-]|[]] Hr. now apply Hrec.
      * exact Hmono.
      * destruct Hout as [Hs|Ho]; [left; exists n|now right].
        unfold chains. cbn [flat_map fst snd]. now rewrite app_nil_r.
      * intros Hall.
        destruct Hsame as (? & ? & ? & ? & ? & ?); [|done].
        apply (Hall (n, fate)). now left.
Qed.

(** *** What the shape of the chains says about the order of calls *)

Lemma ordered_app prev l1 l2 :
  ordered prev l1 → (∀ p, ordered p l2) → ordered prev (l1 ++ l2).
Proof.
  revert prev. induction l1 as [|ev l1 IH]; intros prev H1 H2; [apply H2|].
  destruct H1 as [Hf H1]. split; [exact Hf | now apply IH].
Qed.

Lemma ordered_events prev n uid fate : ordered prev (events n uid fate).
Proof. destruct fate as [|[]| |[]]; cbn; eauto 10. Qed.

Lemma ordered_chains uidMap log : ∀ prev, ordered prev (chains uidMap log).
Proof.
  induction log as [|[n fate] log IH]; intros prev; [exact I|].
  unfold chains. cbn [flat_map fst snd].
  apply ordered_app; [apply ordered_events | exact IH].
Qed.

(** In an ordered trace, the call before each call is the one it needs. *)
Lemma ordered_split prev tr pre ev post :
  ordered prev tr → tr = pre ++ ev :: post →
  follows (match last pre with Some e => Some e | None => prev end) ev.
Proof.
  revert prev tr. induction pre as [|e pre IH]; intros prev tr Ho ->.
  - exact (proj1 Ho).
  - destruct Ho as [_ Ho]. specialize (IH (Some e) _ Ho eq_refl).
    rewrite last_cons. now destruct (last pre).
Qed.

Lemma ordered_mark tr pre n uid ok post :
  ordered None tr → tr = pre ++ EvMarkFetched n uid ok :: post →
  ∃ pre', pre = pre' ++ [EvSend n true].
Proof.
  intros Ho E. pose proof (ordered_split _ _ _ _ _ Ho E) as Hf. cbn in Hf.
  destruct (last pre) as [e|] eqn:El; [|discriminate].
  injection Hf as ->. now apply last_Some.
Qed.

Lemma ordered_delete tr pre n ok post :
  ordered None tr → tr = pre ++ EvDelete n ok :: post →
  ∃ pre' uid, pre = pre' ++ [EvMarkFetched n uid true].
Proof.
  intros Ho E. pose proof (ordered_split _ _ _ _ _ Ho E) as [uid Hf].
  destruct (last pre) as [e|] eqn:El; [|discriminate].
  injection Hf as ->. apply last_Some in El as [pre' ->]. eauto.
Qed.

Lemma in_chains uidMap log ev :
  In ev (chains uidMap log) ↔
  ∃ n fate, In (n, fate) log ∧ In ev (events n (default "" (uidMap !! n)) fate).
Proof.
  unfold chains. rewrite in_flat_map. split.
  - intros ([n fate] & Hin & Hev). eauto.
  - intros (n & fate & Hin & Hev). exists (n, fate). auto.
Qed.

Lemma events_msgOf n uid fate ev : In ev (events n uid fate) → msgOf ev = Some n.
Proof.
  destruct fate as [|[]| |[]]; cbn; intros H;
    repeat (destruct H as [<-|H]; [reflexivity|]); destruct H.
Qed.

(** Which fate a call betrays. *)
Lemma events_send_failed n uid fate m :
  In (EvSend m false) (events n uid fate) → fate = FailedAt Forwarding.
Proof.
  destruct fate as [|[]| |[]]; cbn; intros H;
    repeat (destruct H as [H|H]; [discriminate H || reflexivity|]);
    destruct H.
Qed.

Lemma events_retrieve_failed n uid fate m :
  In (EvRetrieve m false) (events n uid fate) → fate = FailedAt Fetching.
Proof.
  destruct fate as [|[]| |[]]; cbn; intros H;
    repeat (destruct H as [H|H]; [discriminate H || reflexivity|]);
    destruct H.
Qed.

Lemma events_skipped n uid fate ev :
  fate = Skipped → In ev (events n uid fate) → ev = EvIsFetched n uid true.
Proof. intros ->. cbn. intros [<-|[]]. reflexivity. Qed.

Lemma log_functional (log : list (Z * Fate)) n f1 f2 :
  NoDup log.*1 → In (n, f1) log → In (n, f2) log → f1 = f2.
Proof.
  induction log as [|[n0 f0] log IH]; [intros _ []|].
  cbn. intros Hnd%NoDup_cons. destruct Hnd as [Hn0 Hnd].
  intros [[= -> ->]|H1] [[= <-]|H2]; auto.
  - exfalso. apply Hn0. apply list_elem_of_fmap. exists (n, f2).
    split; [reflexivity | now apply list_elem_of_In].
  - subst. exfalso. apply Hn0. apply list_elem_of_fmap. exists (n0, f1).
    split; [reflexivity | now apply list_elem_of_In].
Qed.

(** A failed forward is the last call made for its message. *)
Lemma chains_send_failed uidMap log n :
  NoDup log.*1 → In (EvSend n false) (chains uidMap log) →
  ∀ uid ok, ¬ In (EvMarkFetched n uid ok) (chains uidMap log)
            ∧ ¬ In (EvDelete n ok) (chains uidMap log).
Proof.
  intros Hnd (n1 & f1 & Hin1 & Hev1)%in_chains uid ok.
  pose proof (events_msgOf _ _ _ _ Hev1) as [= <-].
  apply events_send_failed in Hev1 as ->.
  split; intros (n2 & f2 & Hin2 & Hev2)%in_chains;
    pose proof (events_msgOf _ _ _ _ Hev2) as [= <-];
    rewrite <- (log_functional _ _ _ _ Hnd Hin1 Hin2) in Hev2;
    cbn in Hev2; repeat (destruct Hev2 as [Hev2|Hev2]; [discriminate|]);
    destruct Hev2.
Qed.

Lemma count_app p l1 l2 : count p (l1 ++ l2) = (count p l1 + count p l2)%nat.
Proof. unfold count. now rewrite List.filter_app, length_app. Qed.

Lemma count_events_failure n uid fate :
  fate ≠ FailedAt Checking →
  count isFailure (events n uid fate)
  = match fate with FailedAt _ => 1%nat | _ => 0%nat end.
Proof. destruct fate as [|[]| |[]]; try reflexivity. congruence. Qed.

Lemma count_events_completion n uid fate :
  count isCompletion (events n uid fate)
  = match fate with Forwarded => 1%nat | _ => 0%nat end.
Proof. destruct fate as [|[]| |[]]; reflexivity. Qed.

(** The counters count the calls that failed and the messages completed. *)
Lemma tallies_count uidMap log :
  Forall (λ nf, nf.2 ≠ FailedAt Checking) log →
  ∀ counters fetched errors,
    tallies counters log.*2 = Ret (fetched, errors) →
    errors = Nat.iter (count isFailure (chains uidMap log)) incr counters.2
    ∧ fetched = Nat.iter (count isCompletion (chains uidMap log)) incr counters.1.
Proof.
  induction 1 as [|[n fate] log Hfate Hlog IH]; intros counters fetched errors.
  - cbn. now intros [= -> ].
  - unfold chains. cbn [flat_map fst snd fmap list_fmap tallies].
    fold (chains uidMap log). rewrite !count_app.
    rewrite (count_events_failure _ _ _ Hfate), count_events_completion.
    cbn [snd] in Hfate.
    destruct fate as [|st| |st]; cbn [tally]; try discriminate.
    + intros Ht. exact (IH _ _ _ Ht).
    + intros Ht. destruct (IH _ _ _ Ht) as [-> ->]. cbn [fst snd].
      now rewrite Nat.iter_succ_r.
    + intros Ht. destruct (IH _ _ _ Ht) as [-> ->]. cbn [fst snd].
      now rewrite Nat.iter_succ_r.
Qed.

Lemma sortedKeys_NoDup (uidMap : gmap Z string) : NoDup (sortedKeys uidMap).
Proof.
  unfold sortedKeys. rewrite merge_sort_Permutation.
  apply NoDup_fst_map_to_list.
Qed.

Lemma sortedKeys_In (uidMap : gmap Z string) n uid :
  uidMap !! n = Some uid → In n (sortedKeys uidMap).
Proof.
  intros Hn. apply list_elem_of_In. unfold sortedKeys.
  rewrite merge_sort_Permutation. apply list_elem_of_fmap.
  exists (n, uid). split; [reflexivity | now apply elem_of_map_to_list].
Qed.

(** [Quit] closes the transport, after writing [QUIT] when the transport
    still takes a write. *)
Lemma Quit_closes c :
  pop3.closed (pop3.conn (pop3.Quit c).2) = true
  ∧ (match pop3.writes (pop3.conn c) with
     | [] | pop3.WriteOk :: _ => True
     | _ => False
     end →
     pop3.sent (pop3.conn (pop3.Quit c).2) = pop3.sent (pop3.conn c) ++ ["QUIT"]).
Proof.
  unfold pop3.Quit, pop3.command, pop3.readResponse, pop3.connClose.
  destruct c as [[ws ce snt cl] rd]. cbn.
  destruct ws as [|[|e|e] ws]; cbn;
    destruct (pop3.ReadString rd LF) as [[line|e'] r']; cbn;
    repeat match goal with
           | |- context [if ?b then _ else _] => destruct b; cbn
           end; split; auto; try done; try (now destruct e').
Qed.

(** *** One mailbox, from the dial to the deferred [Quit] *)

(** The calls of one [processMailbox]: either the dial fails and nothing
    else is called, or the dial is followed by the login, the listing and
    the message loop as far as they get, and then by [Quit]. *)
Lemma processMailbox_shape s index yahoo w :
  let r := processMailbox s index yahoo w in
  (trace r.2 = trace w ++ [EvDial false]
   ∧ r.1 = Ret (0, 1)
   ∧ tracker r.2 = tracker w ∧ outbox r.2 = outbox w
   ∧ (sessions r.2 = sessions w
      ∨ ∃ c, sessions r.2 = sessions w ++ [(pop3.Close c).2]))
  ∨ ∃ c mid,
      trace r.2 = trace w ++ EvDial true :: mid ++ [EvQuit]
      ∧ sessions r.2 = sessions w ++ [(pop3.Quit c).2]
      ∧ ((mid = [EvLogin false]
          ∧ r.1 = Ret (0, 1) ∧ tracker r.2 = tracker w ∧ outbox r.2 = outbox w)
         ∨ (mid = [EvLogin true; EvUIDList None]
            ∧ r.1 = Ret (0, 1) ∧ tracker r.2 = tracker w ∧ outbox r.2 = outbox w)
         ∨ ∃ uidMap log,
             mid = [EvLogin true; EvUIDList (Some uidMap)] ++ chains uidMap log
             ∧ Looped (config.Email yahoo) uidMap (sortedKeys uidMap) (0, 0)
                 (tracker w) (outbox w) r.1 (tracker r.2) (outbox r.2) log).
Proof.
  intros r. subst r.
  unfold processMailbox, Dial, defer, Quit, onClient, emit.
  unfold mbind, M_bind, mret, M_ret.
  set (tls := match dials w with
              | d :: _ => d
              | [] => Err (errorString "dial tcp: connection refused")
              end).
  set (ds := match dials w with _ :: r => r | [] => [] end).
  assert (match dials w with
          | d :: r => (d, r)
          | [] => (Err (errorString "dial tcp: connection refused"), [])
          end = (tls, ds)) as -> by (subst tls ds; now destruct (dials w)).
  unfold pop3.Dial.
  destruct tls as [c0|e0]; cbn.
  2:{ left. split_and!; auto. left. apply app_nil_r. }
  destruct (pop3.readResponse c0) as [[greeting|e] c1]; cbn.
  2:{ left. split_and!; auto. right. exists c1. reflexivity. }
  right. rewrite app_nil_r.
  destruct (pop3.Login c1 _ _) as [[e|] c2]; cbn.
  { exists c2, [EvLogin false]. destruct (pop3.Quit c2) as [qe c5]. cbn.
    rewrite <- !app_assoc. split_and!; auto. }
  destruct (pop3.UIDList c2) as [[uidMap|e] c3]; cbn.
  2:{ exists c3, [EvLogin true; EvUIDList None].
      destruct (pop3.Quit c3) as [qe c5]. cbn.
      rewrite <- !app_assoc. split_and!; auto. right. left. auto. }
  match goal with
  | |- context [processMessages s ?m uidMap (0, 0) ?ks ?w3] =>
      destruct (processMessages_log s m uidMap ks (0, 0) w3)
        as (log & Hloop & Htr & Hsess & _ & Hcl);
      destruct (processMessages s m uidMap (0, 0) ks w3) as [res w4]
  end.
  cbn [fst snd trace sessions client tracker outbox] in *.
  destruct (client w4) as [c4|]; [|destruct Hcl as [? ?]; eauto; done].
  destruct (pop3.Quit c4) as [qe c5] eqn:Eq. cbn.
  exists c4, ([EvLogin true; EvUIDList (Some uidMap)] ++ chains uidMap log).
  rewrite Eq. cbn [snd]. split_and!.
  - rewrite Htr. rewrite <- !app_assoc. reflexivity.
  - now rewrite Hsess.
  - right. right. exists uidMap, log. split; [reflexivity | exact Hloop].
Qed.

(** *** The order of calls in one mailbox run *)

(** Calls that belong to no message need no call before them. *)
Lemma ordered_plain l : Forall (λ ev, msgOf ev = None) l → ∀ prev, ordered prev l.
Proof.
  induction 1 as [|ev l Hev Hl IH]; intros prev; [exact I|].
  split; [|apply IH]. destruct ev; try exact I; discriminate.
Qed.

Lemma framed_ordered pre0 uidMap log post0 :
  Forall (λ ev, msgOf ev = None) pre0 → Forall (λ ev, msgOf ev = None) post0 →
  ordered None (pre0 ++ chains uidMap log ++ post0).
Proof.
  intros Hpre Hpost. apply ordered_app; [now apply ordered_plain|].
  intros p. apply ordered_app; [apply ordered_chains|].
  now apply ordered_plain.
Qed.

Lemma framed_in pre0 mid post0 ev n :
  Forall (λ ev, msgOf ev = None) pre0 → Forall (λ ev, msgOf ev = None) post0 →
  msgOf ev = Some n → In ev (pre0 ++ mid ++ post0) → In ev mid.
Proof.
  intros Hpre Hpost Hev Hin.
  apply in_app_or in Hin as [Hin|Hin].
  - rewrite Forall_forall in Hpre. apply list_elem_of_In, Hpre in Hin. congruence.
  - apply in_app_or in Hin as [Hin|Hin]; [exact Hin|].
    rewrite Forall_forall in Hpost. apply list_elem_of_In, Hpost in Hin. congruence.
Qed.

Lemma tallies_Ret counters fates v :
  tallies counters fates = Ret v → ∀ st, ¬ In (PanickedAt st) fates.
Proof.
  revert counters. induction fates as [|fate fates IH]; intros counters Ht st; [intros []|].
  cbn in Ht. destruct fate; cbn in Ht; try discriminate;
    (intros [E|Hin]; [discriminate E | exact (IH _ Ht st Hin)]).
Qed.

Lemma events_visits n uid fate :
  fate ≠ FailedAt Checking → (∀ st, fate ≠ PanickedAt st) →
  ∃ b, In (EvIsFetched n uid b) (events n uid fate).
Proof.
  intros Hf Hp. destruct fate as [|[]| |st]; try congruence;
    try (exists true; cbn; tauto); try (exists false; cbn; tauto);
    try (now destruct (Hp st)).
Qed.

Lemma in_log_fst (log : list (Z * Fate)) n :
  In n log.*1 → ∃ fate, In (n, fate) log.
Proof.
  intros ([n' fate] & -> & Hin%list_elem_of_In)%list_elem_of_In%list_elem_of_fmap.
  now exists fate.
Qed.

(** The three properties of the order of calls, for a trace made of the
    chains of distinct messages between calls that belong to no message. *)
Lemma framed_order pre0 uidMap log post0 :
  Forall (λ ev, msgOf ev = None) pre0 → Forall (λ ev, msgOf ev = None) post0 →
  NoDup log.*1 →
  let new := pre0 ++ chains uidMap log ++ post0 in
  (∀ pre n uid ok post,
     new = pre ++ EvMarkFetched n uid ok :: post → ∃ pre', pre = pre' ++ [EvSend n true])
  ∧ (∀ pre n ok post,
       new = pre ++ EvDelete n ok :: post →
       ∃ pre' uid, pre = pre' ++ [EvMarkFetched n uid true])
  ∧ (∀ n, In (EvSend n false) new →
          ∀ uid ok, ¬ In (EvMarkFetched n uid ok) new ∧ ¬ In (EvDelete n ok) new).
Proof.
  intros Hpre Hpost Hnd new.
  pose proof (framed_ordered pre0 uidMap log post0 Hpre Hpost) as Ho.
  split_and!.
  - intros pre n uid ok post E. exact (ordered_mark _ _ _ _ _ _ Ho E).
  - intros pre n ok post E. exact (ordered_delete _ _ _ _ _ Ho E).
  - intros n Hs uid ok.
    apply (framed_in pre0 _ post0 (EvSend n false) n Hpre Hpost eq_refl) in Hs.
    destruct (chains_send_failed uidMap log n Hnd Hs uid ok) as [Hm Hd].
    split; intros Hin; [apply Hm | apply Hd].
    + exact (framed_in pre0 _ post0 (EvMarkFetched n uid ok) n Hpre Hpost eq_refl Hin).
    + exact (framed_in pre0 _ post0 (EvDelete n ok) n Hpre Hpost eq_refl Hin).
Qed.

(** C1.  In the calls of a mailbox run, every [MarkFetched] comes directly
    after the [Send] of the same message returned success, and every
    [Delete] directly after the [MarkFetched] of the same message returned
    success.  When [Send] fails for a message, neither [MarkFetched] nor
    [Delete] is called for it; the error counter returned is the number of
    calls that failed, each counted once, and when the run returns every
    message of the listing was visited, those after a failure included. *)
Theorem processMailbox_ordering s index yahoo w :
  let r := processMailbox s index yahoo w in
  ∃ new,
    trace r.2 = trace w ++ new
    ∧ (∀ pre n uid ok post,
         new = pre ++ EvMarkFetched n uid ok :: post →
         ∃ pre', pre = pre' ++ [EvSend n true])
    ∧ (∀ pre n ok post,
         new = pre ++ EvDelete n ok :: post →
         ∃ pre' uid, pre = pre' ++ [EvMarkFetched n uid true])
    ∧ (∀ n, In (EvSend n false) new →
            ∀ uid ok, ¬ In (EvMarkFetched n uid ok) new ∧ ¬ In (EvDelete n ok) new)
    ∧ (∀ fetched errors,
         r.1 = Ret (fetched, errors) →
         errors = Nat.iter (count isFailure new) incr 0
         ∧ fetched = Nat.iter (count isCompletion new) incr 0
         ∧ ∀ uidMap n uid,
             In (EvUIDList (Some uidMap)) new → uidMap !! n = Some uid →
             ∃ b, In (EvIsFetched n uid b) new).
Proof.
  intros r. subst r.
  destruct (processMailbox_shape s index yahoo w)
    as [(Htr & Hres & _) | (c & mid & Htr & _ & [Hmid | [Hmid | Hmid]])].
  - exists ([EvDial false] ++ chains ∅ [] ++ []). split; [exact Htr|].
    destruct (framed_order [EvDial false] ∅ [] []) as (Ha & Hb & Hc);
      [repeat constructor.. |].
    split_and!; [exact Ha | exact Hb | exact Hc |].
    intros fetched errors. rewrite Hres. intros [= <- <-].
    split_and!; [reflexivity | reflexivity |].
    intros uidMap n uid [E|[]]. discriminate E.
  - destruct Hmid as (-> & Hres & _).
    exists ([EvDial true; EvLogin false] ++ chains ∅ [] ++ [EvQuit]).
    split; [exact Htr|].
    destruct (framed_order [EvDial true; EvLogin false] ∅ [] [EvQuit]) as (Ha & Hb & Hc);
      [repeat constructor.. |].
    split_and!; [exact Ha | exact Hb | exact Hc |].
    intros fetched errors. rewrite Hres. intros [= <- <-].
    split_and!; [reflexivity | reflexivity |].
    intros uidMap n uid [E|[E|[E|[]]]]; discriminate E.
  - destruct Hmid as (-> & Hres & _).
    exists ([EvDial true; EvLogin true; EvUIDList None] ++ chains ∅ [] ++ [EvQuit]).
    split; [exact Htr|].
    destruct (framed_order [EvDial true; EvLogin true; EvUIDList None] ∅ [] [EvQuit])
      as (Ha & Hb & Hc); [repeat constructor.. |].
    split_and!; [exact Ha | exact Hb | exact Hc |].
    intros fetched errors. rewrite Hres. intros [= <- <-].
    split_and!; [reflexivity | reflexivity |].
    intros uidMap n uid [E|[E|[E|[E|[]]]]]; discriminate E.
  - destruct Hmid as (uidMap & log & -> & [Lres Lposs (rest & Lpre & Lall) _ _ _ _ _]).
    set (pre0 := [EvDial true; EvLogin true; EvUIDList (Some uidMap)]).
    assert (Forall (λ ev, msgOf ev = None) pre0) as Hpre0 by (repeat constructor).
    assert (Forall (λ ev, msgOf ev = None) [EvQuit]) as Hpost0 by (repeat constructor).
    exists (pre0 ++ chains uidMap log ++ [EvQuit]). split.
    { rewrite Htr. subst pre0. cbn. rewrite <- ?app_assoc. reflexivity. }
    assert (NoDup log.*1) as Hnd.
    { pose proof (sortedKeys_NoDup uidMap) as Hk. rewrite Lpre in Hk.
      now apply NoDup_app in Hk as [Hk _]. }
    destruct (framed_order pre0 uidMap log [EvQuit] Hpre0 Hpost0 Hnd) as (Ha & Hb & Hc).
    split_and!; [exact Ha | exact Hb | exact Hc |].
    intros fetched errors Hret. rewrite Hret in Lres. symmetry in Lres.
    destruct (tallies_count uidMap log Lposs _ _ _ Lres) as [He Hf].
    rewrite !count_app.
    change (count isFailure pre0) with 0%nat.
    change (count isFailure [EvQuit]) with 0%nat.
    change (count isCompletion pre0) with 0%nat.
    change (count isCompletion [EvQuit]) with 0%nat.
    rewrite !Nat.add_0_r. cbn [Nat.add].
    split_and!; [exact He | exact Hf |].
    intros uidMap' n uid Hl Hn.
    assert (uidMap' = uidMap) as ->.
    { apply in_app_or in Hl as [Hl|Hl].
      - subst pre0. destruct Hl as [E|[E|[E|[]]]]; try discriminate E.
        now injection E.
      - apply in_app_or in Hl as [Hl|[E|[]]]; [|discriminate E].
        apply in_chains in Hl as (n1 & f1 & _ & Hev).
        apply events_msgOf in Hev. discriminate Hev. }
    rewrite (Lall _ Hret), app_nil_r in Lpre.
    pose proof (sortedKeys_In uidMap n uid Hn) as Hin. rewrite Lpre in Hin.
    apply in_log_fst in Hin as [fate Hin].
    destruct (events_visits n uid fate) as [b Hb'].
    { rewrite Forall_forall in Lposs. apply (Lposs (n, fate)).
      now apply list_elem_of_In. }
    { intros st ->. apply (tallies_Ret _ _ _ Lres st).
      apply list_elem_of_In, list_elem_of_fmap. exists (n, PanickedAt st).
      split; [reflexivity | now apply list_elem_of_In]. }
    exists b. apply in_or_app. right. apply in_or_app. left.
    apply in_chains. exists n, fate. rewrite Hn. cbn. auto.
Qed.

(** *** How a mailbox run ends *)

(** C6, as the code has it.  [Quit] is deferred as soon as the dial has
    succeeded, so a mailbox aborted on a login or listing failure ends like
    one that completes: [Quit] is called once, as the last call, it writes
    [QUIT] when the transport still takes a write, and closes the transport;
    on such an abort no [Delete] was called before it and the run returns
    one error.  Only when the dial itself fails is no [Quit] called: the
    transport, if there was one, is closed directly. *)
Theorem processMailbox_quits s index yahoo w :
  let r := processMailbox s index yahoo w in
  (trace r.2 = trace w ++ [EvDial false]
   ∧ r.1 = Ret (0, 1)
   ∧ (sessions r.2 = sessions w
      ∨ ∃ c, sessions r.2 = sessions w ++ [(pop3.Close c).2]))
  ∨ ∃ c mid,
      trace r.2 = trace w ++ EvDial true :: mid ++ [EvQuit]
      ∧ ¬ In EvQuit mid
      ∧ sessions r.2 = sessions w ++ [(pop3.Quit c).2]
      ∧ pop3.closed (pop3.conn (pop3.Quit c).2) = true
      ∧ (match pop3.writes (pop3.conn c) with
         | [] | pop3.WriteOk :: _ => True
         | _ => False
         end →
         pop3.sent (pop3.conn (pop3.Quit c).2) = pop3.sent (pop3.conn c) ++ ["QUIT"])
      ∧ (In (EvLogin false) mid ∨ In (EvUIDList None) mid →
         r.1 = Ret (0, 1) ∧ ∀ n ok, ¬ In (EvDelete n ok) mid).
Proof.
  intros r. subst r.
  destruct (processMailbox_shape s index yahoo w)
    as [(Htr & Hres & _ & _ & Hs) | (c & mid & Htr & Hs & Hmid)]; [left; auto|].
  right. exists c, mid. destruct (Quit_closes c) as [Hcl Hsent].
  split_and!; auto.
  - destruct Hmid as [(-> & _) | [(-> & _) | (uidMap & log & -> & _)]].
    + intros [E|[]]. discriminate E.
    + intros [E|[E|[]]]; discriminate E.
    + intros [E|[E|Hin]]; try discriminate E.
      apply in_chains in Hin as (n & fate & _ & Hev).
      apply events_msgOf in Hev. discriminate Hev.
  - intros Habort.
    destruct Hmid as [(-> & Hres & _) | [(-> & Hres & _) | (uidMap & log & -> & _)]].
    + split; [exact Hres|]. intros n ok [E|[]]. discriminate E.
    + split; [exact Hres|]. intros n ok [E|[E|[]]]; discriminate E.
    + exfalso. destruct Habort as [[E|[E|Hin]]|[E|[E|Hin]]]; try discriminate E;
        apply in_chains in Hin as (n & fate & _ & Hev);
        apply events_msgOf in Hev; discriminate Hev.
Qed.

(** *** A second run over the same listing *)





(** *** The state file at the end of a run *)








End orchestrator.

Section orchestrator_examples.
#[local] Existing Instance demo.json.
#[local] Existing Instance demo.parser.
#[local] Existing Instance demo.range.
Import worker.

(** C6 as stated fails: on a refused password the run is aborted, and yet
    [Quit] is called and [QUIT] is written before the transport is closed. *)
Lemma abort_sends_quit_counterexample :
  let r := processMailbox demo.sender 0 demo.yahoo (demo.world [demo.refusing] []) in
  r.1 = Ret (0, 1)
  ∧ trace r.2 = [EvDial true; EvLogin false; EvQuit]
  ∧ demo.written r.2 = [(["USER user@yahoo.com"; "PASS secret"; "QUIT"], true)].
Proof. vm_compute. repeat split; reflexivity. Qed.


(** The two processes, observed: the message is forwarded once, by the
    first; the second loads the store from the state file and skips it. *)
Example second_run_forwards_nothing :
  let r1 := processMailbox (codec := demo.reading) demo.sender 0 demo.yahoo
              (demo.twoRuns []) in
  match boot (codec := demo.reading) demo.statePath r1.2 with
  | Ok w2 =>
      let r2 := processMailbox (codec := demo.reading) demo.sender 0 demo.yahoo w2 in
      r1.1 = Ret (1, 0) ∧ r2.1 = Ret (0, 0)
      ∧ tracker w2 = demo.markedTracker
      ∧ trace r2.2
        = [EvDial true; EvLogin true; EvUIDList (Some {[1 := "uid1"]});
           EvIsFetched 1 "uid1" false; EvRetrieve 1 true; EvSend 1 true;
           EvMarkFetched 1 "uid1" true; EvDelete 1 true; EvQuit;
           EvDial true; EvLogin true; EvUIDList (Some {[1 := "uid1"]});
           EvIsFetched 1 "uid1" true; EvQuit]
      ∧ length (outbox r2.2) = 1%nat
  | Err _ => False
  end.
Proof. vm_compute. repeat split; reflexivity. Qed.


(** A save that fails after the delivery: the first run forwards the
    message and reports the error, the state file is not written, and the
    second process, which loads an empty store, forwards the message
    again. *)
Example failed_save_forwards_twice :
  let w1 :=
    mkWorld demo.freshTracker ∅ None
      [demo.oneMessage ["+OK bye"]; demo.oneMessage ["+OK marked"; "+OK bye"]]
      [] [demo.renameFails] [] [] [] in
  let r1 := processMailbox (codec := demo.reading) demo.sender 0 demo.yahoo w1 in
  match boot (codec := demo.reading) demo.statePath r1.2 with
  | Ok w2 =>
      let r2 := processMailbox (codec := demo.reading) demo.sender 0 demo.yahoo w2 in
      r1.1 = Ret (0, 1)
      ∧ trace r1.2
        = [EvDial true; EvLogin true; EvUIDList (Some {[1 := "uid1"]});
           EvIsFetched 1 "uid1" false; EvRetrieve 1 true; EvSend 1 true;
           EvMarkFetched 1 "uid1" false; EvQuit]
      ∧ state.IsFetched (tracker r1.2) "user@yahoo.com" "uid1" = Ret true
      ∧ fs r1.2 !! demo.statePath = None
      ∧ tracker w2 = demo.freshTracker
      ∧ r2.1 = Ret (1, 0)
      ∧ length (outbox r1.2) = 1%nat ∧ length (outbox r2.2) = 2%nat
  | Err _ => False
  end.
Proof. vm_compute. repeat split; reflexivity. Qed.

(** The relay refuses the first of two messages: nothing more is called
    for it, the error is counted once, and the second message is forwarded,
    recorded and deleted. *)
Example failed_forward_is_isolated :
  let r := processMailbox demo.sender 0 demo.yahoo
             (demo.world [demo.twoMessages] [Some (errorString "relay down")]) in
  r.1 = Ret (1, 1)
  ∧ trace r.2
    = [EvDial true; EvLogin true; EvUIDList (Some {[1 := "abc"; 2 := "def"]});
       EvIsFetched 1 "abc" false; EvRetrieve 1 true; EvSend 1 false;
       EvIsFetched 2 "def" false; EvRetrieve 2 true; EvSend 2 true;
       EvMarkFetched 2 "def" true; EvDelete 2 true; EvQuit]
  ∧ demo.written r.2
    = [(["USER user@yahoo.com"; "PASS secret"; "UIDL"; "RETR 1"; "RETR 2";
         "DELE 2"; "QUIT"], true)]
  ∧ state.IsFetched (tracker r.2) "user@yahoo.com" "abc" = Ret false
  ∧ state.IsFetched (tracker r.2) "user@yahoo.com" "def" = Ret true.
Proof. vm_compute. repeat split; reflexivity. Qed.

End orchestrator_examples.

(** ** The tests of the repository, replayed on the model *)

Section repository_tests.
#[local] Existing Instance demo.json.

Example TestClientLogin :
  (pop3.Login (demo.session ["+OK"; "+OK logged in"]) "user@yahoo.com" "secret").1
  = None.
Proof. vm_compute. reflexivity. Qed.

Example TestClientLoginFail :
  (pop3.Login (demo.session ["+OK"; "-ERR authentication failed"])
              "user@yahoo.com" "wrong").1
  = Some (wrapError "pop3 PASS"
            (errorString "server error: -ERR authentication failed")).
Proof. vm_compute. reflexivity. Qed.

Example TestClientUIDList :
  (pop3.UIDList (demo.session ["+OK"; "1 abc123"; "2 def456"; "3 ghi789"; "."])).1
  = Ok {[1 := "abc123"; 2 := "def456"; 3 := "ghi789"]}.
Proof. vm_compute. reflexivity. Qed.

Example TestClientRetrieve :
  (pop3.Retrieve
     (demo.session ["+OK"; "From: sender@example.com"; "To: receiver@example.com";
                    "Subject: Test"; ""; "Hello World"; "."]) 1).1
  = Ok ("From: sender@example.com" +:+ CRLF +:+ "To: receiver@example.com" +:+ CRLF
        +:+ "Subject: Test" +:+ CRLF +:+ CRLF +:+ "Hello World" +:+ CRLF).
Proof. vm_compute. reflexivity. Qed.

(** A listing with noise: lines that are not a number and a token are
    skipped. *)
Example UIDList_skips_noise :
  (pop3.UIDList (demo.session ["+OK"; "hello"; "x y"; "+7 seven"; "8 a b"; "."])).1
  = Ok {[7 := "seven"; 8 := "a b"]}.
Proof. vm_compute. reflexivity. Qed.

(** A message cut off before its terminator line. *)
Example Retrieve_truncated :
  (pop3.Retrieve (demo.session ["+OK"; "Subject: Test"; ""; "Hello"]) 1).1
  = Err (wrapError "pop3 RETR 1 read" EOF).
Proof. vm_compute. reflexivity. Qed.

Example TestNewTrackerFresh :
  ∃ t, state.NewTracker ∅ demo.statePath = Ok t
       ∧ state.IsFetched t "user@yahoo.com" "uid1" = Ret false.
Proof. eexists. split; reflexivity. Qed.

Example TestMultipleMailboxes :
  match state.MarkFetched os.noFaults ∅ demo.freshTracker "a@yahoo.com" "uid1" with
  | Ret (None, t1, fs1) =>
      match state.MarkFetched os.noFaults fs1 t1 "b@yahoo.com" "uid1" with
      | Ret (None, t2, _) =>
          state.IsFetched t2 "a@yahoo.com" "uid1" = Ret true
          ∧ state.IsFetched t2 "b@yahoo.com" "uid1" = Ret true
          ∧ state.IsFetched t2 "a@yahoo.com" "uid2" = Ret false
          ∧ state.Stats t2 = Ret {[ "a@yahoo.com" := 1; "b@yahoo.com" := 1 ]}
      | _ => False
      end
  | _ => False
  end.
Proof. vm_compute. repeat split; reflexivity. Qed.

End repository_tests.

(** * Further properties of the code *)

(** ** The history store, beyond the claims *)

Section history_store_extras.
Context {codec : state.JSON}.

Lemma setAllFetched_marks uids0 uids :
  state.setAllFetched (Some (state.mkMailboxState (Some uids0))) uids
  = Ret (Some (state.mkMailboxState
                 (Some (foldl (λ acc u, <[u := true]> acc) uids0 uids)))).
Proof.
  revert uids0. induction uids as [|u uids IH]; intros uids0; [reflexivity|].
  cbn. apply IH.
Qed.

Lemma marked_lookup (uids0 : gmap string bool) (uids : list string) (u : string) :
  foldl (λ acc u, <[u := true]> acc) uids0 uids !! u
  = if decide (u ∈ uids) then Some true else uids0 !! u.
Proof.
  revert uids0. induction uids as [|v uids IH]; intros uids0.
  - cbn. rewrite decide_False; [reflexivity | apply not_elem_of_nil].
  - cbn. rewrite IH. destruct (decide (u ∈ uids)) as [Hin|Hin].
    + rewrite decide_True; [reflexivity | now apply list_elem_of_further].
    + destruct (decide (u = v)) as [->|Hne].
      * rewrite decide_True by apply list_elem_of_here. apply lookup_insert_eq.
      * rewrite decide_False by (intros [?|?]%elem_of_cons; done).
        now apply lookup_insert_ne.
Qed.

(** What [MarkBatchFetched] leaves in memory when it returns. *)
Lemma MarkBatchFetched_inv ft fs t mailbox uids err t' fs' :
  state.MarkBatchFetched ft fs t mailbox uids = Ret (err, t', fs') →
  ∃ mbs ms',
    state.Mailboxes (state.data t) = Some mbs
    ∧ t' = state.mkTracker (state.filePath t)
             (state.mkStateData (Some (<[mailbox := ms']> mbs)))
    ∧ (uids = [] ∧ mbs !! mailbox = Some ms'
       ∨ ∃ uids0,
           (mbs !! mailbox = None ∧ uids0 = ∅
            ∨ mbs !! mailbox = Some (Some (state.mkMailboxState (Some uids0))))
           ∧ ms' = Some (state.mkMailboxState
                           (Some (foldl (λ acc u, <[u := true]> acc) uids0 uids)))).
Proof.
  unfold state.MarkBatchFetched, state.mailboxEntry.
  destruct (state.Mailboxes (state.data t)) as [mbs|]; [|discriminate].
  destruct (mbs !! mailbox) as [[[[uids0|]]|]|] eqn:Em; cbn -[state.save].
  - rewrite setAllFetched_marks. destruct (state.save _ _ _).
    intros [= _ <- _]. exists mbs. eexists. split_and!; eauto.
  - destruct uids as [|u uids]; cbn -[state.save]; [|discriminate].
    destruct (state.save _ _ _). intros [= _ <- _].
    exists mbs. eexists. split_and!; eauto.
  - destruct uids as [|u uids]; cbn -[state.save]; [|discriminate].
    destruct (state.save _ _ _). intros [= _ <- _].
    exists mbs. eexists. split_and!; eauto.
  - rewrite setAllFetched_marks. destruct (state.save _ _ _).
    intros [= _ <- _]. exists mbs. eexists. rewrite insert_insert_eq.
    split_and!; [reflexivity..|]. right. exists ∅. auto.
Qed.

Lemma IsFetched_insert_same path mbs mailbox ms mailbox' uid' :
  mbs !! mailbox = Some ms →
  state.IsFetched (state.mkTracker path (state.mkStateData (Some (<[mailbox := ms]> mbs))))
                  mailbox' uid'
  = state.IsFetched (state.mkTracker path (state.mkStateData (Some mbs))) mailbox' uid'.
Proof. intros Hm. now rewrite (insert_id _ _ _ Hm). Qed.

(** X1.  When [MarkBatchFetched] returns, with or without an error, the
    store in memory holds every uid of the batch, and [IsFetched] answers as
    before for every uid outside the batch and every other mailbox. *)
Theorem MarkBatchFetched_marks_batch ft fs t mailbox uids err t' fs' :
  state.MarkBatchFetched ft fs t mailbox uids = Ret (err, t', fs') →
  (∀ uid, uid ∈ uids → state.IsFetched t' mailbox uid = Ret true)
  ∧ (∀ mailbox' uid', mailbox' ≠ mailbox ∨ uid' ∉ uids →
       state.IsFetched t' mailbox' uid' = state.IsFetched t mailbox' uid').
Proof.
  intros (mbs & ms' & Embs & -> & Hcase)%MarkBatchFetched_inv.
  assert (∀ m u, state.IsFetched t m u
                 = state.IsFetched (state.mkTracker (state.filePath t)
                                      (state.mkStateData (Some mbs))) m u) as Ht.
  { intros m u. unfold state.IsFetched. now rewrite Embs. }
  destruct Hcase as [[-> Hm] | (uids0 & Hm & ->)].
  - split; [intros uid []%not_elem_of_nil|].
    intros m u _. rewrite Ht. now apply IsFetched_insert_same.
  - split.
    + intros uid Hin. rewrite IsFetched_insert, decide_True by reflexivity.
      now rewrite marked_lookup, decide_True.
    + intros m u Hne. rewrite IsFetched_insert, Ht. unfold state.IsFetched. cbn.
      destruct (decide (m = mailbox)) as [->|Hm']; [|reflexivity].
      destruct Hne as [Hne|Hne]; [done|].
      rewrite marked_lookup, decide_False by done.
      destruct Hm as [[-> ->] | ->]; [now rewrite lookup_empty | reflexivity].
Qed.


Lemma MarkFetched_present ft fs path mbs mailbox uids0 uid :
  mbs !! mailbox = Some (Some (state.mkMailboxState (Some uids0))) →
  ∃ err fs',
    state.MarkFetched ft fs (state.mkTracker path (state.mkStateData (Some mbs))) mailbox uid
    = Ret (err,
           state.mkTracker path
             (state.mkStateData
                (Some (<[mailbox := Some (state.mkMailboxState
                                            (Some (<[uid := true]> uids0)))]> mbs))),
           fs').
Proof.
  intros Hm. unfold state.MarkFetched, state.mailboxEntry. cbn -[state.save].
  rewrite Hm. cbn -[state.save]. destruct (state.save _ _ _) as [e f]. eauto.
Qed.

Lemma MarkFetched_absent ft fs path mbs mailbox uid :
  mbs !! mailbox = None →
  ∃ err fs',
    state.MarkFetched ft fs (state.mkTracker path (state.mkStateData (Some mbs))) mailbox uid
    = Ret (err,
           state.mkTracker path
             (state.mkStateData
                (Some (<[mailbox := Some (state.mkMailboxState
                                            (Some (<[uid := true]> ∅)))]> mbs))),
           fs').
Proof.
  intros Hm. unfold state.MarkFetched, state.mailboxEntry. cbn -[state.save].
  rewrite Hm. cbn -[state.save]. rewrite insert_insert_eq.
  destruct (state.save _ _ _) as [e f]. eauto.
Qed.

Lemma markEach_present fts fs path mbs mailbox uids0 uids :
  mbs !! mailbox = Some (Some (state.mkMailboxState (Some uids0))) →
  ∃ fs',
    history.markEach fts fs (state.mkTracker path (state.mkStateData (Some mbs)))
      mailbox uids
    = Ret (state.mkTracker path
             (state.mkStateData
                (Some (<[mailbox := Some (state.mkMailboxState
                          (Some (foldl (λ acc u, <[u := true]> acc) uids0 uids)))]> mbs))),
           fs').
Proof.
  revert fts fs mbs uids0. induction uids as [|u uids IH]; intros fts fs mbs uids0 Hm.
  - exists fs. cbn. now rewrite (insert_id _ _ _ Hm).
  - destruct (MarkFetched_present (hd os.noFaults fts) fs path mbs mailbox uids0 u Hm)
      as (e & f & Hstep).
    cbn [history.markEach]. rewrite Hstep.
    edestruct (IH (tl fts) f) as (f' & ->); [apply lookup_insert_eq|].
    exists f'. cbn [foldl]. now rewrite insert_insert_eq.
Qed.

(** X2.  Marking a non-empty batch leaves in memory exactly the store that
    marking its uids one after the other leaves, whatever the outcome of the
    saves; and the batch panics exactly when the first single call does. *)
Theorem MarkBatchFetched_as_MarkFetched_each ft fts fs t mailbox uids :
  uids ≠ [] →
  match state.MarkBatchFetched ft fs t mailbox uids,
        history.markEach fts fs t mailbox uids with
  | Ret (_, tb, _), Ret (te, _) => tb = te
  | Panic, Panic => True
  | _, _ => False
  end.
Proof.
  destruct uids as [|u uids]; [done|]. intros _.
  destruct t as [path [[mbs|]]]; [|exact I].
  destruct (mbs !! mailbox) as [[[[uids0|]]|]|] eqn:Em.
  - destruct (markEach_present fts fs path mbs mailbox uids0 (u :: uids) Em) as (f & ->).
    unfold state.MarkBatchFetched, state.mailboxEntry. cbn -[state.save state.setAllFetched].
    rewrite Em, setAllFetched_marks. now destruct (state.save _ _ _).
  - cbn [history.markEach].
    unfold state.MarkBatchFetched, state.MarkFetched, state.mailboxEntry. cbn.
    rewrite !Em. cbn. exact I.
  - cbn [history.markEach].
    unfold state.MarkBatchFetched, state.MarkFetched, state.mailboxEntry. cbn.
    rewrite !Em. cbn. exact I.
  - destruct (MarkFetched_absent (hd os.noFaults fts) fs path mbs mailbox u Em)
      as (e & f & Hstep).
    cbn [history.markEach]. rewrite Hstep.
    edestruct (markEach_present (tl fts) f path) as (f' & ->); [apply lookup_insert_eq|].
    unfold state.MarkBatchFetched, state.mailboxEntry. cbn -[state.save state.setAllFetched].
    rewrite Em, setAllFetched_marks. destruct (state.save _ _ _).
    cbn [foldl]. now rewrite !insert_insert_eq.
Qed.

(** X3.  Marking a uid the store already holds changes nothing in memory,
    and cannot panic: the call only saves the same store again. *)
Theorem MarkFetched_known_uid ft fs t mailbox uid :
  state.IsFetched t mailbox uid = Ret true →
  ∃ err fs', state.MarkFetched ft fs t mailbox uid = Ret (err, t, fs').
Proof.
  destruct t as [path [[mbs|]]]; [|discriminate].
  unfold state.IsFetched. cbn.
  destruct (mbs !! mailbox) as [[[[uids0|]]|]|] eqn:Em; try discriminate.
  cbn. destruct (uids0 !! uid) as [b|] eqn:Eu; [|discriminate].
  cbn. intros [= ->].
  destruct (MarkFetched_present ft fs path mbs mailbox uids0 uid Em) as (e & f & ->).
  exists e, f. now rewrite (insert_id _ _ _ Eu), (insert_id _ _ _ Em).
Qed.

(** X4.  A mutation that reports no error can be read back: provided the
    codec reads what it wrote for this store, [NewTracker] on the file
    system the call leaves returns the store the call left in memory. *)
Theorem mutation_reloads op ft fs t t' fs' :
  history.perform op ft fs t = Ret (None, t', fs') →
  (∀ bytes, state.MarshalIndent (state.data t') = Ok bytes →
            state.Unmarshal bytes = Ok (state.data t')) →
  state.NewTracker fs' (state.filePath t) = Ok t'.
Proof.
  intros Hop Hround.
  assert (∃ mbs, state.Mailboxes (state.data t') = Some mbs) as [mbs Embs].
  { destruct op as [mailbox uid|mailbox uids]; cbn in Hop.
    - apply MarkFetched_inv in Hop as (? & ? & _ & _ & ->). eauto.
    - apply MarkBatchFetched_inv in Hop as (? & ? & _ & -> & _). eauto. }
  apply perform_inv in Hop as [Hpath Hsave].
  apply save_inv in Hsave as (bytes & Hm & Hfile & _).
  rewrite <- Hpath. unfold state.NewTracker, state.load, os.ReadFile. cbn.
  rewrite Hfile, (Hround _ Hm), Embs. now destruct t'.
Qed.

(** X5.  [NewTracker] fails in one case only: the state file exists and
    cannot be read.  The error wraps the one of the read. *)
Theorem NewTracker_error_iff fs path e :
  state.NewTracker fs path = Err e
  ↔ ∃ e0, fs !! path = Some (os.Unreadable e0)
          ∧ os.IsNotExist e0 = false
          ∧ e = wrapError ("loading state from " +:+ path) e0.
Proof.
  unfold state.NewTracker, state.load, os.ReadFile. cbn.
  destruct (fs !! path) as [[content|e0]|] eqn:Ef.
  - split; [|intros (? & [=] & _)].
    destruct (state.Unmarshal content) as [sd|]; [|discriminate].
    destruct (state.Mailboxes sd); discriminate.
  - destruct (os.IsNotExist e0) eqn:Ee; cbn.
    + split; [discriminate|]. intros (? & [= <-] & ? & _). congruence.
    + split; [intros [= <-]; eauto|]. now intros (? & [= <-] & _ & ->).
  - cbn. split; [discriminate | intros (? & [=] & _)].
Qed.

(** X6.  Whatever [NewTracker] returns has the path it was given and a
    mailbox map that is not nil, so the first mutation on it cannot panic on
    a write into a nil map. *)
Theorem NewTracker_map_not_nil fs path t :
  state.NewTracker fs path = Ok t →
  state.filePath t = path
  ∧ ∃ mbs, state.Mailboxes (state.data t) = Some mbs.
Proof.
  unfold state.NewTracker, state.load, os.ReadFile. cbn.
  destruct (fs !! path) as [[content|e0]|].
  - destruct (state.Unmarshal content) as [sd|]; [|intros [= <-]; cbn; eauto].
    destruct (state.Mailboxes sd) eqn:Esd; intros [= <-]; cbn; eauto.
  - destruct (os.IsNotExist e0); [|discriminate]. intros [= <-]. cbn. eauto.
  - cbn. intros [= <-]. cbn. eauto.
Qed.

Lemma clean_insert path (mbs : gmap string (option state.MailboxState)) mailbox
    (uids : gmap string bool) :
  (∀ m v, mbs !! m = Some v →
     ∃ us, v = Some (state.mkMailboxState (Some us))
           ∧ ∀ uid b, us !! uid = Some b → b = true) →
  (∀ uid b, uids !! uid = Some b → b = true) →
  history.clean
    (state.mkTracker path
       (state.mkStateData
          (Some (<[mailbox := Some (state.mkMailboxState (Some uids))]> mbs)))).
Proof.
  intros Hmbs Huids. eexists. split; [reflexivity|]. intros m v.
  destruct (decide (m = mailbox)) as [->|Hne].
  - rewrite lookup_insert_eq. intros [= <-]. eauto.
  - rewrite lookup_insert_ne by done. apply Hmbs.
Qed.

Lemma clean_Forall (mbs : gmap string (option state.MailboxState)) :
  (∀ m v, mbs !! m = Some v →
     ∃ us, v = Some (state.mkMailboxState (Some us))
           ∧ ∀ uid b, us !! uid = Some b → b = true) →
  map_Forall (λ _ v, is_Some v) mbs.
Proof. intros H m v Hm. destruct (H m v Hm) as (us & -> & _). eauto. Qed.

Lemma clean_IsFetched t mailbox uid :
  history.clean t → ∃ b, state.IsFetched t mailbox uid = Ret b.
Proof.
  destruct t as [path [mbs0]]. intros (mbs & Embs & Hmbs). cbn in Embs. subst mbs0.
  unfold state.IsFetched. cbn.
  destruct (mbs !! mailbox) as [v|] eqn:Em; [|eauto].
  destruct (Hmbs _ _ Em) as (us & -> & _). cbn. eauto.
Qed.

Lemma clean_Stats t : history.clean t → ∃ st, state.Stats t = Ret st.
Proof.
  destruct t as [path [mbs0]]. intros (mbs & Embs & Hmbs). cbn in Embs. subst mbs0.
  unfold state.Stats. cbn. rewrite decide_True by now apply clean_Forall. eauto.
Qed.

Lemma clean_perform op ft fs t :
  history.clean t →
  ∃ err t' fs', history.perform op ft fs t = Ret (err, t', fs') ∧ history.clean t'.
Proof.
  destruct t as [path [mbs0]]. intros (mbs & Embs & Hmbs). cbn in Embs. subst mbs0.
  destruct op as [mailbox uid|mailbox uids]; cbn.
  - destruct (mbs !! mailbox) as [v|] eqn:Em.
    + destruct (Hmbs _ _ Em) as (us & -> & Hus).
      destruct (MarkFetched_present ft fs path mbs mailbox us uid Em) as (e & f & ->).
      do 3 eexists. split; [reflexivity|]. apply clean_insert; [done|].
      intros u b. destruct (decide (u = uid)) as [->|Hne].
      * rewrite lookup_insert_eq. congruence.
      * rewrite lookup_insert_ne by done. apply Hus.
    + destruct (MarkFetched_absent ft fs path mbs mailbox uid Em) as (e & f & ->).
      do 3 eexists. split; [reflexivity|]. apply clean_insert; [done|].
      intros u b. destruct (decide (u = uid)) as [->|Hne].
      * rewrite lookup_insert_eq. congruence.
      * rewrite lookup_insert_ne, lookup_empty by done. discriminate.
  - unfold state.MarkBatchFetched, state.mailboxEntry.
    cbn -[state.save state.setAllFetched].
    destruct (mbs !! mailbox) as [v|] eqn:Em.
    + destruct (Hmbs _ _ Em) as (us & -> & Hus).
      rewrite setAllFetched_marks. destruct (state.save _ _ _) as [e f].
      do 3 eexists. split; [reflexivity|]. apply clean_insert; [done|].
      intros u b. rewrite marked_lookup. destruct (decide (u ∈ uids)); [congruence|].
      apply Hus.
    + rewrite setAllFetched_marks. destruct (state.save _ _ _) as [e f].
      do 3 eexists. split; [reflexivity|]. rewrite insert_insert_eq.
      apply clean_insert; [done|].
      intros u b. rewrite marked_lookup. destruct (decide (u ∈ uids)); [congruence|].
      rewrite lookup_empty. discriminate.
Qed.

(** X7.  The stores the code builds from an empty one are closed under the
    code: on a store with no nil pointer, no nil map and only [true]
    entries, no query and no mutation panics, and every mutation, failed
    save or not, leaves such a store again. *)
Theorem clean_preserved t :
  history.clean t →
  (∀ mailbox uid, ∃ b, state.IsFetched t mailbox uid = Ret b)
  ∧ (∃ st, state.Stats t = Ret st)
  ∧ ∀ op ft fs, ∃ err t' fs',
      history.perform op ft fs t = Ret (err, t', fs') ∧ history.clean t'.
Proof.
  intros Ht. split; [|split].
  - intros mailbox uid. now apply clean_IsFetched.
  - now apply clean_Stats.
  - intros op ft fs. now apply clean_perform.
Qed.

(** X8.  On such a store, marking a uid it does not hold raises the count
    [Stats] reports for that mailbox by one (from zero for a mailbox it did
    not know) and leaves the count of every other mailbox as it was. *)
Theorem Stats_counts_new_uid ft fs t mailbox uid err t' fs' :
  history.clean t →
  state.IsFetched t mailbox uid = Ret false →
  state.MarkFetched ft fs t mailbox uid = Ret (err, t', fs') →
  ∃ st, state.Stats t = Ret st
        ∧ state.Stats t' = Ret (<[mailbox := default 0 (st !! mailbox) + 1]> st).
Proof.
  destruct t as [path [mbs0]]. intros (mbs & Embs & Hmbs). cbn in Embs. subst mbs0.
  intros Hq Hmark. unfold state.IsFetched in Hq. cbn in Hq.
  pose proof (clean_Forall mbs Hmbs) as Hall.
  unfold state.Stats at 1. cbn. rewrite decide_True by done.
  eexists. split; [reflexivity|].
  destruct (mbs !! mailbox) as [v|] eqn:Em.
  - destruct (Hmbs _ _ Em) as (us & -> & Hus). cbn in Hq.
    assert (us !! uid = None) as Hnew.
    { destruct (us !! uid) as [b|] eqn:Eu; [|done].
      rewrite (Hus _ _ Eu) in Hq. discriminate. }
    destruct (MarkFetched_present ft fs path mbs mailbox us uid Em) as (e & f & Hstep).
    rewrite Hstep in Hmark. injection Hmark as _ <- _.
    unfold state.Stats. cbn. rewrite decide_True.
    2:{ apply map_Forall_insert_2; eauto. }
    f_equal. erewrite omap_insert_Some by reflexivity.
    rewrite lookup_omap, Em. cbn.
    rewrite map_size_insert_None by done. f_equal. lia.
  - destruct (MarkFetched_absent ft fs path mbs mailbox uid Em) as (e & f & Hstep).
    rewrite Hstep in Hmark. injection Hmark as _ <- _.
    unfold state.Stats. cbn. rewrite decide_True.
    2:{ apply map_Forall_insert_2; eauto. }
    f_equal. erewrite omap_insert_Some by reflexivity.
    rewrite lookup_omap, Em. cbn.
    now rewrite map_size_insert_None, map_size_empty by apply lookup_empty.
Qed.

End history_store_extras.

Section history_store_extras_examples.
#[local] Existing Instance demo.json.

Lemma MarkBatchFetched_marks_batch_witness :
  (∀ uid, uid ∈ ["uid1"; "uid2"] →
     state.IsFetched demo.batchTracker "user@yahoo.com" uid = Ret true)
  ∧ (∀ mailbox' uid', mailbox' ≠ "user@yahoo.com" ∨ uid' ∉ ["uid1"; "uid2"] →
       state.IsFetched demo.batchTracker mailbox' uid'
       = state.IsFetched demo.freshTracker mailbox' uid').
Proof.
  apply (MarkBatchFetched_marks_batch demo.renameFails ∅ demo.freshTracker
           "user@yahoo.com" ["uid1"; "uid2"]
           (Some (wrapError "renaming state file" (errorString "rename: permission denied")))
           demo.batchTracker {[ demo.statePath +:+ ".tmp" := os.File "{1}" ]}).
  vm_compute. reflexivity.
Defined.

Lemma MarkBatchFetched_as_MarkFetched_each_witness :
  match state.MarkBatchFetched os.noFaults ∅ demo.freshTracker "user@yahoo.com"
          ["uid1"; "uid2"],
        history.markEach [demo.renameFails] ∅ demo.freshTracker "user@yahoo.com"
          ["uid1"; "uid2"] with
  | Ret (_, tb, _), Ret (te, _) => tb = te
  | Panic, Panic => True
  | _, _ => False
  end.
Proof.
  apply (MarkBatchFetched_as_MarkFetched_each os.noFaults [demo.renameFails] ∅
           demo.freshTracker "user@yahoo.com" ["uid1"; "uid2"]).
  discriminate.
Defined.

Lemma MarkFetched_known_uid_witness :
  ∃ err fs',
    state.MarkFetched demo.renameFails ∅ demo.markedTracker "user@yahoo.com" "uid1"
    = Ret (err, demo.markedTracker, fs').
Proof.
  apply (MarkFetched_known_uid demo.renameFails ∅ demo.markedTracker
           "user@yahoo.com" "uid1").
  vm_compute. reflexivity.
Defined.

Lemma mutation_reloads_witness :
  state.NewTracker (codec := demo.reading)
    {[ demo.statePath := os.File "{1}" ]} demo.statePath
  = Ok demo.markedTracker.
Proof.
  apply (mutation_reloads (codec := demo.reading)
           (history.Add "user@yahoo.com" "uid1") os.noFaults ∅ demo.freshTracker
           demo.markedTracker {[ demo.statePath := os.File "{1}" ]}).
  - vm_compute. reflexivity.
  - intros bytes [= <-]. vm_compute. reflexivity.
Defined.

Lemma NewTracker_map_not_nil_witness :
  state.filePath demo.freshTracker = demo.statePath
  ∧ ∃ mbs, state.Mailboxes (state.data demo.freshTracker) = Some mbs.
Proof.
  apply (NewTracker_map_not_nil demo.corruptFS demo.statePath demo.freshTracker).
  vm_compute. reflexivity.
Defined.

Lemma freshTracker_clean : history.clean demo.freshTracker.
Proof.
  eexists. split; [reflexivity|]. intros m v Hm. now rewrite lookup_empty in Hm.
Qed.

Lemma markedTracker_clean : history.clean demo.markedTracker.
Proof.
  eexists. split; [reflexivity|]. intros m v [_ <-]%lookup_singleton_Some.
  eexists. split; [reflexivity|]. now intros u b [_ <-]%lookup_singleton_Some.
Qed.

Lemma clean_preserved_witness :
  (∀ mailbox uid, ∃ b, state.IsFetched demo.markedTracker mailbox uid = Ret b)
  ∧ (∃ st, state.Stats demo.markedTracker = Ret st)
  ∧ ∀ op ft fs, ∃ err t' fs',
      history.perform op ft fs demo.markedTracker = Ret (err, t', fs')
      ∧ history.clean t'.
Proof. apply (clean_preserved demo.markedTracker). exact markedTracker_clean. Defined.

Lemma Stats_counts_new_uid_witness :
  ∃ st, state.Stats demo.markedTracker = Ret st
        ∧ state.Stats demo.batchTracker
          = Ret (<[ "user@yahoo.com" := default 0 (st !! "user@yahoo.com") + 1 ]> st).
Proof.
  apply (Stats_counts_new_uid os.noFaults ∅ demo.markedTracker "user@yahoo.com" "uid2"
           None demo.batchTracker {[ demo.statePath := os.File "{1}" ]}).
  - exact markedTracker_clean.
  - vm_compute. reflexivity.
  - vm_compute. reflexivity.
Defined.

End history_store_extras_examples.

(** ** The POP3 client, beyond the claims *)

(** One turn of the reading loop of [Retrieve]. *)
Lemma retrLoop_step n r buf :
  pop3.retrLoop n r buf =
  match pop3.splitLine (pop3.pending r) LF with
  | None =>
      (Err (wrapError ("pop3 RETR " +:+ strconv.Itoa n +:+ " read") (pop3.failure r)),
       pop3.mkReader "" (pop3.failure r))
  | Some (line, rest) =>
      if String.eqb (strings.TrimRight line CRLF) "."
      then (Ok buf, pop3.mkReader rest (pop3.failure r))
      else pop3.retrLoop n (pop3.mkReader rest (pop3.failure r))
             (buf +:+ pop3.retrLine line)
  end.
Proof. exact (retrLoop_unfold n r buf). Qed.

Section session_extras.
Import pop3 wire.

Lemma uidlLoop_step r acc :
  uidlLoop r acc =
  match splitLine (pending r) LF with
  | None => (Err (wrapError "pop3 UIDL read" (failure r)), mkReader "" (failure r))
  | Some (line, rest) =>
      if String.eqb (strings.TrimRight line CRLF) "."
      then (Ok acc, mkReader rest (failure r))
      else uidlLoop (mkReader rest (failure r))
             (uidlEntry (strings.TrimRight line CRLF) acc)
  end.
Proof.
  rewrite uidlLoop_equation_1. unfold Logic.inspect.
  generalize (@eq_refl _ (splitLine (pending r) LF)).
  cut (∀ o (e : splitLine (pending r) LF = o),
         uidlLoop_unfold_clause_1 r (exist _ o e) acc
         = match o with
           | None => (Err (wrapError "pop3 UIDL read" (failure r)),
                      mkReader "" (failure r))
           | Some (line, rest) =>
               if String.eqb (strings.TrimRight line CRLF) "."
               then (Ok acc, mkReader rest (failure r))
               else uidlLoop (mkReader rest (failure r))
                      (uidlEntry (strings.TrimRight line CRLF) acc)
           end).
  - intros G e. apply G.
  - intros [[line rest]|] e; reflexivity.
Qed.

(** The loop folds the lines before the terminator into the map, one by
    one. *)
Lemma uidlLoop_lines ls :
  ∀ r acc rest,
    Forall bodyLine ls →
    pending r = sendLines ls +:+ rest →
    uidlLoop r acc
    = uidlLoop (mkReader rest (failure r))
        (foldl (λ acc l, uidlEntry (strings.TrimRight l CRLF) acc) acc ls).
Proof.
  induction ls as [|l ls IH]; intros r acc rest Hls Hr.
  - destruct r as [p f]. simpl in *. now subst p.
  - inversion_clear Hls as [|? ? [Hl Ht] Hls'].
    rewrite uidlLoop_step, Hr.
    change (sendLines (l :: ls)) with (l +:+ String LF (sendLines ls)).
    rewrite append_assoc, append_cons, (splitLine_line l _ Hl).
    rewrite TrimRight_LF. unfold isTerminator in Ht. rewrite Ht.
    now rewrite (IH (mkReader (sendLines ls +:+ rest) (failure r)) _ rest Hls' eq_refl).
Qed.

Lemma ContainsByte_cons d s c :
  strings.ContainsByte (String d s) c
  = if Ascii.eqb c d then true else strings.ContainsByte s c.
Proof. reflexivity. Qed.

Lemma SplitN2_cons c s :
  strings.SplitN2 (String c s)
  = if Ascii.eqb c " " then [""; s]
    else match strings.SplitN2 s with
         | p :: ps => String c p :: ps
         | [] => []
         end.
Proof. reflexivity. Qed.

Lemma SplitN2_no_space s :
  strings.ContainsByte s " " = false → strings.SplitN2 s = [s].
Proof.
  induction s as [|c s IH]; [reflexivity|]. intros H.
  rewrite ContainsByte_cons, Ascii.eqb_sym in H. rewrite SplitN2_cons.
  destruct (Ascii.eqb c " "); [discriminate|]. now rewrite (IH H).
Qed.

Lemma SplitN2_first_space p q :
  strings.ContainsByte p " " = false →
  strings.SplitN2 (p +:+ String " " q) = [p; q].
Proof.
  induction p as [|c p IH]; [reflexivity|]. rewrite append_cons.
  intros H. rewrite ContainsByte_cons, Ascii.eqb_sym in H. rewrite SplitN2_cons.
  destruct (Ascii.eqb c " "); [discriminate|]. now rewrite (IH H).
Qed.

(** X9.  After the reply to [UIDL], [UIDList] reads lines up to the first
    line that is a lone dot and returns the map built from the lines before
    it, in their order: a line [num uid] binds [num] to everything after the
    first space (a later line for the same number replaces the earlier one),
    a line without a space or whose first word is not a number is passed
    over.  When the stream ends before the terminator the listing read so
    far is dropped and [UIDList] returns the read error. *)
Theorem UIDList_reads_to_terminator c resp c1 ls :
  command c "UIDL" = (Ok resp, c1) →
  Forall bodyLine ls →
  (∀ term rest,
     terminatorLine term →
     pending (reader c1) = sendLines ls +:+ term +:+ String LF rest →
     UIDList c
     = (Ok (foldl (λ acc l, uidlEntry (strings.TrimRight l CRLF) acc) ∅ ls),
        mkClient (conn c1) (mkReader rest (failure (reader c1)))))
  ∧ (∀ tail,
       noLF tail = true →
       pending (reader c1) = sendLines ls +:+ tail →
       UIDList c
       = (Err (wrapError "pop3 UIDL read" (failure (reader c1))),
          mkClient (conn c1) (mkReader "" (failure (reader c1)))))
  ∧ (∀ num uid acc,
       strings.ContainsByte num " " = false →
       uidlEntry (num +:+ String " " uid) acc
       = match strconv.Atoi num with
         | Some n => <[n := uid]> acc
         | None => acc
         end)
  ∧ (∀ line acc,
       strings.ContainsByte line " " = false → uidlEntry line acc = acc).
Proof.
  intros Hcmd Hls. unfold UIDList. rewrite Hcmd. split_and!.
  - intros term rest [Hn Ht] Hp.
    rewrite (uidlLoop_lines ls _ ∅ _ Hls Hp), uidlLoop_step. simpl pending.
    rewrite (splitLine_line term rest Hn), TrimRight_LF.
    unfold isTerminator in Ht. rewrite Ht. reflexivity.
  - intros tail Hn Hp.
    rewrite (uidlLoop_lines ls _ ∅ _ Hls Hp), uidlLoop_step. simpl pending.
    rewrite (splitLine_noLF tail Hn). reflexivity.
  - intros num uid acc Hnum. unfold uidlEntry.
    now rewrite (SplitN2_first_space num uid Hnum).
  - intros line acc Hline. unfold uidlEntry.
    now rewrite (SplitN2_no_space line Hline).
Qed.

Lemma readResponse_conn c : conn (readResponse c).2 = conn c.
Proof.
  unfold readResponse. destruct (ReadString (reader c) LF) as [[line|e] r]; cbn.
  - repeat match goal with
           | |- context [if ?b then _ else _] => destruct b; cbn
           end; reflexivity.
  - reflexivity.
Qed.

(** What [command] leaves on the transport: the command is written at most
    once, and it was written whenever a reply was read. *)
Lemma command_sent c cmd :
  closed (conn (command c cmd).2) = closed (conn c)
  ∧ (sent (conn (command c cmd).2) = sent (conn c)
     ∧ (∃ e, (command c cmd).1 = Err e)
     ∧ reader (command c cmd).2 = reader c
     ∨ sent (conn (command c cmd).2) = sent (conn c) ++ [cmd]).
Proof.
  unfold command. destruct c as [[ws ce snt cl] rd]. cbn.
  destruct ws as [|[|e|e] ws]; cbn; rewrite ?readResponse_conn; cbn; eauto 6.
Qed.

(** X10.  The commands [Login] writes are a prefix of [USER], [PASS]: both
    when it succeeds, and never the password once the [USER] exchange has
    failed.  It never closes the transport. *)
Theorem Login_writes c user pass :
  ∃ cmds,
    sent (conn (Login c user pass).2) = sent (conn c) ++ cmds
    ∧ closed (conn (Login c user pass).2) = closed (conn c)
    ∧ (cmds = [] ∨ cmds = ["USER " +:+ user]
       ∨ cmds = ["USER " +:+ user; "PASS " +:+ pass])
    ∧ ((Login c user pass).1 = None
       → cmds = ["USER " +:+ user; "PASS " +:+ pass])
    ∧ (∀ e, (command c ("USER " +:+ user)).1 = Err e →
            cmds = [] ∨ cmds = ["USER " +:+ user]).
Proof.
  unfold Login.
  destruct (command_sent c ("USER " +:+ user)) as [Hcl1 Hs1].
  destruct (command c ("USER " +:+ user)) as [[r1|e1] c1] eqn:E1; cbn in *.
  - destruct Hs1 as [(_ & [e He] & _) | Hs1]; [discriminate He|].
    destruct (command_sent c1 ("PASS " +:+ pass)) as [Hcl2 Hs2].
    destruct (command c1 ("PASS " +:+ pass)) as [[r2|e2] c2] eqn:E2; cbn in *.
    + destruct Hs2 as [(_ & [e He] & _) | Hs2]; [discriminate He|].
      exists ["USER " +:+ user; "PASS " +:+ pass].
      rewrite Hs2, Hs1, <- app_assoc.
      split_and!; auto; try congruence; try discriminate.
    + destruct Hs2 as [(Hs2 & _) | Hs2].
      * exists ["USER " +:+ user]. rewrite Hs2, Hs1.
        split_and!; auto; try congruence; try discriminate.
      * exists ["USER " +:+ user; "PASS " +:+ pass].
        rewrite Hs2, Hs1, <- app_assoc.
        split_and!; auto; try congruence; try discriminate.
  - destruct Hs1 as [(Hs1 & _) | Hs1].
    + exists []. rewrite Hs1, app_nil_r.
      split_and!; auto; try congruence; try discriminate.
    + exists ["USER " +:+ user]. rewrite Hs1.
      split_and!; auto; try congruence; try discriminate.
Qed.

Lemma HasPrefix_OK_not_ERR line :
  strings.HasPrefix line "+OK" = true → strings.HasPrefix line "-ERR" = false.
Proof.
  unfold strings.HasPrefix. destruct line as [|c line]; [discriminate|].
  rewrite !prefix_cons.
  destruct (ascii_dec "+" c) as [<-|]; [|discriminate].
  now destruct (ascii_dec "-" "+").
Qed.

(** X11.  [readResponse] takes exactly one line off the stream and judges
    it after dropping the trailing line ending: a line that begins with
    [-ERR] is the only one it reports as an error, and any other line, also
    one that does not begin with [+OK], is returned as the reply. *)
Theorem readResponse_one_line c l rest :
  noLF l = true →
  pending (reader c) = l +:+ String LF rest →
  readResponse c
  = (if strings.HasPrefix (strings.TrimRight l CRLF) "-ERR"
     then Err (errorString ("server error: " +:+ strings.TrimRight l CRLF))
     else Ok (strings.TrimRight l CRLF),
     mkClient (conn c) (mkReader rest (failure (reader c)))).
Proof.
  intros Hl Hp. unfold readResponse, ReadString.
  rewrite Hp, (splitLine_line l rest Hl). cbn -[strings.TrimRight strings.HasPrefix].
  rewrite TrimRight_LF.
  destruct (strings.HasPrefix (strings.TrimRight l CRLF) "+OK") eqn:Eok.
  - now rewrite (HasPrefix_OK_not_ERR _ Eok).
  - now destruct (strings.HasPrefix (strings.TrimRight l CRLF) "-ERR").
Qed.

(** X12.  A dial that fails leaves no open transport behind: either TLS
    never gave one, or the transport whose greeting was bad is handed back
    closed; nothing was written on it.  A dial that succeeds has written
    nothing either and leaves the transport open as it was. *)
Theorem Dial_failure_closes addr tls :
  match Dial addr tls with
  | (Err _, None) => ∃ e, tls = Err e
  | (Err _, Some c') =>
      ∃ c, tls = Ok c ∧ closed (conn c') = true ∧ sent (conn c') = sent (conn c)
  | (Ok c', dropped) =>
      ∃ c, tls = Ok c ∧ dropped = None ∧ conn c' = conn c
  end.
Proof.
  unfold Dial. destruct tls as [c|e]; [|eauto].
  pose proof (readResponse_conn c) as Hc.
  destruct (readResponse c) as [[greeting|e] c1]; cbn in *.
  - eauto.
  - exists c. rewrite Hc. auto.
Qed.

Lemma stuff_bodyLine l : noLF l = true → bodyLine (stuff l).
Proof.
  intros Hl. unfold bodyLine, isTerminator. destruct l as [|c l]; [now split|].
  unfold stuff. destruct (Ascii.eqb c ".") eqn:Ec.
  - apply Ascii.eqb_eq in Ec as ->. split; [exact Hl|].
    change (strings.TrimRight (String "." (String "." l)) CRLF)
      with (match strings.TrimRight (String "." l) CRLF with
            | "" => "."
            | String a u => String "." (String a u)
            end).
    now destruct (TrimRight_dot l) as [t ->].
  - split; [exact Hl|].
    destruct (TrimRight_head c l) as [-> | [t ->]]; [reflexivity|].
    cbn. now rewrite Ec.
Qed.

Lemma unstuff_stuff l : unstuff (stuff l) = l.
Proof.
  destruct l as [|c l]; [reflexivity|]. unfold stuff.
  destruct (Ascii.eqb c ".") eqn:Ec.
  - apply Ascii.eqb_eq in Ec as ->. reflexivity.
  - rewrite unstuff_prefix, prefix_cons.
    destruct (ascii_dec "." c) as [<-|]; [discriminate Ec | reflexivity].
Qed.

(** X13.  The reading loop of [Retrieve] undoes the byte-stuffing of the
    sending side: when the server sends the lines of a message stuffed and
    closes them with a line that is a lone dot, [Retrieve] returns the lines
    of the message byte for byte, whatever they are, and leaves what
    follows the terminator on the stream. *)
Theorem Retrieve_undoes_stuffing c n resp c1 ls rest :
  command c ("RETR " +:+ strconv.Itoa n) = (Ok resp, c1) →
  Forall (λ l, noLF l = true) ls →
  pending (reader c1)
  = sendLines (map stuff ls) +:+ String "." (String CR (String LF rest)) →
  Retrieve c n
  = (Ok (sendLines ls), mkClient (conn c1) (mkReader rest (failure (reader c1)))).
Proof.
  intros Hcmd Hls Hp. unfold Retrieve. rewrite Hcmd.
  assert (Forall bodyLine (map stuff ls)) as Hbody.
  { apply Forall_map. eapply Forall_impl; [exact Hls|]. apply stuff_bodyLine. }
  rewrite (retrLoop_lines n _ _ "" _ Hbody Hp), retrLoop_step. cbn.
  unfold unstuffed. rewrite map_map.
  rewrite (map_ext _ id unstuff_stuff), map_id. reflexivity.
Qed.

End session_extras.

Section session_extras_examples.
Import pop3 wire.

Lemma UIDList_reads_to_terminator_witness :
  (∀ term rest,
     terminatorLine term →
     pending (reader (command (demo.session ["+OK"; "1 abc"; "junk"; "2 def"; "."]) "UIDL").2)
     = sendLines ["1 abc" +:+ String CR ""; "junk" +:+ String CR ""; "2 def" +:+ String CR ""]
       +:+ term +:+ String LF rest →
     UIDList (demo.session ["+OK"; "1 abc"; "junk"; "2 def"; "."])
     = (Ok (foldl (λ acc l, uidlEntry (strings.TrimRight l CRLF) acc) ∅
              ["1 abc" +:+ String CR ""; "junk" +:+ String CR ""; "2 def" +:+ String CR ""]),
        mkClient (conn (command (demo.session ["+OK"; "1 abc"; "junk"; "2 def"; "."]) "UIDL").2)
          (mkReader rest EOF)))
  ∧ UIDList (demo.session ["+OK"; "1 abc"; "junk"; "2 def"; "."])
    = (Ok {[ 1 := "abc"; 2 := "def" ]},
       mkClient (mkConn [] None ["UIDL"] false) (mkReader "" EOF)).
Proof.
  split.
  - apply (UIDList_reads_to_terminator
             (demo.session ["+OK"; "1 abc"; "junk"; "2 def"; "."]) "+OK"
             (command (demo.session ["+OK"; "1 abc"; "junk"; "2 def"; "."]) "UIDL").2
             ["1 abc" +:+ String CR ""; "junk" +:+ String CR ""; "2 def" +:+ String CR ""]).
    + vm_compute. reflexivity.
    + repeat constructor.
  - vm_compute. reflexivity.
Defined.

Lemma readResponse_one_line_witness :
  readResponse (demo.session ["280 unexpected"; "+OK"])
  = (Ok "280 unexpected",
     mkClient (mkConn [] None [] false) (mkReader ("+OK" +:+ CRLF) EOF)).
Proof.
  apply (readResponse_one_line (demo.session ["280 unexpected"; "+OK"])
           ("280 unexpected" +:+ String CR "") ("+OK" +:+ CRLF));
    vm_compute; reflexivity.
Defined.

Lemma Retrieve_undoes_stuffing_witness :
  Retrieve (demo.session ["+OK"; "..leading dot"; ".."; "body"; "."]) 1
  = (Ok (sendLines [".leading dot" +:+ String CR ""; "." +:+ String CR "";
                    "body" +:+ String CR ""]),
     mkClient (mkConn [] None ["RETR 1"] false) (mkReader "" EOF)).
Proof.
  apply (Retrieve_undoes_stuffing
           (demo.session ["+OK"; "..leading dot"; ".."; "body"; "."]) 1 "+OK"
           (command (demo.session ["+OK"; "..leading dot"; ".."; "body"; "."]) "RETR 1").2
           [".leading dot" +:+ String CR ""; "." +:+ String CR ""; "body" +:+ String CR ""]
           "").
  - vm_compute. reflexivity.
  - repeat constructor.
  - vm_compute. reflexivity.
Defined.

End session_extras_examples.

(** ** The envelope transform, beyond the claims *)

Section envelope_extras.
Import envelope.
Context {parser : mail.Parser} {range : mail.MapRange}.

Lemma named_ifSet_same name v :
  named name (smtp.ifSet name v) = smtp.ifSet name v.
Proof.
  unfold smtp.ifSet. destruct (smtp.nonEmpty v); [|reflexivity].
  simpl. now rewrite String.eqb_refl.
Qed.

(** X14.  Under each name the transform handles itself the output carries a
    fixed line or none, whatever the message holds under it and however
    often: [From] and [To] carry the destination address only, [Subject],
    [Date], [Content-Type] and [Content-Transfer-Encoding] carry the first
    original value when it is not empty, and no line is written under [Cc],
    [Message-Id] or the canonical key [Mime-Version]. *)
Theorem forwardHeaders_handled_names s originalFrom h keys :
  let lines := smtp.forwardHeaders s originalFrom h keys in
  named "From" lines = [("From", smtp.to s)]
  ∧ named "To" lines = [("To", smtp.to s)]
  ∧ named "Subject" lines = smtp.ifSet "Subject" (mail.Get h "Subject")
  ∧ named "Date" lines = smtp.ifSet "Date" (mail.Get h "Date")
  ∧ named "Content-Type" lines = smtp.ifSet "Content-Type" (mail.Get h "Content-Type")
  ∧ named "Content-Transfer-Encoding" lines
    = smtp.ifSet "Content-Transfer-Encoding" (mail.Get h "Content-Transfer-Encoding")
  ∧ named "Cc" lines = []
  ∧ named "Message-Id" lines = []
  ∧ named "Mime-Version" lines = [].
Proof.
  intros lines. subst lines. unfold smtp.forwardHeaders.
  split_and!; rewrite !named_app;
    rewrite (named_copyRemaining_handled _ h keys) by reflexivity;
    repeat match goal with
           | |- context [named ?n (smtp.ifSet ?n ?v)] => rewrite (named_ifSet_same n v)
           end;
    rewrite !named_ifSet by discriminate;
    destruct (smtp.nonEmpty (mail.Get h "From"));
    destruct (smtp.nonEmpty (mail.Get h "Reply-To"));
    cbn; rewrite ?app_nil_r; reflexivity.
Qed.

(** X15.  [Send] fails only when the relay refuses the message: a message
    that cannot be parsed is not an error, it is submitted as it came behind
    two marker lines.  Every call submits something to the relay. *)
Theorem Send_fails_only_on_relay s relay rawEmail originalFrom :
  (smtp.Send s relay rawEmail originalFrom).1
  = match relay with
    | Some err => Some (wrapError "smtp send" err)
    | None => None
    end
  ∧ (∃ data, (smtp.Send s relay rawEmail originalFrom).2 = Some data)
  ∧ (∀ e, mail.ReadMessage rawEmail = Err e →
       (smtp.Send s relay rawEmail originalFrom).2
       = Some ("X-YaToGm-Source: " +:+ originalFrom +:+ CRLF
               +:+ "X-YaToGm-Note: original message could not be parsed" +:+ CRLF
               +:+ rawEmail)).
Proof.
  unfold smtp.Send, smtp.sendRaw, smtp.forwardBytes, smtp.readBody, smtp.sendBytes.
  destruct (mail.ReadMessage rawEmail) as [msg|e0]; cbn.
  - split_and!; [reflexivity | eauto | discriminate].
  - split_and!; [reflexivity | eauto |]. intros e _. f_equal.
    unfold smtp.rawBytes, smtp.headerLine. cbn [fst snd].
    now rewrite !append_assoc.
Qed.

End envelope_extras.

(** ** Package config *)

Section configuration.
Import config.

Lemma concat_imap_nil {A B} (f : nat → A → list B) (l : list A) :
  concat (imap f l) = [] ↔ ∀ i y, l !! i = Some y → f i y = [].
Proof.
  revert f. induction l as [|x l IH]; intros f.
  - split; [intros _ i y; rewrite lookup_nil; discriminate | reflexivity].
  - rewrite imap_cons. cbn [concat]. split.
    + intros [H0 Hl]%app_eq_nil i y. destruct i as [|i]; cbn.
      * now intros [= <-].
      * apply (proj1 (IH (f ∘ S)) Hl i y).
    + intros H. rewrite (H 0%nat x eq_refl). cbn.
      apply IH. intros i y Hi. apply (H (S i) y Hi).
Qed.

Lemma eqb_empty_nil {B} (v : string) (x : B) :
  (if String.eqb v "" then [x] else []) = [] ↔ v ≠ "".
Proof.
  destruct (String.eqb_spec v ""); split; intros; try done.
Qed.

(** The slice of messages is empty exactly for a complete configuration. *)
Lemma errs_nil cfg :
  errs cfg = [] ↔
    GmailEmail (Gmail cfg) ≠ "" ∧ GmailAppPassword (Gmail cfg) ≠ ""
    ∧ Yahoo cfg ≠ []
    ∧ Forall (λ y, Email y ≠ "" ∧ AppPassword y ≠ "") (Yahoo cfg).
Proof.
  unfold errs. rewrite !app_nil, !eqb_empty_nil, concat_imap_nil, Forall_lookup.
  assert ((if (length (Yahoo cfg) =? 0)%nat
           then ["at least one yahoo mailbox must be configured"] else []) = []
          ↔ Yahoo cfg ≠ []) as ->.
  { destruct (Yahoo cfg); cbn; split; intros; done. }
  split.
  - intros (Ha & Hb & Hc & H). split_and!; auto.
    intros i y Hi. specialize (H i y Hi). apply app_nil in H as [Hy1 Hy2].
    now rewrite !eqb_empty_nil in Hy1, Hy2.
  - intros (Ha & Hb & Hc & H). split_and!; auto.
    intros i y Hi. destruct (H i y Hi) as [Hy1 Hy2]. apply app_nil.
    now rewrite !eqb_empty_nil.
Qed.

Lemma validate_errs cfg : validate cfg = None ↔ errs cfg = [].
Proof.
  unfold validate. destruct (errs cfg); cbn; split; intros; done.
Qed.

Lemma errs_applyDefaults cfg : errs (applyDefaults cfg) = errs cfg.
Proof.
  unfold errs, applyDefaults. cbn. rewrite length_map.
  do 3 f_equal. change (map ?g ?l) with (g <$> l). now rewrite imap_fmap.
Qed.

Lemma applyDefaults_set cfg :
  SMTPHost (Gmail (applyDefaults cfg)) ≠ ""
  ∧ SMTPPort (Gmail (applyDefaults cfg)) ≠ 0
  ∧ Forall (λ y, POP3Host y ≠ "" ∧ POP3Port y ≠ 0) (Yahoo (applyDefaults cfg)).
Proof.
  unfold applyDefaults. cbn. split_and!.
  - destruct (String.eqb_spec (SMTPHost (Gmail cfg)) ""); done.
  - destruct (Z.eqb_spec (SMTPPort (Gmail cfg)) 0); done.
  - apply Forall_map, Forall_forall. intros y _. cbn. split.
    + destruct (String.eqb_spec (POP3Host y) ""); done.
    + destruct (Z.eqb_spec (POP3Port y) 0); done.
Qed.

(** X16.  [validate] accepts exactly the configurations that name the Gmail
    address and password and at least one Yahoo mailbox, each with its
    address and password; hosts, ports, state path and log level play no
    part. *)
Theorem validate_accepts_iff cfg :
  validate cfg = None ↔
    GmailEmail (Gmail cfg) ≠ "" ∧ GmailAppPassword (Gmail cfg) ≠ ""
    ∧ Yahoo cfg ≠ []
    ∧ Forall (λ y, Email y ≠ "" ∧ AppPassword y ≠ "") (Yahoo cfg).
Proof. rewrite validate_errs. apply errs_nil. Qed.

(** X17.  [applyDefaults] leaves every host and port set, changes nothing
    in a configuration where they all are (so applying it twice is applying
    it once), and has no effect on what [validate] reports. *)
Theorem applyDefaults_fills_unset cfg :
  (SMTPHost (Gmail (applyDefaults cfg)) ≠ ""
   ∧ SMTPPort (Gmail (applyDefaults cfg)) ≠ 0
   ∧ Forall (λ y, POP3Host y ≠ "" ∧ POP3Port y ≠ 0) (Yahoo (applyDefaults cfg)))
  ∧ (applyDefaults cfg = cfg ↔
       SMTPHost (Gmail cfg) ≠ "" ∧ SMTPPort (Gmail cfg) ≠ 0
       ∧ Forall (λ y, POP3Host y ≠ "" ∧ POP3Port y ≠ 0) (Yahoo cfg))
  ∧ applyDefaults (applyDefaults cfg) = applyDefaults cfg
  ∧ validate (applyDefaults cfg) = validate cfg.
Proof.
  assert (∀ cfg, SMTPHost (Gmail cfg) ≠ "" ∧ SMTPPort (Gmail cfg) ≠ 0
                 ∧ Forall (λ y, POP3Host y ≠ "" ∧ POP3Port y ≠ 0) (Yahoo cfg)
                 → applyDefaults cfg = cfg) as Hfix.
  { intros [[ge gp gh gn] ys sp ll]. cbn. intros (Hh & Hn & Hys).
    unfold applyDefaults. cbn.
    apply String.eqb_neq in Hh. apply Z.eqb_neq in Hn. rewrite Hh, Hn.
    f_equal. induction Hys as [|[e p ho po] ys' [Hho Hpo] _ IH]; [reflexivity|].
    cbn in *. apply String.eqb_neq in Hho. apply Z.eqb_neq in Hpo.
    now rewrite Hho, Hpo, IH. }
  split; [|split; [|split]].
  - apply applyDefaults_set.
  - split; [|apply Hfix]. intros <-. apply applyDefaults_set.
  - apply Hfix, applyDefaults_set.
  - unfold validate. now rewrite errs_applyDefaults.
Qed.

Lemma override_set env key field v :
  env !! key = Some v → v ≠ "" → override env key field = v.
Proof.
  intros Hk Hv. unfold override, os.Getenv. rewrite Hk. cbn.
  apply String.eqb_neq in Hv. now rewrite Hv.
Qed.

Section loading.
Context {yaml : YAML}.

Lemma Load_inv fs env path cfg :
  Load fs env path = Ok cfg →
  ∃ data cfg0,
    os.ReadFile fs path = Ok data
    ∧ Unmarshal data (mkConfig (mkGmailConfig "" "" "" 0) [] "/data/state.json" "info")
      = Ok cfg0
    ∧ cfg = applyDefaults (applyEnvOverrides env cfg0)
    ∧ validate cfg = None.
Proof.
  unfold Load. destruct (os.ReadFile fs path) as [data|]; [|discriminate].
  destruct (Unmarshal data _) as [cfg0|] eqn:Ey; [|discriminate].
  destruct (validate _) eqn:Ev; [discriminate|]. intros [= <-].
  exists data, cfg0. split_and!; auto.
Qed.

(** X18.  A configuration that [Load] returns is complete: the Gmail
    address and password are set, there is at least one Yahoo mailbox, every
    mailbox has its address and password, and every host and port is set.  [Load]
    never hands out a configuration that [validate] would refuse or that
    [applyDefaults] would still change. *)
Theorem Load_returns_complete fs env path cfg :
  Load fs env path = Ok cfg →
  GmailEmail (Gmail cfg) ≠ "" ∧ GmailAppPassword (Gmail cfg) ≠ ""
  ∧ SMTPHost (Gmail cfg) ≠ "" ∧ SMTPPort (Gmail cfg) ≠ 0
  ∧ Yahoo cfg ≠ []
  ∧ Forall (λ y, Email y ≠ "" ∧ AppPassword y ≠ ""
                 ∧ POP3Host y ≠ "" ∧ POP3Port y ≠ 0) (Yahoo cfg).
Proof.
  intros (data & cfg0 & _ & _ & -> & Hv)%Load_inv.
  apply validate_errs, errs_nil in Hv as (He & Hp & Hy & Hys).
  destruct (applyDefaults_set (applyEnvOverrides env cfg0)) as (Hh & Hn & Hds).
  split_and!; auto.
  rewrite Forall_forall in Hys, Hds. apply Forall_forall. intros y Hin.
  destruct (Hys y Hin), (Hds y Hin). auto.
Qed.

(** X19.  A variable of the environment that is set and not empty wins over
    the file: in the configuration [Load] returns the Gmail address and
    password, the state path and the log level are those of their
    variables, and the mailbox at index [i] has the address and password of
    its two variables.  The environment adds and removes no mailbox. *)
Theorem Load_env_wins fs env path cfg :
  Load fs env path = Ok cfg →
  (∀ v, env !! "YATOGM_GMAIL_EMAIL" = Some v → v ≠ "" → GmailEmail (Gmail cfg) = v)
  ∧ (∀ v, env !! "YATOGM_GMAIL_APP_PASSWORD" = Some v → v ≠ "" →
          GmailAppPassword (Gmail cfg) = v)
  ∧ (∀ v, env !! "YATOGM_STATE_PATH" = Some v → v ≠ "" → StatePath cfg = v)
  ∧ (∀ v, env !! "YATOGM_LOG_LEVEL" = Some v → v ≠ "" → LogLevel cfg = v)
  ∧ (∀ i y v, Yahoo cfg !! i = Some y →
              env !! passwordKey i = Some v → v ≠ "" → AppPassword y = v)
  ∧ (∀ i y v, Yahoo cfg !! i = Some y →
              env !! emailKey i = Some v → v ≠ "" → Email y = v)
  ∧ ∃ data cfg0,
      os.ReadFile fs path = Ok data
      ∧ Unmarshal data (mkConfig (mkGmailConfig "" "" "" 0) [] "/data/state.json" "info")
        = Ok cfg0
      ∧ length (Yahoo cfg) = length (Yahoo cfg0).
Proof.
  intros (data & cfg0 & Hread & Hy & -> & _)%Load_inv.
  unfold applyDefaults, applyEnvOverrides. cbn.
  split_and!; try (intros v Hk Hv; now apply override_set).
  - intros i y v Hi Hk Hv.
    change (map ?g ?l) with (g <$> l) in Hi.
    rewrite list_lookup_fmap, list_lookup_imap in Hi.
    destruct (Yahoo cfg0 !! i) as [y0|]; [|discriminate]. cbn in Hi.
    injection Hi as <-. cbn. now apply override_set.
  - intros i y v Hi Hk Hv.
    change (map ?g ?l) with (g <$> l) in Hi.
    rewrite list_lookup_fmap, list_lookup_imap in Hi.
    destruct (Yahoo cfg0 !! i) as [y0|]; [|discriminate]. cbn in Hi.
    injection Hi as <-. cbn. now apply override_set.
  - exists data, cfg0. split_and!; auto. now rewrite length_map, length_imap.
Qed.

End loading.
End configuration.

Section configuration_examples.
#[local] Existing Instance demo.yaml.

Lemma Load_returns_complete_witness :
  config.GmailEmail (config.Gmail demo.loaded) ≠ ""
  ∧ config.GmailAppPassword (config.Gmail demo.loaded) ≠ ""
  ∧ config.SMTPHost (config.Gmail demo.loaded) ≠ ""
  ∧ config.SMTPPort (config.Gmail demo.loaded) ≠ 0
  ∧ config.Yahoo demo.loaded ≠ []
  ∧ Forall (λ y, config.Email y ≠ "" ∧ config.AppPassword y ≠ ""
                 ∧ config.POP3Host y ≠ "" ∧ config.POP3Port y ≠ 0)
      (config.Yahoo demo.loaded).
Proof.
  apply (Load_returns_complete demo.configFS demo.secrets demo.configPath demo.loaded).
  vm_compute. reflexivity.
Defined.

Lemma Load_env_wins_witness :
  config.GmailAppPassword (config.Gmail demo.loaded) = "gmail-secret"
  ∧ ∀ y, config.Yahoo demo.loaded !! 0%nat = Some y →
         config.AppPassword y = "yahoo-secret".
Proof.
  destruct (Load_env_wins demo.configFS demo.secrets demo.configPath demo.loaded)
    as (_ & Hg & _ & _ & Hy & _); [vm_compute; reflexivity|].
  split.
  - apply Hg; [vm_compute; reflexivity | discriminate].
  - intros y Hi. apply (Hy 0%nat y); [exact Hi | vm_compute; reflexivity | discriminate].
Defined.

End configuration_examples.

(** ** The whole run, beyond the claims *)

Section whole_run.
Context {codec : state.JSON} {parser : mail.Parser} {range : mail.MapRange}.
Import worker pipeline.

(** *** The counters as 64-bit integers *)

Lemma addInt_range a b : minInt ≤ addInt a b ≤ maxInt.
Proof.
  unfold addInt, minInt, maxInt.
  pose proof (Z.mod_pos_bound (a + b - - 2 ^ 63) (2 ^ 64) ltac:(lia)). lia.
Qed.

Lemma addInt_small z : minInt ≤ z ≤ maxInt → addInt z 0 = z.
Proof.
  unfold addInt, minInt, maxInt. intros Hz. rewrite Z.mod_small by lia. lia.
Qed.

Lemma incr_addInt x : minInt ≤ x ≤ maxInt → incr x = addInt x 1.
Proof.
  unfold incr, addInt, minInt, maxInt. intros Hx.
  destruct (Z.gtb_spec (x + 1) (2 ^ 63 - 1)).
  - assert (x = 2 ^ 63 - 1) as -> by lia. reflexivity.
  - rewrite Z.mod_small by lia. lia.
Qed.

(** Adding wrapped sums is adding, then wrapping once. *)
Lemma addInt_addInt a b c : addInt (addInt a b) c = addInt (a + b + c) 0.
Proof.
  unfold addInt.
  replace ((a + b - minInt) `mod` 2 ^ 64 + minInt + c - minInt)
    with ((a + b - minInt) `mod` 2 ^ 64 + c) by lia.
  rewrite Zplus_mod_idemp_l. do 2 f_equal. lia.
Qed.

Lemma addInt_0 a b : addInt (a + b) 0 = addInt a b.
Proof. unfold addInt. now rewrite Z.add_0_r. Qed.

Lemma addInt_step t k1 k2 :
  addInt (addInt t (addInt k1 0) + k2) 0 = addInt (t + (k1 + k2)) 0.
Proof.
  rewrite addInt_0, addInt_addInt.
  replace (t + addInt k1 0 + k2) with (addInt k1 0 + (t + k2)) by lia.
  rewrite addInt_0, addInt_addInt. f_equal. lia.
Qed.

(** Counting up from zero is counting modulo 2^64. *)
Lemma iter_incr k : Nat.iter k incr 0 = addInt (Z.of_nat k) 0.
Proof.
  induction k as [|k IH]; [reflexivity|].
  rewrite Nat.iter_succ, IH, incr_addInt by apply addInt_range.
  rewrite addInt_addInt. f_equal. lia.
Qed.

(** *** One mailbox *)

Lemma count_none p l : (∀ ev, In ev l → p ev = false) → count p l = 0%nat.
Proof.
  intros H. unfold count. induction l as [|ev l IH]; [reflexivity|].
  cbn. rewrite (H ev) by now left. apply IH. intros ev' Hin. apply H. now right.
Qed.

Lemma count_chains p uidMap log :
  (∀ ev, p ev = true → msgOf ev = None) → count p (chains uidMap log) = 0%nat.
Proof.
  intros Hp. apply count_none. intros ev (n & fate & _ & Hev)%in_chains.
  apply events_msgOf in Hev. destruct (p ev) eqn:E; [|reflexivity].
  rewrite (Hp ev E) in Hev. discriminate.
Qed.

Lemma isOpening_msgOf ev : isOpening ev = true → msgOf ev = None.
Proof. now destruct ev. Qed.

Lemma isQuit_msgOf ev : isQuit ev = true → msgOf ev = None.
Proof. now destruct ev. Qed.

Lemma isDial_msgOf ev : isDial ev = true → msgOf ev = None.
Proof. now destruct ev. Qed.

(** The deferred [Quit] leaves no client behind, whatever the body did. *)
Lemma processMailbox_client s index yahoo w :
  client (processMailbox s index yahoo w).2 = None.
Proof.
  unfold processMailbox. unfold mbind at 1. unfold M_bind at 1.
  destruct (Dial (config.POP3Host yahoo) (config.POP3Port yahoo) w)
    as [[[e|]|] w1] eqn:Ed.
  - unfold Dial in Ed.
    destruct (match dials w with
              | d :: ds => (d, ds)
              | [] => (Err (errorString "dial tcp: connection refused"), [])
              end) as [tls rest].
    destruct (pop3.Dial _ tls) as [[c|e'] dropped]; [discriminate Ed|].
    injection Ed as _ <-. reflexivity.
  - unfold defer.
    match goal with
    | |- context [let '(_, _) := ?body w1 in _] => destruct (body w1) as [r w2]
    end.
    unfold mbind, M_bind, Quit. destruct (client w2) as [c|] eqn:Ec.
    + now destruct (pop3.Quit c).
    + exact Ec.
  - unfold Dial in Ed.
    destruct (match dials w with
              | d :: ds => (d, ds)
              | [] => (Err (errorString "dial tcp: connection refused"), [])
              end) as [tls rest].
    destruct (pop3.Dial _ tls) as [[c|e'] dropped]; discriminate Ed.
Qed.

(** What one mailbox adds to the run: its calls, the counters it returns
    as counts of those calls, and the transports it closed. *)
Lemma processMailbox_summary s index yahoo w :
  let r := processMailbox s index yahoo w in
  ∃ new gone,
    trace r.2 = trace w ++ new
    ∧ (∀ f e, r.1 = Ret (f, e) →
         e = Nat.iter (count isFailure new) incr 0
         ∧ f = Nat.iter (count isCompletion new) incr 0)
    ∧ sessions r.2 = sessions w ++ gone
    ∧ Forall (λ c, pop3.closed (pop3.conn c) = true) gone
    ∧ count isOpening new = count isQuit new
    ∧ count isDial new = 1%nat.
Proof.
  intros r. subst r.
  destruct (processMailbox_shape s index yahoo w)
    as [(Htr & Hres & _ & _ & Hs) | (c & mid & Htr & Hs & Hmid)].
  - exists [EvDial false].
    destruct Hs as [Hs | [c Hs]];
      [exists []; rewrite app_nil_r | exists [(pop3.Close c).2]];
      split_and!; auto;
      try (intros f e; rewrite Hres; now intros [= <- <-]);
      now repeat constructor.
  - exists (EvDial true :: mid ++ [EvQuit]), [(pop3.Quit c).2].
    destruct (Quit_closes c) as [Hcl _].
    split_and!; auto.
    + intros f e Hr.
      destruct Hmid as [(-> & Hres & _) | [(-> & Hres & _) | (uidMap & log & -> & Hloop)]].
      * rewrite Hres in Hr. now injection Hr as <- <-.
      * rewrite Hres in Hr. now injection Hr as <- <-.
      * destruct Hloop as [Lres Lposs _ _ _ _ _ _]. rewrite Lres in Hr.
        destruct (tallies_count uidMap log Lposs _ _ _ Hr) as [-> ->].
        change (EvDial true :: ([EvLogin true; EvUIDList (Some uidMap)]
                                ++ chains uidMap log) ++ [EvQuit])
          with ([EvDial true; EvLogin true; EvUIDList (Some uidMap)]
                ++ chains uidMap log ++ [EvQuit]).
        rewrite !count_app. cbn. now rewrite !Nat.add_0_r.
    + change (EvDial true :: mid ++ [EvQuit]) with ([EvDial true] ++ mid ++ [EvQuit]).
      rewrite !count_app.
      assert (count isOpening mid = 0%nat ∧ count isQuit mid = 0%nat) as [-> ->].
      { destruct Hmid as [(-> & _) | [(-> & _) | (uidMap & log & -> & _)]];
          [split; reflexivity.. |].
        rewrite !count_app, !count_chains
          by (apply isOpening_msgOf || apply isQuit_msgOf).
        split; reflexivity. }
      reflexivity.
    + change (EvDial true :: mid ++ [EvQuit]) with ([EvDial true] ++ mid ++ [EvQuit]).
      rewrite !count_app.
      assert (count isDial mid = 0%nat) as ->; [|reflexivity].
      destruct Hmid as [(-> & _) | [(-> & _) | (uidMap & log & -> & _)]];
        [reflexivity.. |].
      rewrite !count_app, !count_chains by apply isDial_msgOf. reflexivity.
Qed.

(** *** All mailboxes *)

Lemma processAll_cons s index totals yahoo rest w :
  processAll s index totals (yahoo :: rest) w
  = match processMailbox s index yahoo w with
    | (Ret r, w1) =>
        processAll s (index + 1) (addInt totals.1 r.1, addInt totals.2 r.2) rest w1
    | (Panic, w1) => (Panic, w1)
    end.
Proof. reflexivity. Qed.

Lemma processAll_summary s mailboxes :
  ∀ index totals w,
    minInt ≤ totals.1 ≤ maxInt → minInt ≤ totals.2 ≤ maxInt →
    let r := processAll s index totals mailboxes w in
    ∃ new gone,
      trace r.2 = trace w ++ new
      ∧ (∀ f e, r.1 = Ret (f, e) →
           e = addInt (totals.2 + Z.of_nat (count isFailure new)) 0
           ∧ f = addInt (totals.1 + Z.of_nat (count isCompletion new)) 0)
      ∧ sessions r.2 = sessions w ++ gone
      ∧ Forall (λ c, pop3.closed (pop3.conn c) = true) gone
      ∧ count isOpening new = count isQuit new
      ∧ (client w = None → client r.2 = None)
      ∧ (∀ v, r.1 = Ret v → count isDial new = length mailboxes).
Proof.
  induction mailboxes as [|yahoo rest IH]; intros index totals w Hf He r; subst r.
  - destruct totals as [t1 t2]. exists [], []. cbn in *.
    rewrite !app_nil_r, !Z.add_0_r. split_and!; auto.
    intros f e [= <- <-]. now rewrite !addInt_small.
  - rewrite processAll_cons.
    destruct (processMailbox_summary s index yahoo w)
      as (new1 & gone1 & Htr1 & Hres1 & Hs1 & Hcl1 & Hbal1 & Hdial1).
    pose proof (processMailbox_client s index yahoo w) as Hc1.
    destruct (processMailbox s index yahoo w) as [[[f1 e1]|] w1]; cbn [fst snd] in *.
    + destruct (Hres1 f1 e1 eq_refl) as [-> ->].
      specialize (IH (index + 1)
                     (addInt totals.1 (Nat.iter (count isCompletion new1) incr 0),
                      addInt totals.2 (Nat.iter (count isFailure new1) incr 0)) w1
                     (addInt_range _ _) (addInt_range _ _)).
      destruct IH as (new2 & gone2 & Htr2 & Hres2 & Hs2 & Hcl2 & Hbal2 & Hc2 & Hdial2).
      exists (new1 ++ new2), (gone1 ++ gone2). split_and!.
      * now rewrite Htr2, Htr1, app_assoc.
      * intros f e Hr. rewrite !count_app, !Nat2Z.inj_add.
        destruct (Hres2 f e Hr) as [-> ->]. cbn [fst snd].
        rewrite !iter_incr, !addInt_step. split; reflexivity.
      * now rewrite Hs2, Hs1, app_assoc.
      * now apply Forall_app.
      * rewrite !count_app. lia.
      * intros _. now apply Hc2.
      * intros v Hv. rewrite count_app, Hdial1, (Hdial2 v Hv). reflexivity.
    + exists new1, gone1. split_and!; auto; discriminate.
Qed.

(** X20.  [Run] returns an error exactly when a call of the run has failed:
    the number in the error is the number of failed dials, logins,
    listings, retrievals, deliveries, recordings and deletions of all
    mailboxes together (as long as that number fits the counter), and with
    no failed call [Run] returns nil. *)
Theorem Run_reports_failures cfg w err w' :
  Run cfg w = (Ret err, w') →
  ∃ new,
    trace w' = trace w ++ new
    ∧ (Z.of_nat (count isFailure new) ≤ maxInt →
       err = match count isFailure new with
             | O => None
             | S _ =>
                 Some (errorString
                         ("completed with "
                          +:+ strconv.Itoa (Z.of_nat (count isFailure new))
                          +:+ " errors"))
             end).
Proof.
  unfold Run. unfold mbind at 1. unfold M_bind at 1.
  destruct (processAll_summary (newSender cfg) (config.Yahoo cfg) 0 (0, 0) w)
    as (new & gone & Htr & Hres & _); [done..|].
  destruct (processAll (newSender cfg) 0 (0, 0) (config.Yahoo cfg) w)
    as [[[f e]|] w1]; [|discriminate]. cbn [fst snd] in *.
  unfold mbind, M_bind, Stats, mret, M_ret.
  destruct (state.Stats (tracker w1)); [|discriminate].
  intros Hrun. exists new.
  assert (w' = w1) as -> by (destruct (e >? 0); now injection Hrun).
  split; [exact Htr|]. intros Hfit.
  assert (e = Z.of_nat (count isFailure new)) as ->.
  { destruct (Hres f e eq_refl) as [-> _].
    rewrite Z.add_0_l. apply addInt_small. unfold minInt. lia. }
  destruct (count isFailure new) as [|k]; [now injection Hrun|].
  rewrite (proj2 (Z.gtb_lt _ _)) in Hrun by lia. now injection Hrun.
Qed.

(** [Run] changes the world only through the mailboxes it processes. *)
Lemma Run_world cfg w :
  (Run cfg w).2 = (processAll (newSender cfg) 0 (0, 0) (config.Yahoo cfg) w).2.
Proof.
  unfold Run, mbind, M_bind, Stats, mret, M_ret.
  destruct (processAll (newSender cfg) 0 (0, 0) (config.Yahoo cfg) w)
    as [[[f e]|] w1]; [|reflexivity]. cbn.
  destruct (state.Stats (tracker w1)); [destruct (e >? 0)|]; reflexivity.
Qed.

(** X21.  [Run] leaves no session behind: when it ends, by returning or by
    a panic, the worker holds no client, every transport the run has set
    aside is closed, and the trace has one [Quit] for each dial that gave a
    session. *)
Theorem Run_leaves_no_session cfg w :
  client w = None →
  let r := Run cfg w in
  client r.2 = None
  ∧ ∃ new gone,
      trace r.2 = trace w ++ new
      ∧ sessions r.2 = sessions w ++ gone
      ∧ Forall (λ c, pop3.closed (pop3.conn c) = true) gone
      ∧ count isOpening new = count isQuit new.
Proof.
  intros Hw r. subst r. rewrite Run_world.
  destruct (processAll_summary (newSender cfg) (config.Yahoo cfg) 0 (0, 0) w)
    as (new & gone & Htr & _ & Hs & Hcl & Hbal & Hc & _); [done..|].
  split; [exact (Hc Hw) | exists new, gone; auto].
Qed.

(** X22.  A mailbox that fails does not stop the run: when [Run] returns,
    with an error or without, it has dialled once for every mailbox of the
    configuration. *)
Theorem Run_dials_every_mailbox cfg w err w' :
  Run cfg w = (Ret err, w') →
  ∃ new,
    trace w' = trace w ++ new
    ∧ count isDial new = length (config.Yahoo cfg).
Proof.
  intros Hrun. pose proof (Run_world cfg w) as Hw. rewrite Hrun in Hw.
  cbn in Hw. subst w'.
  destruct (processAll_summary (newSender cfg) (config.Yahoo cfg) 0 (0, 0) w)
    as (new & gone & Htr & _ & _ & _ & _ & _ & Hdial); [done..|].
  exists new. split; [exact Htr|].
  unfold Run, mbind, M_bind in Hrun.
  destruct (processAll (newSender cfg) 0 (0, 0) (config.Yahoo cfg) w)
    as [[v|] w1]; [|discriminate].
  now apply (Hdial v).
Qed.

(** *** The order of the visits *)

Lemma omap_visited_events n uid fate :
  fate ≠ FailedAt Checking →
  omap visited (events n uid fate)
  = match fate with PanickedAt Checking => [] | _ => [n] end.
Proof. destruct fate as [|[]| |[]]; try reflexivity. congruence. Qed.

Lemma events_no_listing n uid fate :
  Forall (λ ev, ∀ listing, ev ≠ EvUIDList listing) (events n uid fate).
Proof.
  apply Forall_forall. intros ev Hin%list_elem_of_In%events_msgOf listing ->.
  discriminate Hin.
Qed.

(** The loop opens its passes in the order of [msgNums]; only a panic
    keeps it from opening one for each. *)
Lemma processMessages_visits s mailbox uidMap msgNums :
  ∀ counters w,
    let r := processMessages s mailbox uidMap counters msgNums w in
    ∃ tr,
      trace r.2 = trace w ++ tr
      ∧ (∃ k, msgNums = omap visited tr ++ k)
      ∧ (∀ v, r.1 = Ret v → omap visited tr = msgNums)
      ∧ Forall (λ ev, ∀ listing, ev ≠ EvUIDList listing) tr.
Proof.
  induction msgNums as [|n rest IH]; intros counters w r; subst r.
  - exists []. cbn. rewrite app_nil_r. split_and!; auto. now exists [].
  - rewrite processMessages_cons.
    destruct (processMessage_fate s mailbox uidMap counters n w)
      as (fate & Hposs & Hres & Htr & _).
    pose proof (omap_visited_events n (default "" (uidMap !! n)) fate Hposs) as Hv.
    pose proof (events_no_listing n (default "" (uidMap !! n)) fate) as Hl.
    destruct (processMessage s mailbox uidMap counters n w) as [[counters'|] w1];
      cbn [fst snd] in *.
    + assert (omap visited (events n (default "" (uidMap !! n)) fate) = [n]) as Hn.
      { rewrite Hv. destruct fate as [|[]| |[]]; try reflexivity; discriminate Hres. }
      destruct (IH counters' w1) as (tr & Htr' & [k Hk] & Hall & Hl').
      exists (events n (default "" (uidMap !! n)) fate ++ tr). split_and!.
      * now rewrite Htr', Htr, app_assoc.
      * exists k. rewrite omap_app, Hn. cbn. now rewrite <- Hk.
      * intros v Hr. rewrite omap_app, Hn, (Hall v Hr). reflexivity.
      * now apply Forall_app.
    + eexists. split_and!; [exact Htr | | discriminate | exact Hl].
      rewrite Hv. destruct fate as [|[]| |[]]; eauto.
Qed.

(** X23.  The messages of a listing are taken in ascending order of their
    message numbers, each once: the [IsFetched] calls of a session, in the
    order they were made, are made for the message numbers of the listing
    sorted ascending, all of them when the session returns and a first part
    of them when it panics. *)
Theorem processMailbox_ascending s index yahoo w :
  let r := processMailbox s index yahoo w in
  ∃ new,
    trace r.2 = trace w ++ new
    ∧ ∀ uidMap,
        In (EvUIDList (Some uidMap)) new →
        (∃ k, sortedKeys uidMap = omap visited new ++ k)
        ∧ (∀ v, r.1 = Ret v → omap visited new = sortedKeys uidMap)
        ∧ Sorted Z.le (sortedKeys uidMap)
        ∧ NoDup (sortedKeys uidMap)
        ∧ (∀ n, In n (sortedKeys uidMap) ↔ is_Some (uidMap !! n)).
Proof.
  intros r. subst r.
  assert (∀ uidMap : gmap Z string,
            Sorted Z.le (sortedKeys uidMap) ∧ NoDup (sortedKeys uidMap)
            ∧ (∀ n, In n (sortedKeys uidMap) ↔ is_Some (uidMap !! n))) as Hkeys.
  { intros uidMap. split_and!.
    - apply Sorted_merge_sort. apply _.
    - apply sortedKeys_NoDup.
    - intros n. split.
      + intros Hin%list_elem_of_In. unfold sortedKeys in Hin.
        rewrite merge_sort_Permutation in Hin.
        apply list_elem_of_fmap in Hin as ([n' u] & -> & Hin).
        apply elem_of_map_to_list in Hin. eauto.
      + intros [u Hu]. exact (sortedKeys_In uidMap n u Hu). }
  unfold processMailbox, Dial, defer, Quit, onClient, emit.
  unfold mbind, M_bind, mret, M_ret.
  destruct (match dials w with
            | d :: ds => (d, ds)
            | [] => (Err (errorString "dial tcp: connection refused"), [])
            end) as [tls ds].
  destruct (pop3.Dial _ tls) as [[c1|e] dropped]; cbn.
  2:{ exists [EvDial false]. split; [reflexivity|].
      intros uidMap [E|[]]. discriminate E. }
  destruct (pop3.Login c1 _ _) as [[e|] c2]; cbn.
  { destruct (pop3.Quit c2). cbn. exists [EvDial true; EvLogin false; EvQuit].
    split; [now rewrite <- !app_assoc|].
    intros uidMap [E|[E|[E|[]]]]; discriminate E. }
  destruct (pop3.UIDList c2) as [[uidMap|e] c3]; cbn.
  2:{ destruct (pop3.Quit c3). cbn.
      exists [EvDial true; EvLogin true; EvUIDList None; EvQuit].
      split; [now rewrite <- !app_assoc|].
      intros uidMap [E|[E|[E|[E|[]]]]]; discriminate E. }
  match goal with
  | |- context [processMessages s ?m uidMap (0, 0) ?ks ?w3] =>
      destruct (processMessages_visits s m uidMap ks (0, 0) w3)
        as (tr & Htr & Hpre & Hall & Hl);
      destruct (processMessages_log s m uidMap ks (0, 0) w3)
        as (log & _ & _ & _ & _ & Hcl);
      destruct (processMessages s m uidMap (0, 0) ks w3) as [res w4]
  end.
  cbn [fst snd trace client] in *.
  destruct Hcl as [c4 Hc4]; [eauto|]. rewrite Hc4.
  destruct (pop3.Quit c4) as [qe c5]. cbn.
  exists ([EvDial true; EvLogin true; EvUIDList (Some uidMap)] ++ tr ++ [EvQuit]).
  assert (omap visited ([EvDial true; EvLogin true; EvUIDList (Some uidMap)]
                        ++ tr ++ [EvQuit]) = omap visited tr) as Hv.
  { rewrite !omap_app. cbn. now rewrite app_nil_r. }
  split; [rewrite Htr, <- !app_assoc; reflexivity|].
  intros uidMap' Hin.
  assert (uidMap' = uidMap) as ->.
  { destruct Hin as [E|[E|[E|Hin]]]; try discriminate E; [now injection E|].
    change ([] ++ tr ++ [EvQuit]) with (tr ++ [EvQuit]) in Hin.
    apply in_app_or in Hin as [Hin|[E|[]]]; [|discriminate E].
    rewrite Forall_forall in Hl. apply list_elem_of_In in Hin.
    now destruct (Hl _ Hin (Some uidMap')). }
  rewrite Hv. destruct (Hkeys uidMap) as (Hsorted & Hnd & Hin'). split_and!; auto.
Qed.

(** *** No panic on a store the code built *)

Lemma processMessage_clean s mailbox uidMap counters n w :
  history.clean (tracker w) → is_Some (client w) →
  let r := processMessage s mailbox uidMap counters n w in
  (∃ v, r.1 = Ret v) ∧ history.clean (tracker r.2) ∧ is_Some (client r.2).
Proof.
  intros Hclean [c Hc] r. subst r.
  destruct counters as [fetched errors].
  unfold processMessage, IsFetched, Send, MarkFetched, onClient, emit.
  unfold mbind, M_bind, mret, M_ret.
  destruct (clean_IsFetched (tracker w) mailbox (default "" (uidMap !! n)) Hclean)
    as [b ->].
  destruct b; cbn; [rewrite Hc; eauto|].
  rewrite Hc. cbn.
  destruct (pop3.Retrieve c n) as [[rawMsg|e] c1]; cbn; [|eauto].
  destruct (match relay w with a :: rs => (a, rs) | [] => (None, []) end)
    as [answer rest].
  destruct (smtp.Send s answer rawMsg mailbox) as [[e|] bytes]; cbn; [eauto|].
  destruct (match faults w with f :: r => (f, r) | [] => (os.noFaults, []) end)
    as [ft fts].
  destruct (clean_perform (history.Add mailbox (default "" (uidMap !! n))) ft (fs w)
              (tracker w) Hclean) as (err & t' & fs' & Hmark & Hclean').
  cbn in Hmark. rewrite Hmark. cbn.
  destruct err as [e|]; cbn; [eauto|].
  destruct (pop3.Delete c1 n) as [[e|] c2]; cbn; eauto.
Qed.

Lemma processMessages_clean s mailbox uidMap msgNums :
  ∀ counters w,
    history.clean (tracker w) → is_Some (client w) →
    let r := processMessages s mailbox uidMap counters msgNums w in
    (∃ v, r.1 = Ret v) ∧ history.clean (tracker r.2) ∧ is_Some (client r.2).
Proof.
  induction msgNums as [|n rest IH]; intros counters w Hclean Hc r; subst r.
  - cbn. eauto.
  - rewrite processMessages_cons.
    destruct (processMessage_clean s mailbox uidMap counters n w Hclean Hc)
      as ([v Hv] & Hclean1 & Hc1).
    destruct (processMessage s mailbox uidMap counters n w) as [o w1].
    cbn in Hv. subst o. now apply IH.
Qed.

Lemma processMailbox_clean s index yahoo w :
  history.clean (tracker w) →
  let r := processMailbox s index yahoo w in
  (∃ v, r.1 = Ret v) ∧ history.clean (tracker r.2).
Proof.
  intros Hclean r. subst r.
  unfold processMailbox, Dial, defer, Quit, onClient, emit.
  unfold mbind, M_bind, mret, M_ret.
  destruct (match dials w with
            | d :: ds => (d, ds)
            | [] => (Err (errorString "dial tcp: connection refused"), [])
            end) as [tls ds].
  destruct (pop3.Dial _ tls) as [[c1|e] dropped]; cbn; [|eauto].
  destruct (pop3.Login c1 _ _) as [[e|] c2]; cbn.
  { destruct (pop3.Quit c2). cbn. eauto. }
  destruct (pop3.UIDList c2) as [[uidMap|e] c3]; cbn.
  2:{ destruct (pop3.Quit c3). cbn. eauto. }
  match goal with
  | |- context [processMessages s ?m uidMap (0, 0) ?ks ?w3] =>
      destruct (processMessages_clean s m uidMap ks (0, 0) w3 Hclean
                  ltac:(cbn; eauto))
        as ([v Hv] & Hclean4 & [c4 Hc4]);
      destruct (processMessages s m uidMap (0, 0) ks w3) as [res w4]
  end.
  cbn [fst snd] in *. subst res. rewrite Hc4.
  destruct (pop3.Quit c4). cbn. eauto.
Qed.

Lemma processAll_clean s mailboxes :
  ∀ index totals w,
    history.clean (tracker w) →
    let r := processAll s index totals mailboxes w in
    (∃ v, r.1 = Ret v) ∧ history.clean (tracker r.2).
Proof.
  induction mailboxes as [|yahoo rest IH]; intros index totals w Hclean r; subst r.
  - cbn. eauto.
  - rewrite processAll_cons.
    destruct (processMailbox_clean s index yahoo w Hclean) as ([v Hv] & Hclean1).
    destruct (processMailbox s index yahoo w) as [o w1].
    cbn in Hv. subst o. now apply IH.
Qed.

(** X24.  Started on a store with no nil pointer, no nil map and only
    [true] entries (such as the store [NewTracker] builds when there is no
    state file), [Run] never panics, whatever the servers, the relay and the
    file system do: it returns, and the store it leaves is such a store
    again. *)
Theorem Run_never_panics cfg w :
  history.clean (tracker w) →
  (∃ err, (Run cfg w).1 = Ret err) ∧ history.clean (tracker (Run cfg w).2).
Proof.
  intros Hclean. rewrite Run_world.
  destruct (processAll_clean (newSender cfg) (config.Yahoo cfg) 0 (0, 0) w Hclean)
    as ([v Hv] & Hclean1).
  split; [|exact Hclean1].
  unfold Run, mbind, M_bind, Stats, mret, M_ret.
  destruct (processAll (newSender cfg) 0 (0, 0) (config.Yahoo cfg) w) as [o w1].
  cbn in Hv, Hclean1. subst o.
  destruct (clean_Stats (tracker w1) Hclean1) as [st ->].
  destruct (v.2 >? 0); cbn; eauto.
Qed.

End whole_run.

Section whole_run_examples.
#[local] Existing Instance demo.json.
#[local] Existing Instance demo.parser.
#[local] Existing Instance demo.range.
Import worker pipeline.

Lemma Run_reports_failures_witness :
  ∃ new,
    trace (Run demo.loaded (demo.world [demo.refusing; demo.oneMessage ["+OK marked"; "+OK bye"]] [])).2
    = trace (demo.world [demo.refusing; demo.oneMessage ["+OK marked"; "+OK bye"]] []) ++ new
    ∧ (Z.of_nat (count isFailure new) ≤ maxInt →
       (Run demo.loaded (demo.world [demo.refusing; demo.oneMessage ["+OK marked"; "+OK bye"]] [])).1
       = Ret match count isFailure new with
             | O => None
             | S _ =>
                 Some (errorString
                         ("completed with "
                          +:+ strconv.Itoa (Z.of_nat (count isFailure new))
                          +:+ " errors"))
             end).
Proof.
  destruct (Run_reports_failures demo.loaded
              (demo.world [demo.refusing; demo.oneMessage ["+OK marked"; "+OK bye"]] [])
              (Some (errorString "completed with 1 errors"))
              (Run demo.loaded
                 (demo.world [demo.refusing; demo.oneMessage ["+OK marked"; "+OK bye"]] [])).2)
    as (new & Htr & Herr); [vm_compute; reflexivity|].
  exists new. split; [exact Htr|]. intros Hfit. rewrite <- (Herr Hfit).
  vm_compute. reflexivity.
Defined.

Lemma Run_leaves_no_session_witness :
  client (Run demo.loaded (demo.world [demo.refusing] [])).2 = None
  ∧ ∃ new gone,
      trace (Run demo.loaded (demo.world [demo.refusing] [])).2
      = trace (demo.world [demo.refusing] []) ++ new
      ∧ sessions (Run demo.loaded (demo.world [demo.refusing] [])).2
        = sessions (demo.world [demo.refusing] []) ++ gone
      ∧ Forall (λ c, pop3.closed (pop3.conn c) = true) gone
      ∧ count isOpening new = count isQuit new.
Proof.
  apply (Run_leaves_no_session demo.loaded (demo.world [demo.refusing] [])).
  reflexivity.
Defined.

Lemma Run_dials_every_mailbox_witness :
  ∃ new,
    trace (Run demo.loaded (demo.world [demo.refusing] [])).2
    = trace (demo.world [demo.refusing] []) ++ new
    ∧ count isDial new = length (config.Yahoo demo.loaded).
Proof.
  apply (Run_dials_every_mailbox demo.loaded (demo.world [demo.refusing] [])
           (Some (errorString "completed with 1 errors"))).
  vm_compute. reflexivity.
Defined.

Lemma Run_never_panics_witness :
  (∃ err, (Run demo.loaded (demo.twoRuns [Some (errorString "relay down")])).1 = Ret err)
  ∧ history.clean
      (tracker (Run demo.loaded (demo.twoRuns [Some (errorString "relay down")])).2).
Proof.
  apply (Run_never_panics demo.loaded (demo.twoRuns [Some (errorString "relay down")])).
  exact freshTracker_clean.
Defined.

End whole_run_examples.
